(** * Physics-education simulations: numerical core

    A shallow embedding of the numerical core of three canvas simulations:

    - [Pendulum]    (simulations/physical-pendulum/script.js): a rigid ruler
      swinging about an offset pivot, integrated by RK4, with a period
      counter and an animation driver that sub-steps a frame;
    - [AirTable]    (projectile motion on an inclined air table): semi-implicit
      Euler stepping with wall bounces, launch-height return detection and
      the ghost-trajectory preview;
    - [Centripetal] (centripetal-acceleration apparatus): a spring-mounted
      cylinder coupled to a pendulum through a one-step-lagged acceleration.

    Number model.  A JavaScript number is read as the real number it stands
    for: [+], [-], [*] are exact and rounding is ignored.  The divisions of
    the three integrators have non-zero divisors (the constants 6, 10, 12,
    75, 3.5, 1000, 0.0005, and L^2/12 + h^2 > 0), so [Rdiv] is exact there
    as well; [getTheoreticalPeriod] is only used at h > 0.  The regression
    routine divides by data-dependent quantities; its numbers are therefore
    of type [JS.num], a real or the token [NonFinite] that stands for the
    JavaScript values NaN, Infinity and -Infinity.  Integer-valued numbers
    (loop counters, [Math.round] results, the period counter) are in [Z].
    Drawing and DOM wiring are left out; a value read from a control is an
    argument of the operation that reads it.

    Where rounding decides what the code returns (the regression on
    samples that share one x value, whose denominator cancels in exact
    arithmetic only), [RegressionFloat] gives the routine on binary64
    numbers, Rocq's primitive floats, operation by operation as JavaScript
    evaluates it.

    Around the three cores, [PendulumData], [AirTablePage] and
    [CentripetalPage] model what the pages do with them: the result tables
    and their analysis, the mouse gestures on the air table, the guided
    set-up and the status line of the centripetal apparatus. *)

From Stdlib Require Import Reals Lra Lia ZArith List Bool Psatz.
From Stdlib Require Import Sorting.Sorted Sorting.Permutation.
From Stdlib Require Floats.
Import ListNotations.
Open Scope R_scope.

(** ** JavaScript primitives *)

Module JS.

Definition ltb (x y : R) : bool := if Rlt_dec x y then true else false.
Definition leb (x y : R) : bool := if Rle_dec x y then true else false.
Definition gtb (x y : R) : bool := ltb y x.
Definition geb (x y : R) : bool := leb y x.
Definition eqb (x y : R) : bool := if Req_dec_T x y then true else false.

(** [Math.round]: the nearest integer, halves rounded towards +Infinity. *)
Definition Math_round (x : R) : Z := Int_part (x + / 2).

(** [for (let i = i0; i < n; i++) body] on an integer-valued bound. *)
Fixpoint for_loop {A : Type} (fuel : nat) (i n : Z) (body : A -> A) (a : A) : A :=
  match fuel with
  | O => a
  | S fuel' =>
      if (i <? n)%Z then for_loop fuel' (i + 1)%Z n body (body a) else a
  end.

Definition for_lt {A : Type} (n : Z) (body : A -> A) (a : A) : A :=
  for_loop (Z.to_nat n) 0%Z n body a.

(** Numbers whose computation may divide by zero. *)
Inductive num : Type :=
| Fin (r : R)
| NonFinite.

Definition add (a b : num) : num :=
  match a, b with Fin x, Fin y => Fin (x + y) | _, _ => NonFinite end.
Definition sub (a b : num) : num :=
  match a, b with Fin x, Fin y => Fin (x - y) | _, _ => NonFinite end.
Definition mul (a b : num) : num :=
  match a, b with Fin x, Fin y => Fin (x * y) | _, _ => NonFinite end.

(** [x / 0] is NaN or an infinity.  A non-finite operand gives a non-finite
    quotient here; the one JavaScript exception, a finite number divided by
    an infinity, does not arise: every divisor below is a sum of finite
    terms. *)
Definition div (a b : num) : num :=
  match a, b with
  | Fin x, Fin y => if Req_dec_T y 0 then NonFinite else Fin (x / y)
  | _, _ => NonFinite
  end.

(** [a[i]] used as a number: [undefined] turns the arithmetic into NaN. *)
Definition get (a : list R) (i : nat) : num :=
  match nth_error a i with Some r => Fin r | None => NonFinite end.

End JS.

Notation "x <? y" := (JS.ltb x y) : R_scope.
Notation "x <=? y" := (JS.leb x y) : R_scope.
Notation "x >? y" := (JS.gtb x y) : R_scope.
Notation "x >=? y" := (JS.geb x y) : R_scope.

(** ** Linear regression (shared by the pendulum and the centripetal pages) *)

Module Regression.
Import JS.

Record Fit : Type := mkFit { slope : num; intercept : num; r2 : num }.

Record Sums : Type :=
  mkSums { sumX : num; sumY : num; sumXY : num; sumX2 : num; sumY2 : num }.

(** First loop of [linearRegression]: the five running sums. *)
Definition sums_loop (xData yData : list R) (n : nat) : Sums :=
  fold_left
    (fun acc i =>
       mkSums (add (sumX acc) (get xData i))
              (add (sumY acc) (get yData i))
              (add (sumXY acc) (mul (get xData i) (get yData i)))
              (add (sumX2 acc) (mul (get xData i) (get xData i)))
              (add (sumY2 acc) (mul (get yData i) (get yData i))))
    (seq 0 n)
    (mkSums (Fin 0) (Fin 0) (Fin 0) (Fin 0) (Fin 0)).

(** Second loop: total and residual sums of squares. *)
Definition ss_loop (xData yData : list R) (n : nat)
           (yMean slope intercept : num) : num * num :=
  fold_left
    (fun acc i =>
       let yPredicted := add (mul slope (get xData i)) intercept in
       (add (fst acc)
            (mul (sub (get yData i) yMean) (sub (get yData i) yMean)),
        add (snd acc)
            (mul (sub (get yData i) yPredicted) (sub (get yData i) yPredicted))))
    (seq 0 n)
    (Fin 0, Fin 0).

(** The body both pages share, after the pendulum page's length guard. *)
Definition fit (xData yData : list R) : Fit :=
  let n := length xData in
  let s := sums_loop xData yData n in
  let slope :=
    div (sub (mul (Fin (INR n)) (sumXY s)) (mul (sumX s) (sumY s)))
        (sub (mul (Fin (INR n)) (sumX2 s)) (mul (sumX s) (sumX s))) in
  let intercept := div (sub (sumY s) (mul slope (sumX s))) (Fin (INR n)) in
  let yMean := div (sumY s) (Fin (INR n)) in
  let ss := ss_loop xData yData n yMean slope intercept in
  let r2 := sub (Fin 1) (div (snd ss) (fst ss)) in
  mkFit slope intercept r2.

(** *** The fit as the specification words it

    Sums over the samples, then
    slope = (n Sxy - Sx Sy) / (n Sxx - Sx^2),
    intercept = (Sy - slope Sx) / n and R^2 = 1 - SS_res / SS_tot. *)

Definition Rsum (l : list R) : R := fold_right Rplus 0 l.

Definition nsum (l : list num) : num := fold_left add l (Fin 0).

Definition sq (a : num) : num := mul a a.

Definition Sx (xs : list R) : R := Rsum xs.
Definition Sxy (xs ys : list R) : R :=
  Rsum (map (fun p => fst p * snd p) (combine xs ys)).

Definition fit_spec (xs ys : list R) : Fit :=
  let n := INR (length xs) in
  let slope :=
    div (Fin (n * Sxy xs ys - Sx xs * Sx ys))
        (Fin (n * Sxy xs xs - Sx xs * Sx xs)) in
  let intercept := div (sub (Fin (Sx ys)) (mul slope (Fin (Sx xs)))) (Fin n) in
  let yMean := div (Fin (Sx ys)) (Fin n) in
  let SS_tot :=
    nsum (map (fun p => sq (sub (Fin (snd p)) yMean)) (combine xs ys)) in
  let SS_res :=
    nsum (map (fun p =>
                 sq (sub (Fin (snd p))
                         (add (mul slope (Fin (fst p))) intercept)))
              (combine xs ys)) in
  mkFit slope intercept (sub (Fin 1) (div SS_res SS_tot)).

(** Synthetic samples generated exactly by y = 3 x + 2. *)
Definition on_line (xs : list R) : list R := map (fun x => 3 * x + 2) xs.

End Regression.

(** ** Physical pendulum (simulations/physical-pendulum/script.js) *)

Module Pendulum.

(** Physical constants. *)
Definition g : R := 980.
Definition rulerLength : R := 100.

(** Values read from the page by [init] (each through [parseInt]). *)
Record Controls : Type := mkControls {
  pivotDistanceSelect : Z;
  initialAngleSlider : Z;
  periodCountInput : Z
}.

(** Simulation state (the script's module-level variables). *)
Record State : Type := mkState {
  isRunning : bool;
  simulationTime : R;
  lastFrameTime : R;
  angle : R;
  angularVelocity : R;
  pivotDistance : R;
  initialAngle : R;
  targetPeriods : Z;
  completedPeriods : Z;
  hasStartedSwinging : bool
}.

(** The state the script starts from, before its first [init()]. *)
Definition initial : State :=
  mkState false 0 0 0 0 15 10 10 0 false.

Definition init (c : Controls) (s : State) : State :=
  let initialAngle' := IZR (initialAngleSlider c) in
  mkState (isRunning s)
          0
          0
          (initialAngle' * PI / 180)
          0
          (IZR (pivotDistanceSelect c))
          initialAngle'
          (periodCountInput c)
          0
          false.

Definition getMomentOfInertia (h : R) : R :=
  let L := rulerLength in
  (L * L / 12) + (h * h).

Definition getAngularAcceleration (theta h : R) : R :=
  let I_over_m := getMomentOfInertia h in
  - (g * h / I_over_m) * sin theta.

Definition getTheoreticalPeriod (h : R) : R :=
  let I_over_m := getMomentOfInertia h in
  2 * PI * sqrt (I_over_m / (g * h)).

(** One RK4 step followed by the period counter. *)
Definition updatePhysics (dt : R) (s : State) : State :=
  let h := pivotDistance s in
  let k1v := getAngularAcceleration (angle s) h in
  let k1x := angularVelocity s in
  let k2v := getAngularAcceleration (angle s + 0.5 * dt * k1x) h in
  let k2x := angularVelocity s + 0.5 * dt * k1v in
  let k3v := getAngularAcceleration (angle s + 0.5 * dt * k2x) h in
  let k3x := angularVelocity s + 0.5 * dt * k2v in
  let k4v := getAngularAcceleration (angle s + dt * k3x) h in
  let k4x := angularVelocity s + dt * k3v in
  let velocityBeforeUpdate := angularVelocity s in
  let angle' := angle s + (dt / 6) * (k1x + 2 * k2x + 2 * k3x + k4x) in
  let angularVelocity' :=
    angularVelocity s + (dt / 6) * (k1v + 2 * k2v + 2 * k3v + k4v) in
  let hasStartedSwinging' :=
    if negb (hasStartedSwinging s) && (Rabs angularVelocity' >? 0.001)
    then true else hasStartedSwinging s in
  let completedPeriods' :=
    if hasStartedSwinging' && (velocityBeforeUpdate >? 0)
       && (angularVelocity' <=? 0) && (angle' >? 0)
    then (completedPeriods s + 1)%Z else completedPeriods s in
  mkState (isRunning s) (simulationTime s) (lastFrameTime s)
          angle' angularVelocity'
          (pivotDistance s) (initialAngle s) (targetPeriods s)
          completedPeriods' hasStartedSwinging'.

Definition startSimulation (s : State) : State :=
  if isRunning s then s
  else mkState true (simulationTime s) 0 (angle s) (angularVelocity s)
               (pivotDistance s) (initialAngle s) (targetPeriods s)
               (completedPeriods s) (hasStartedSwinging s).

Definition stopSimulation (s : State) : State :=
  mkState false (simulationTime s) (lastFrameTime s) (angle s)
          (angularVelocity s) (pivotDistance s) (initialAngle s)
          (targetPeriods s) (completedPeriods s) (hasStartedSwinging s).

(** The sub-step size and the cap of [animate]. *)
Definition dt : R := 0.0005.
Definition maxSteps : Z := 100.

(** What one turn of [animate]'s loop does. *)
Definition subStep (s : State) : State :=
  let s' := updatePhysics dt s in
  mkState (isRunning s') (simulationTime s' + dt) (lastFrameTime s')
          (angle s') (angularVelocity s') (pivotDistance s')
          (initialAngle s') (targetPeriods s') (completedPeriods s')
          (hasStartedSwinging s').

(** [frameElapsed] as [animate] computes it from the timestamp. *)
Definition frameElapsed (timestamp : R) (s : State) : R :=
  let lastFrameTime0 :=
    if JS.eqb (lastFrameTime s) 0 then timestamp else lastFrameTime s in
  (timestamp - lastFrameTime0) / 1000.

Definition actualSteps (timestamp : R) (s : State) : Z :=
  let steps := JS.Math_round (frameElapsed timestamp s / dt) in
  Z.min steps maxSteps.

(** [lastFrameTime = timestamp]. *)
Definition stamp (timestamp : R) (s : State) : State :=
  mkState (isRunning s) (simulationTime s) timestamp (angle s)
          (angularVelocity s) (pivotDistance s) (initialAngle s)
          (targetPeriods s) (completedPeriods s) (hasStartedSwinging s).

(** End of [animate]: the run stops once the target is reached. *)
Definition conclude (s : State) : State :=
  if (completedPeriods s >=? targetPeriods s)%Z then stopSimulation s else s.

Definition animate (timestamp : R) (s : State) : State :=
  if negb (isRunning s) then s
  else
    let s1 := stamp timestamp s in
    let s2 := JS.for_lt (actualSteps timestamp s) subStep s1 in
    conclude s2.

(** The release button: [init(); startSimulation();]. *)
Definition release (c : Controls) (s : State) : State :=
  startSimulation (init c s).

(** [linearRegression]: [null] below two samples, else the shared body. *)
Definition linearRegression (xData yData : list R) : option Regression.Fit :=
  if (length xData <? 2)%nat then None
  else Some (Regression.fit xData yData).

(** *** Runs of sub-steps *)

(** The post-update states of a run of sub-steps. *)
Fixpoint trace (dts : list R) (s : State) : list State :=
  match dts with
  | [] => []
  | dt :: rest =>
      let s' := updatePhysics dt s in s' :: trace rest s'
  end.

Definition run (dts : list R) (s : State) : State :=
  fold_left (fun s dt => updatePhysics dt s) dts s.

(** Some sub-step of the trace left the angular velocity above the
    start threshold. *)
Definition swingObserved (l : list State) : Prop :=
  Exists (fun st => Rabs (angularVelocity st) > 0.001) l.

End Pendulum.

(** ** Projectile motion on the air table *)

Module AirTable.

Definition g : R := 980.
Definition pixelsPerCm : R := 5.
Definition puckRadius : R := 15.
Definition puckRadiusCm : R := puckRadius / pixelsPerCm.

(** The canvas size comes from the page; the table is that size in cm. *)
Record Canvas : Type := mkCanvas { width : R; height : R }.

Definition tableWidth (c : Canvas) : R := width c / pixelsPerCm.
Definition tableHeight (c : Canvas) : R := height c / pixelsPerCm.

Record State : Type := mkState {
  slopeAngle : R;
  sparkInterval : R;
  puckX : R;
  puckY : R;
  puckVx : R;
  puckVy : R;
  isAnimating : bool;
  lastTime : R;
  lastSparkTime : R;
  launchY : R;
  launchX : R;
  hasMovedFromStart : bool;
  trajectoryComplete : bool;
  maxHeight : R;
  minY : R;
  finalX : R;
  flightTime : R;
  timeToMaxHeight : R;
  simulationTime : R;
  reachedMaxHeight : bool;
  sparkDots : list (R * R)
}.

(** The state the script starts from. *)
Definition initial (c : Canvas) : State :=
  mkState 5 40 (tableWidth c / 2) (tableHeight c / 4) 0 0
          false 0 0 0 0 false false 0 0 0 0 0 0 false [].

(** The four variables [updatePhysics] assigns. *)
Definition set_puck (x y vx vy : R) (s : State) : State :=
  mkState (slopeAngle s) (sparkInterval s) x y vx vy
          (isAnimating s) (lastTime s) (lastSparkTime s) (launchY s)
          (launchX s) (hasMovedFromStart s) (trajectoryComplete s)
          (maxHeight s) (minY s) (finalX s) (flightTime s)
          (timeToMaxHeight s) (simulationTime s) (reachedMaxHeight s)
          (sparkDots s).

(** Down-slope acceleration, [g * Math.sin(slopeAngle * Math.PI / 180)]. *)
Definition slopeAccel (s : State) : R :=
  let slopeRad := slopeAngle s * PI / 180 in
  g * sin slopeRad.

Definition updatePhysics (c : Canvas) (dt : R) (s : State) : State :=
  let ay := slopeAccel s in
  let ax := 0 in
  let vx := puckVx s + ax * dt in
  let vy := puckVy s + ay * dt in
  let x := puckX s + vx * dt in
  let y := puckY s + vy * dt in
  let margin := puckRadiusCm in
  let '(x, vx) := if x <? margin then (margin, - vx * 0.8) else (x, vx) in
  let '(x, vx) :=
    if x >? tableWidth c - margin
    then (tableWidth c - margin, - vx * 0.8) else (x, vx) in
  let '(y, vy) := if y <? margin then (margin, - vy * 0.8) else (y, vy) in
  let '(y, vy) :=
    if y >? tableHeight c - margin
    then (tableHeight c - margin, - vy * 0.8) else (y, vy) in
  set_puck x y vx vy s.

Definition physicsSteps : Z := 10.

(** [dt] of a frame, in seconds: zero on the first frame after a start. *)
Definition frameDt (timestamp : R) (s : State) : R :=
  let lastTime0 := if JS.eqb (lastTime s) 0 then timestamp else lastTime s in
  (timestamp - lastTime0) / 1000.

(** The ten physics sub-steps of a frame. *)
Definition physicsPhase (c : Canvas) (timestamp : R) (s : State) : State :=
  let physDt := frameDt timestamp s / IZR physicsSteps in
  JS.for_lt physicsSteps (updatePhysics c physDt) s.

Definition animate (c : Canvas) (timestamp : R) (s : State) : State :=
  if negb (isAnimating s) then s
  else
    let lastSparkTime0 :=
      if JS.eqb (lastTime s) 0 then timestamp else lastSparkTime s in
    let dt := frameDt timestamp s in
    let prevVy := puckVy s in
    let s1 := physicsPhase c timestamp s in
    let simulationTime' := simulationTime s + dt in
    let apex :=
      negb (reachedMaxHeight s) && (prevVy <? 0) && (puckVy s1 >=? 0) in
    let reachedMaxHeight' := if apex then true else reachedMaxHeight s in
    let timeToMaxHeight' :=
      if apex then simulationTime' else timeToMaxHeight s in
    let spark := timestamp - lastSparkTime0 >=? sparkInterval s in
    let sparkDots' :=
      if spark then sparkDots s ++ [(puckX s1, puckY s1)] else sparkDots s in
    let lastSparkTime' := if spark then timestamp else lastSparkTime0 in
    let minY' := if puckY s1 <? minY s then puckY s1 else minY s in
    let hasMovedFromStart' :=
      if negb (hasMovedFromStart s) && (Rabs (puckY s1 - launchY s) >? 1)
      then true else hasMovedFromStart s in
    if hasMovedFromStart' && (puckY s1 >=? launchY s)
    then
      mkState (slopeAngle s) (sparkInterval s)
              (puckX s1) (launchY s) 0 0
              false timestamp lastSparkTime' (launchY s) (launchX s)
              hasMovedFromStart' true
              (launchY s - minY') minY' (puckX s1) simulationTime'
              timeToMaxHeight' simulationTime' reachedMaxHeight'
              (sparkDots' ++ [(puckX s1, launchY s)])
    else
      let isAnimating' :=
        if puckY s1 >=? tableHeight c - puckRadiusCm - 1
        then false else true in
      mkState (slopeAngle s) (sparkInterval s)
              (puckX s1) (puckY s1) (puckVx s1) (puckVy s1)
              isAnimating' timestamp lastSparkTime' (launchY s) (launchX s)
              hasMovedFromStart' (trajectoryComplete s)
              (maxHeight s) minY' (finalX s) (flightTime s)
              timeToMaxHeight' simulationTime' reachedMaxHeight'
              sparkDots'.

Definition startAnimation (s : State) : State :=
  if isAnimating s then s
  else
    mkState (slopeAngle s) (sparkInterval s)
            (puckX s) (puckY s) (puckVx s) (puckVy s)
            true 0 0 (puckY s) (puckX s) false false
            (maxHeight s) (puckY s) (finalX s) 0 0 0 false
            (sparkDots s ++ [(puckX s, puckY s)]).

(** What the mouse-up handler does with a drag longer than 5 px: the
    launch velocity is set and the animation started. *)
Definition launch (vx vy : R) (s : State) : State :=
  startAnimation (set_puck (puckX s) (puckY s) vx vy s).

(** Ghost-trajectory preview. *)
Record Preview : Type := mkPreview {
  pvX : R; pvY : R; pvVy : R; hasMovedAway : bool; points : list (R * R)
}.

Definition maxIterations : nat := 2000.

Fixpoint trajectoryLoop (c : Canvas) (fuel : nat) (startY vx ay dt : R)
         (p : Preview) : list (R * R) :=
  match fuel with
  | O => points p
  | S fuel' =>
      let x := pvX p + vx * dt in
      let y := pvY p + (pvVy p * dt + 0.5 * ay * dt * dt) in
      let currentVy := pvVy p + ay * dt in
      let hasMovedAway' :=
        if negb (hasMovedAway p) && (Rabs (y - startY) >? 1)
        then true else hasMovedAway p in
      if hasMovedAway' && (y >=? startY)
      then points p ++ [(x, startY)]
      else if (x <? 0) || (x >? tableWidth c)
              || (y <? 0) || (y >? tableHeight c)
      then points p
      else trajectoryLoop c fuel' startY vx ay dt
             (mkPreview x y currentVy hasMovedAway' (points p ++ [(x, y)]))
  end.

Definition calculateTrajectory (c : Canvas) (s : State)
           (startX startY vx vy : R) : list (R * R) :=
  let ay := slopeAccel s in
  let dt := 0.01 in
  trajectoryLoop c maxIterations startY vx ay dt
    (mkPreview startX startY vy false [(startX, startY)]).

(** *** Free flight: a sub-step that meets no wall *)

Definition rawVx (dt : R) (s : State) : R := puckVx s + 0 * dt.
Definition rawVy (dt : R) (s : State) : R := puckVy s + slopeAccel s * dt.
Definition rawX (dt : R) (s : State) : R := puckX s + rawVx dt s * dt.
Definition rawY (dt : R) (s : State) : R := puckY s + rawVy dt s * dt.

(** The position lies within the wall margins. *)
Definition inside (c : Canvas) (x y : R) : Prop :=
  puckRadiusCm <= x <= tableWidth c - puckRadiusCm /\
  puckRadiusCm <= y <= tableHeight c - puckRadiusCm.

(** No wall branch of [updatePhysics] fires in this sub-step. *)
Definition freeStep (c : Canvas) (dt : R) (s : State) : Prop :=
  inside c (rawX dt s) (rawY dt s).

(** Position and velocity after [j] free sub-steps of size [h]. *)
Definition flightX (h : R) (s : State) (j : nat) : R :=
  puckX s + INR j * (puckVx s * h).
Definition flightVy (h : R) (s : State) (j : nat) : R :=
  puckVy s + INR j * (slopeAccel s * h).
Definition flightY (h : R) (s : State) (j : nat) : R :=
  puckY s + INR j * (puckVy s * h)
  + INR j * (INR j + 1) / 2 * (slopeAccel s * h * h).

(** The preview state after [i] iterations of a fall from rest at
    ([x0], [y0]), with the points [pts] pushed so far. *)
Definition fallState (x0 y0 vx ay dt : R) (i : nat) (pts : list (R * R))
  : Preview :=
  mkPreview (x0 + INR i * (vx * dt))
            (y0 + ay * (INR i * dt) * (INR i * dt) / 2)
            (INR i * (ay * dt)) false pts.

(** *** A horizontal launch on the page's default settings *)

Definition canvas800x600 : Canvas := mkCanvas 800 600.
Definition launched : State := launch 100 0 (initial canvas800x600).
Definition firstFrame : State := animate canvas800x600 1000 launched.
Definition secondFrame : State := animate canvas800x600 1200 firstFrame.

End AirTable.

(** ** Centripetal-acceleration apparatus (coupled oscillator) *)

Module Centripetal.

Definition g : R := 980.
Definition actualRopeLength : R := 75.
Definition cylinderMass : R := 3.5.
Definition smallMass : R := 4.25.
Definition naturalSpringLength : R := 30.

Record State : Type := mkState {
  phase : Z;
  x1 : option R;
  x2 : option R;
  x0 : option R;
  x3 : option R;
  currentSpringLength : R;
  massMOnlyAttached : bool;
  fullSystemSetup : bool;
  systemSetup : bool;
  isAnimating : bool;
  pendulumAngle : R;
  pendulumAngularVelocity : R;
  releaseAngle : R;
  releaseHeight : R;
  cylinderDisplacement : R;
  maxCylinderDisplacement : R;
  cylinderVelocity : R;
  lastCylinderAccel : R;
  effectiveSpringConstant : R;
  extensionDueToMass : R
}.

(** [null] used as a number is 0. *)
Definition num_of (o : option R) : R :=
  match o with Some v => v | None => 0 end.

(** [a || b] on numbers: [a] unless it is [null] or 0. *)
Definition or_else (a : option R) (b : R) : R :=
  match a with
  | Some v => if JS.eqb v 0 then b else v
  | None => b
  end.

(** The state after the script has loaded and run [init()] with the
    spring-constant slider at [k]. *)
Definition initial (k : R) : State :=
  mkState 1 None None None None naturalSpringLength false false false false
          0 0 0 20 0 0 0 0 k (smallMass * g / k).

(** The dynamic variables a sub-step assigns. *)
Definition set_dynamics (theta omega d dmax v a : R) (s : State) : State :=
  mkState (phase s) (x1 s) (x2 s) (x0 s) (x3 s) (currentSpringLength s)
          (massMOnlyAttached s) (fullSystemSetup s) (systemSetup s)
          (isAnimating s) theta omega (releaseAngle s) (releaseHeight s)
          d dmax v a (effectiveSpringConstant s) (extensionDueToMass s).

Definition set_isAnimating (b : bool) (s : State) : State :=
  mkState (phase s) (x1 s) (x2 s) (x0 s) (x3 s) (currentSpringLength s)
          (massMOnlyAttached s) (fullSystemSetup s) (systemSetup s)
          b (pendulumAngle s) (pendulumAngularVelocity s) (releaseAngle s)
          (releaseHeight s) (cylinderDisplacement s)
          (maxCylinderDisplacement s) (cylinderVelocity s)
          (lastCylinderAccel s) (effectiveSpringConstant s)
          (extensionDueToMass s).

(** Quantities of one sub-step, named as in [updatePhysics]. *)
Definition effective_g (s : State) : R := g + lastCylinderAccel s.

Definition angularAcceleration (s : State) : R :=
  - (effective_g s / actualRopeLength) * sin (pendulumAngle s).

(** The cylinder acceleration of the sub-step, from the pendulum state
    the sub-step has just computed. *)
Definition cylinderAccel (theta omega : R) (s : State) : R :=
  let velocity := omega * actualRopeLength in
  let centripetalAccel := (velocity * velocity) / actualRopeLength in
  let tension := smallMass * g * cos theta + smallMass * centripetalAccel in
  let ropeForceOnCylinder := tension in
  let downwardForce := cylinderMass * g + ropeForceOnCylinder in
  let restSpringExtension :=
    or_else (x3 s) (currentSpringLength s) - naturalSpringLength in
  let totalSpringExtension := restSpringExtension + cylinderDisplacement s in
  let upwardSpringForce := effectiveSpringConstant s * totalSpringExtension in
  let netForce := downwardForce - upwardSpringForce in
  netForce / cylinderMass.

(** The displacement of the sub-step before it is clamped. *)
Definition rawDisplacement (dt cylinderAccel : R) (s : State) : R :=
  let cylinderVelocity' := (cylinderVelocity s + cylinderAccel * dt) * 0.95 in
  cylinderDisplacement s + cylinderVelocity' * dt.

Definition updatePhysics (dt : R) (s : State) : State :=
  if negb (isAnimating s) then s
  else
    let angularAcceleration := angularAcceleration s in
    let omega := pendulumAngularVelocity s + angularAcceleration * dt in
    let theta := pendulumAngle s + omega * dt in
    let omega := omega * 0.9995 in
    let cylinderAccel := cylinderAccel theta omega s in
    let v := cylinderVelocity s + cylinderAccel * dt in
    let v := v * 0.95 in
    let d := cylinderDisplacement s + v * dt in
    let dmax :=
      if Rabs d >? maxCylinderDisplacement s
      then Rabs d else maxCylinderDisplacement s in
    let d := Rmax 0 (Rmin 5 d) in
    set_dynamics theta omega d dmax v cylinderAccel s.

Definition dt : R := 0.002.

Definition animate (s : State) : State :=
  if negb (isAnimating s) then s
  else JS.for_lt 8 (updatePhysics dt) s.

Definition startAnimation (s : State) : State :=
  if isAnimating s then s
  else
    set_isAnimating true
      (set_dynamics (releaseAngle s) 0 0 0 0 (lastCylinderAccel s) s).

Definition stopAnimation (s : State) : State := set_isAnimating false s.

Definition calculateReleaseAngle (h : R) : R :=
  let cosTheta := 1 - h / actualRopeLength in
  if cosTheta <? -1 then PI
  else if cosTheta >? 1 then 0
  else acos cosTheta.

(** *** Button and slider handlers (their effect on the state) *)

Definition measureX1 (s : State) : State :=
  mkState 2 (Some naturalSpringLength) (x2 s) (x0 s) (x3 s)
          (currentSpringLength s) (massMOnlyAttached s) (fullSystemSetup s)
          (systemSetup s) (isAnimating s) (pendulumAngle s)
          (pendulumAngularVelocity s) (releaseAngle s) (releaseHeight s)
          (cylinderDisplacement s) (maxCylinderDisplacement s)
          (cylinderVelocity s) (lastCylinderAccel s)
          (effectiveSpringConstant s) (extensionDueToMass s).

Definition attachMass (s : State) : State :=
  mkState (phase s) (x1 s) (x2 s) (x0 s) (x3 s)
          (naturalSpringLength + extensionDueToMass s) true false
          (systemSetup s) (isAnimating s) (pendulumAngle s)
          (pendulumAngularVelocity s) (releaseAngle s) (releaseHeight s)
          (cylinderDisplacement s) (maxCylinderDisplacement s)
          (cylinderVelocity s) (lastCylinderAccel s)
          (effectiveSpringConstant s) (extensionDueToMass s).

(** [xExtension] and [h] are the values of the two sliders. *)
Definition measureX2 (xExtension h : R) (s : State) : State :=
  let x2' := currentSpringLength s in
  let x0' := x2' - num_of (x1 s) in
  let x3' := num_of (x1 s) + xExtension in
  let releaseAngle' := calculateReleaseAngle h in
  mkState 3 (x1 s) (Some x2') (Some x0') (Some x3') x3' false true true
          (isAnimating s) releaseAngle' (pendulumAngularVelocity s)
          releaseAngle' h
          (cylinderDisplacement s) (maxCylinderDisplacement s)
          (cylinderVelocity s) (lastCylinderAccel s)
          (effectiveSpringConstant s) (extensionDueToMass s).

(** The release button toggles between release and stop. *)
Definition releaseClick (s : State) : State :=
  if isAnimating s then stopAnimation s else startAnimation s.

(** The "Reset trial" button. *)
Definition resetTrial (s : State) : State :=
  let s := stopAnimation s in
  set_dynamics (releaseAngle s) 0 0 0 0 (lastCylinderAccel s) s.

(** [fullReset], as far as the modelled variables go (the page is taken to
    define every button the function touches, so that it runs to its end
    and calls [init()]). *)
Definition fullReset (s : State) : State :=
  let defaultK := 2450 in
  mkState 1 None None None None naturalSpringLength false false false false
          0 0 0 20 0 0 0 0 defaultK (smallMass * g / defaultK).

(** The three sliders. *)
Definition setK (k : R) (s : State) : State :=
  let extensionDueToMass' := smallMass * g / k in
  mkState (phase s) (x1 s) (x2 s) (x0 s) (x3 s)
          (if massMOnlyAttached s && negb (fullSystemSetup s)
           then naturalSpringLength + extensionDueToMass'
           else currentSpringLength s)
          (massMOnlyAttached s) (fullSystemSetup s) (systemSetup s)
          (isAnimating s) (pendulumAngle s) (pendulumAngularVelocity s)
          (releaseAngle s) (releaseHeight s) (cylinderDisplacement s)
          (maxCylinderDisplacement s) (cylinderVelocity s)
          (lastCylinderAccel s) k extensionDueToMass'.

Definition setX3 (xExtension : R) (s : State) : State :=
  if systemSetup s
  then
    let x3' := num_of (x1 s) + xExtension in
    mkState (phase s) (x1 s) (x2 s) (x0 s) (Some x3') x3'
            (massMOnlyAttached s) (fullSystemSetup s) (systemSetup s)
            (isAnimating s) (pendulumAngle s) (pendulumAngularVelocity s)
            (releaseAngle s) (releaseHeight s) (cylinderDisplacement s)
            (maxCylinderDisplacement s) (cylinderVelocity s)
            (lastCylinderAccel s) (effectiveSpringConstant s)
            (extensionDueToMass s)
  else s.

Definition setH (h : R) (s : State) : State :=
  let releaseAngle' := calculateReleaseAngle h in
  mkState (phase s) (x1 s) (x2 s) (x0 s) (x3 s) (currentSpringLength s)
          (massMOnlyAttached s) (fullSystemSetup s) (systemSetup s)
          (isAnimating s)
          (if systemSetup s then releaseAngle' else pendulumAngle s)
          (pendulumAngularVelocity s) releaseAngle' h
          (cylinderDisplacement s) (maxCylinderDisplacement s)
          (cylinderVelocity s) (lastCylinderAccel s)
          (effectiveSpringConstant s) (extensionDueToMass s).

(** *** The page as a state machine *)

Inductive event : Type :=
| MeasureX1
| AttachMass
| MeasureX2 (xExtension h : R)
| SetK (k : R)
| SetX3 (xExtension : R)
| SetH (h : R)
| ReleaseClick
| ResetTrial
| FullReset
| Frame
| SubStep (dt : R).

Definition handle (e : event) (s : State) : State :=
  match e with
  | MeasureX1 => measureX1 s
  | AttachMass => attachMass s
  | MeasureX2 xExtension h => measureX2 xExtension h s
  | SetK k => setK k s
  | SetX3 xExtension => setX3 xExtension s
  | SetH h => setH h s
  | ReleaseClick => releaseClick s
  | ResetTrial => resetTrial s
  | FullReset => fullReset s
  | Frame => animate s
  | SubStep dt => updatePhysics dt s
  end.

Definition run (es : list event) (s : State) : State :=
  fold_left (fun s e => handle e s) es s.

(** *** Quantities of a sub-step, for stating its properties *)

Definition stepOmega (dt : R) (s : State) : R :=
  (pendulumAngularVelocity s + angularAcceleration s * dt) * 0.9995.

Definition stepTheta (dt : R) (s : State) : R :=
  pendulumAngle s + (pendulumAngularVelocity s + angularAcceleration s * dt) * dt.

Definition stepAccel (dt : R) (s : State) : R :=
  cylinderAccel (stepTheta dt s) (stepOmega dt s) s.

(** The displacement a sub-step reaches before the clamp. *)
Definition preClamp (dt : R) (s : State) : R :=
  rawDisplacement dt (stepAccel dt s) s.

(** A run of sub-steps and the pre-clamp displacements it goes through. *)
Definition subSteps (dts : list R) (s : State) : State :=
  fold_left (fun s dt => updatePhysics dt s) dts s.

Fixpoint trace (dts : list R) (s : State) : list State :=
  match dts with
  | [] => []
  | dt :: rest => let s' := updatePhysics dt s in s' :: trace rest s'
  end.

Fixpoint preClampTrace (dts : list R) (s : State) : list R :=
  match dts with
  | [] => []
  | dt :: rest => preClamp dt s :: preClampTrace rest (updatePhysics dt s)
  end.

Definition Rlist_max (l : list R) : R := fold_right Rmax 0 l.

(** *** Scenarios *)

(** The guided set-up with every control at its default: k = 2450,
    extension 20 cm, release height 20 cm. *)
Definition defaultSetup : State :=
  run [MeasureX1; AttachMass; MeasureX2 20 20] (initial 2450).

(** A first trial of one frame, then "Reset trial" and a second release. *)
Definition firstTrial : State := run [ReleaseClick; Frame] defaultSetup.
Definition secondRelease : State := run [ResetTrial; ReleaseClick] firstTrial.


(** What holds during a trial on the default set-up: the cylinder rests
    against its stop, and the angular velocity is at most [B]. *)
Record trialInv (B : R) (s : State) : Prop := mkTrialInv {
  inv_running : isAnimating s = true;
  inv_x3 : x3 s = Some (naturalSpringLength + 20);
  inv_k : effectiveSpringConstant s = 2450;
  inv_angle : releaseAngle s = calculateReleaseAngle 20;
  inv_d : cylinderDisplacement s = 0;
  inv_v : cylinderVelocity s <= 0;
  inv_a : -14210 <= lastCylinderAccel s <= 0;
  inv_omega : Rabs (pendulumAngularVelocity s) <= B
}.

(** The same set-up on a much stiffer spring. *)
Definition stiffSetup : State :=
  run [MeasureX1; AttachMass; MeasureX2 20 20] (initial 250000).

(** [linearRegression] of this page has no length guard. *)
Definition linearRegression (xData yData : list R) : Regression.Fit :=
  Regression.fit xData yData.

End Centripetal.

(** ** Arrays and further number primitives *)

Module JSArray.

(** [Array.prototype.sort] with the comparator [(a, b) => key a - key b]:
    a stable sort by key.  Each element is inserted, in array order, after
    the elements whose key is not larger. *)
Fixpoint insert_by {A : Type} (key : A -> R) (x : A) (l : list A) : list A :=
  match l with
  | [] => [x]
  | y :: rest =>
      if JS.ltb (key x) (key y) then x :: y :: rest
      else y :: insert_by key x rest
  end.

Definition sort_by {A : Type} (key : A -> R) (l : list A) : list A :=
  fold_left (fun acc x => insert_by key x acc) l [].

(** The order the comparator stands for. *)
Definition key_le {A : Type} (key : A -> R) (a b : A) : Prop :=
  key a <= key b.

(** [a.splice(index, 1)] for an index counted from the start. *)
Definition splice1 {A : Type} (index : nat) (l : list A) : list A :=
  firstn index l ++ skipn (S index) l.

(** [Math.abs] on a number that may be non-finite. *)
Definition num_abs (a : JS.num) : JS.num :=
  match a with JS.Fin x => JS.Fin (Rabs x) | JS.NonFinite => JS.NonFinite end.

End JSArray.

(** ** Sample sets for the regression *)

Module RegressionData.

(** Samples generated exactly by y = a x + b. *)
Definition line (a b : R) (xs : list R) : list R :=
  map (fun x => a * x + b) xs.

(** The data have at least two different values. *)
Definition two_distinct (xs : list R) : Prop :=
  exists u v, In u xs /\ In v xs /\ u <> v.

End RegressionData.

(** ** Linear regression on binary64 numbers

    [linearRegression] as JavaScript evaluates it: every number is an IEEE
    754 binary64 value and every operation rounds. *)

Module RegressionFloat.
Import PrimFloat.

Record Fit : Type := mkFit { slope : float; intercept : float; r2 : float }.

Record Sums : Type :=
  mkSums { sumX : float; sumY : float; sumXY : float; sumX2 : float;
           sumY2 : float }.

(** [a[i]] used as a number: [undefined] turns the arithmetic into NaN. *)
Definition get (a : list float) (i : nat) : float := nth i a nan.

(** An array length as a number. *)
Definition number (n : nat) : float :=
  of_uint63 (Uint63Axioms.of_Z (Z.of_nat n)).

(** [v ** 2], read as the correctly rounded square [v * v]. *)
Definition square (v : float) : float := (v * v)%float.

(** First loop: the five running sums. *)
Definition sums_loop (xData yData : list float) (n : nat) : Sums :=
  fold_left
    (fun acc i =>
       mkSums (sumX acc + get xData i)%float
              (sumY acc + get yData i)%float
              (sumXY acc + get xData i * get yData i)%float
              (sumX2 acc + get xData i * get xData i)%float
              (sumY2 acc + get yData i * get yData i)%float)
    (seq 0 n)
    (mkSums 0%float 0%float 0%float 0%float 0%float).

(** [n * sumXY - sumX * sumY] and [n * sumX2 - sumX * sumX]. *)
Definition numerator (n : float) (s : Sums) : float :=
  (n * sumXY s - sumX s * sumY s)%float.

Definition denominator (n : float) (s : Sums) : float :=
  (n * sumX2 s - sumX s * sumX s)%float.

(** Second loop: [ssTotal] and [ssResidual]. *)
Definition ss_loop (xData yData : list float) (n : nat)
           (yMean slope intercept : float) : float * float :=
  fold_left
    (fun acc i =>
       let yPredicted := (slope * get xData i + intercept)%float in
       ((fst acc + square (get yData i - yMean))%float,
        (snd acc + square (get yData i - yPredicted))%float))
    (seq 0 n)
    (0%float, 0%float).

(** The body both pages share. *)
Definition fit (xData yData : list float) : Fit :=
  let n := length xData in
  let s := sums_loop xData yData n in
  let slope := (numerator (number n) s / denominator (number n) s)%float in
  let intercept := ((sumY s - slope * sumX s) / number n)%float in
  let yMean := (sumY s / number n)%float in
  let ss := ss_loop xData yData n yMean slope intercept in
  let r2 := (1 - snd ss / fst ss)%float in
  mkFit slope intercept r2.

(** The pendulum page's copy: [null] below two samples. *)
Module Pendulum.
Definition linearRegression (xData yData : list float) : option Fit :=
  if (length xData <? 2)%nat then None else Some (fit xData yData).
End Pendulum.

(** The centripetal page's copy has no guard. *)
Module Centripetal.
Definition linearRegression (xData yData : list float) : Fit :=
  fit xData yData.
End Centripetal.

End RegressionFloat.

(** ** Pendulum page: results table and analysis *)

Module PendulumData.
Import Pendulum.

(** One row of [storedData]. *)
Record Sample : Type := mkSample { h : R; T : R }.

(** [simulationTime / targetPeriods], as [showResults] and [storeResult]
    compute it (for a period count other than 0). *)
Definition avgPeriod (s : State) : R :=
  simulationTime s / IZR (targetPeriods s).

Definition storeResult (s : State) (storedData : list Sample) : list Sample :=
  JSArray.sort_by h (storedData ++ [mkSample (pivotDistance s) (avgPeriod s)]).

Definition removeData (index : nat) (storedData : list Sample) : list Sample :=
  JSArray.splice1 index storedData.

Definition clearTable : list Sample := [].

Record Analysis : Type := mkAnalysis {
  fit : Regression.Fit;
  expG : JS.num;
  percentError : JS.num
}.

(** [analyzeData]: [None] when it returns without a result (fewer than two
    rows, or no fit). *)
Definition analyzeData (storedData : list Sample) : option Analysis :=
  if (length storedData <? 2)%nat then None
  else
    let xData := map (fun d => h d * T d * T d) storedData in
    let yData := map (fun d => h d * h d) storedData in
    match linearRegression xData yData with
    | None => None
    | Some fit =>
        let expG :=
          JS.mul (JS.Fin (4 * PI * PI)) (Regression.slope fit) in
        let percentError :=
          JSArray.num_abs
            (JS.mul (JS.div (JS.sub expG (JS.Fin g)) (JS.Fin g))
                    (JS.Fin 100)) in
        Some (mkAnalysis fit expG percentError)
    end.

(** The table the theory predicts for a list of pivot distances. *)
Definition theoreticalTable (hs : list R) : list Sample :=
  map (fun h => mkSample h (getTheoreticalPeriod h)) hs.

(** The frames of a run, in order. *)
Definition frames (timestamps : list R) (s : State) : State :=
  fold_left (fun s t => animate t s) timestamps s.

(** The state seen in a mirror: angle and angular velocity change sign. *)
Definition mirror (s : State) : State :=
  mkState (isRunning s) (simulationTime s) (lastFrameTime s)
          (- angle s) (- angularVelocity s)
          (pivotDistance s) (initialAngle s) (targetPeriods s)
          (completedPeriods s) (hasStartedSwinging s).

(** The pivot distance at which L^2/12 = h^2. *)
Definition balancedPivot : R := rulerLength / sqrt 12.

End PendulumData.

(** ** Air-table page: mouse interaction and controls *)

Module AirTablePage.
Import AirTable.

Definition canvasToPhysics (canvasX canvasY : R) : R * R :=
  (canvasX / pixelsPerCm, canvasY / pixelsPerCm).

Definition physicsToCanvas (physX physY : R) : R * R :=
  (physX * pixelsPerCm, physY * pixelsPerCm).

(** The simulation state together with the interaction state. *)
Record Page : Type := mkPage {
  sim : State;
  isDragging : bool;
  dragStartX : R;
  dragStartY : R;
  currentMouseX : R;
  currentMouseY : R;
  initialPuckX : R;
  initialPuckY : R
}.

Definition initialPage (c : Canvas) : Page :=
  mkPage (initial c) false 0 0 0 0 (tableWidth c / 2) (tableHeight c / 4).

Definition with_sim (s : State) (p : Page) : Page :=
  mkPage s (isDragging p) (dragStartX p) (dragStartY p)
         (currentMouseX p) (currentMouseY p)
         (initialPuckX p) (initialPuckY p).

Definition isInsidePuck (canvasX canvasY : R) (s : State) : bool :=
  let pos := physicsToCanvas (puckX s) (puckY s) in
  let dx := canvasX - fst pos in
  let dy := canvasY - snd pos in
  sqrt (dx * dx + dy * dy) <=? puckRadius + 10.

Definition stopAnimation (s : State) : State :=
  mkState (slopeAngle s) (sparkInterval s)
          (puckX s) (puckY s) (puckVx s) (puckVy s)
          false (lastTime s) (lastSparkTime s) (launchY s) (launchX s)
          (hasMovedFromStart s) (trajectoryComplete s)
          (maxHeight s) (minY s) (finalX s) (flightTime s)
          (timeToMaxHeight s) (simulationTime s) (reachedMaxHeight s)
          (sparkDots s).

(** [sparkDots = []; trajectoryComplete = false]. *)
Definition clearDots (s : State) : State :=
  mkState (slopeAngle s) (sparkInterval s)
          (puckX s) (puckY s) (puckVx s) (puckVy s)
          (isAnimating s) (lastTime s) (lastSparkTime s) (launchY s)
          (launchX s) (hasMovedFromStart s) false
          (maxHeight s) (minY s) (finalX s) (flightTime s)
          (timeToMaxHeight s) (simulationTime s) (reachedMaxHeight s)
          [].

Definition resetPuck (p : Page) : Page :=
  let s := stopAnimation (sim p) in
  with_sim (clearDots (set_puck (initialPuckX p) (initialPuckY p) 0 0 s)) p.

Definition set_controls (slope spark : R) (s : State) : State :=
  mkState slope spark
          (puckX s) (puckY s) (puckVx s) (puckVy s)
          (isAnimating s) (lastTime s) (lastSparkTime s) (launchY s)
          (launchX s) (hasMovedFromStart s) (trajectoryComplete s)
          (maxHeight s) (minY s) (finalX s) (flightTime s)
          (timeToMaxHeight s) (simulationTime s) (reachedMaxHeight s)
          (sparkDots s).

Definition mousedown (c : Canvas) (mouseX mouseY : R) (p : Page) : Page :=
  if isAnimating (sim p) then p
  else if isInsidePuck mouseX mouseY (sim p)
  then mkPage (sim p) true mouseX mouseY mouseX mouseY
              (initialPuckX p) (initialPuckY p)
  else
    let physPos := canvasToPhysics mouseX mouseY in
    let margin := puckRadiusCm in
    let x := Rmax margin (Rmin (tableWidth c - margin) (fst physPos)) in
    let y := Rmax margin (Rmin (tableHeight c - margin) (snd physPos)) in
    mkPage (clearDots (set_puck x y (puckVx (sim p)) (puckVy (sim p)) (sim p)))
           (isDragging p) (dragStartX p) (dragStartY p)
           (currentMouseX p) (currentMouseY p) x y.

Definition mousemove (mouseX mouseY : R) (p : Page) : Page :=
  if isDragging p
  then mkPage (sim p) true (dragStartX p) (dragStartY p) mouseX mouseY
              (initialPuckX p) (initialPuckY p)
  else p.

Definition velocityScale : R := 3.

Definition mouseup (p : Page) : Page :=
  if negb (isDragging p) then p
  else
    let dx := dragStartX p - currentMouseX p in
    let dy := dragStartY p - currentMouseY p in
    let distance := sqrt (dx * dx + dy * dy) in
    let s :=
      if distance >? 5
      then launch ((dx / distance) * distance * velocityScale)
                  ((dy / distance) * distance * velocityScale) (sim p)
      else sim p in
    mkPage s false (dragStartX p) (dragStartY p)
           (currentMouseX p) (currentMouseY p)
           (initialPuckX p) (initialPuckY p).

Definition mouseleave (p : Page) : Page :=
  if isDragging p
  then mkPage (sim p) false (dragStartX p) (dragStartY p)
              (currentMouseX p) (currentMouseY p)
              (initialPuckX p) (initialPuckY p)
  else p.

Inductive event : Type :=
| MouseDown (mouseX mouseY : R)
| MouseMove (mouseX mouseY : R)
| MouseUp
| MouseLeave
| ResetClick
| ClearDotsClick
| SlopeInput (slope : R)
| SparkInput (spark : R)
| Frame (timestamp : R).

Definition handle (c : Canvas) (e : event) (p : Page) : Page :=
  match e with
  | MouseDown x y => mousedown c x y p
  | MouseMove x y => mousemove x y p
  | MouseUp => mouseup p
  | MouseLeave => mouseleave p
  | ResetClick => resetPuck p
  | ClearDotsClick => with_sim (clearDots (sim p)) p
  | SlopeInput slope =>
      with_sim (set_controls slope (sparkInterval (sim p)) (sim p)) p
  | SparkInput spark =>
      with_sim (set_controls (slopeAngle (sim p)) spark (sim p)) p
  | Frame timestamp => with_sim (animate c timestamp (sim p)) p
  end.

Definition run (c : Canvas) (es : list event) (p : Page) : Page :=
  fold_left (fun p e => handle c e p) es p.

(** A flight: the frames of one animation, in order. *)
Definition frames (c : Canvas) (timestamps : list R) (s : State) : State :=
  fold_left (fun s t => animate c t s) timestamps s.

(** The puck, the reset position and, during a flight, the launch height
    lie within the wall margins; no drag is in progress during a flight. *)
Definition pageInv (c : Canvas) (p : Page) : Prop :=
  inside c (puckX (sim p)) (puckY (sim p)) /\
  inside c (initialPuckX p) (initialPuckY p) /\
  (isAnimating (sim p) = true ->
   puckRadiusCm <= launchY (sim p) <= tableHeight c - puckRadiusCm) /\
  (isAnimating (sim p) = true -> isDragging p = false).

(** A flight in progress keeps the lowest [y] seen so far at or above the
    launch height; a completed one reports its results. *)
Definition flightInv (s : State) : Prop :=
  minY s <= launchY s /\
  (trajectoryComplete s = true ->
   isAnimating s = false /\
   puckY s = launchY s /\ puckVx s = 0 /\ puckVy s = 0 /\
   finalX s = puckX s /\
   maxHeight s = launchY s - minY s /\
   flightTime s = simulationTime s).

End AirTablePage.

(** ** Centripetal page: status line, data table and analysis *)

Module CentripetalPage.
Import Centripetal.

(** The texts of the cylinder status line. *)
Inductive Status : Type :=
| NoOscillationDetected
| MinimalOscillation
| EquilibriumFound
| SlightMovement
| MovingSignificantly
| AtRest
| NoSystem.

Definition cylinderStatus (s : State) : Status :=
  if fullSystemSetup s then
    if isAnimating s then
      if JS.eqb (maxCylinderDisplacement s) 0 then NoOscillationDetected
      else if (maxCylinderDisplacement s >? 0)
              && (maxCylinderDisplacement s <=? 0.2)
      then MinimalOscillation
      else if (maxCylinderDisplacement s >? 0.2)
              && (maxCylinderDisplacement s <? 0.5)
      then EquilibriumFound
      else if (maxCylinderDisplacement s >=? 0.5)
              && (maxCylinderDisplacement s <? 2)
      then SlightMovement
      else MovingSignificantly
    else AtRest
  else NoSystem.

(** One row of [recordedData]. *)
Record Point : Type := mkPoint { x : R; h : R }.

(** The record button; [xSlider] is the value of the extension slider. *)
Definition record (xSlider : R) (s : State) (recordedData : list Point)
  : list Point :=
  JSArray.sort_by h (recordedData ++ [mkPoint xSlider (releaseHeight s)]).

Definition removeData (index : nat) (recordedData : list Point) : list Point :=
  JSArray.splice1 index recordedData.

Record Analysis : Type := mkAnalysis {
  fit : Regression.Fit;
  experimentalLength : JS.num;
  percentError : JS.num
}.

(** The analyze button: nothing below two rows. *)
Definition analyze (s : State) (recordedData : list Point) : option Analysis :=
  if (length recordedData <? 2)%nat then None
  else
    let hData := map h recordedData in
    let xData := map x recordedData in
    let fit := linearRegression hData xData in
    let experimentalLength :=
      JS.div (JS.Fin (2 * num_of (x0 s))) (Regression.slope fit) in
    let percentError :=
      JSArray.num_abs
        (JS.mul (JS.div (JS.sub experimentalLength (JS.Fin actualRopeLength))
                        (JS.Fin actualRopeLength))
                (JS.Fin 100)) in
    Some (mkAnalysis fit experimentalLength percentError).

End CentripetalPage.

(** * Properties *)

(** ** Comparisons, rounding and loops *)

Lemma ltb_true (x y : R) : (x <? y) = true <-> x < y.
Proof. unfold JS.ltb; destruct (Rlt_dec x y); split; auto; discriminate. Qed.

Lemma ltb_false (x y : R) : (x <? y) = false <-> y <= x.
Proof.
  unfold JS.ltb; destruct (Rlt_dec x y); split; auto; try discriminate; lra.
Qed.

Lemma leb_true (x y : R) : (x <=? y) = true <-> x <= y.
Proof. unfold JS.leb; destruct (Rle_dec x y); split; auto; discriminate. Qed.

Lemma leb_false (x y : R) : (x <=? y) = false <-> y < x.
Proof.
  unfold JS.leb; destruct (Rle_dec x y); split; auto; try discriminate; lra.
Qed.

Lemma gtb_true (x y : R) : (x >? y) = true <-> x > y.
Proof. unfold JS.gtb; rewrite ltb_true; lra. Qed.

Lemma gtb_false (x y : R) : (x >? y) = false <-> x <= y.
Proof. unfold JS.gtb; rewrite ltb_false; lra. Qed.

Lemma geb_true (x y : R) : (x >=? y) = true <-> x >= y.
Proof. unfold JS.geb; rewrite leb_true; lra. Qed.

Lemma geb_false (x y : R) : (x >=? y) = false <-> x < y.
Proof. unfold JS.geb; rewrite leb_false; lra. Qed.

Lemma eqb_true (x y : R) : JS.eqb x y = true <-> x = y.
Proof. unfold JS.eqb; destruct (Req_dec_T x y); split; auto; discriminate. Qed.

Lemma eqb_false (x y : R) : JS.eqb x y = false <-> x <> y.
Proof.
  unfold JS.eqb; destruct (Req_dec_T x y); split; auto; try discriminate.
  intros H; contradiction.
Qed.

(** Decide a comparison of the model from facts [lra] can prove. *)
Ltac js_cmp :=
  match goal with
  | |- (_ <? _) = true => apply ltb_true; lra
  | |- (_ <? _) = false => apply ltb_false; lra
  | |- (_ <=? _) = true => apply leb_true; lra
  | |- (_ <=? _) = false => apply leb_false; lra
  | |- (_ >? _) = true => apply gtb_true; lra
  | |- (_ >? _) = false => apply gtb_false; lra
  | |- (_ >=? _) = true => apply geb_true; lra
  | |- (_ >=? _) = false => apply geb_false; lra
  | |- JS.eqb _ _ = true => apply eqb_true; lra
  | |- JS.eqb _ _ = false => apply eqb_false; lra
  end.

Lemma Math_round_bounds (x : R) :
  IZR (JS.Math_round x) <= x + / 2 < IZR (JS.Math_round x) + 1.
Proof.
  unfold JS.Math_round.
  destruct (base_Int_part (x + / 2)) as [H1 H2]. lra.
Qed.

Lemma Math_round_unique (x : R) (z : Z) :
  IZR z <= x + / 2 < IZR z + 1 -> JS.Math_round x = z.
Proof.
  intros [H1 H2]. unfold JS.Math_round. symmetry.
  apply Int_part_spec. lra.
Qed.

Lemma Math_round_nonneg (x : R) : 0 <= x -> (0 <= JS.Math_round x)%Z.
Proof.
  intros Hx. destruct (Math_round_bounds x) as [_ H].
  assert (Hlt : IZR (-1) < IZR (JS.Math_round x)) by (simpl; lra).
  apply lt_IZR in Hlt. lia.
Qed.

(** Halves round towards +Infinity, as [Math.round] does. *)
Example Math_round_half : JS.Math_round 32.5 = 33%Z.
Proof. apply Math_round_unique. split; lra. Qed.

Example Math_round_down : JS.Math_round 2.4 = 2%Z.
Proof. apply Math_round_unique. split; lra. Qed.

Example Math_round_negative_half : JS.Math_round (-0.5) = 0%Z.
Proof. apply Math_round_unique. split; lra. Qed.

Lemma for_loop_iter {A : Type} (body : A -> A) (n : Z) :
  forall (fuel : nat) (i : Z) (a : A),
    (Z.to_nat (n - i) <= fuel)%nat ->
    JS.for_loop fuel i n body a = Nat.iter (Z.to_nat (n - i)) body a.
Proof.
  induction fuel as [|fuel IH]; intros i a Hfuel; simpl.
  - replace (Z.to_nat (n - i)) with O by lia. reflexivity.
  - destruct (Z.ltb_spec i n) as [Hlt|Hge].
    + rewrite IH by lia.
      replace (Z.to_nat (n - i)) with (S (Z.to_nat (n - (i + 1)))) by lia.
      rewrite Nat.iter_succ_r. reflexivity.
    + replace (Z.to_nat (n - i)) with O by lia. reflexivity.
Qed.

Lemma for_lt_iter {A : Type} (body : A -> A) (n : Z) (a : A) :
  JS.for_lt n body a = Nat.iter (Z.to_nat n) body a.
Proof.
  unfold JS.for_lt. rewrite for_loop_iter by lia.
  rewrite Z.sub_0_r. reflexivity.
Qed.

(** ** Bounds on pi *)

Lemma PI_enclosure : 3.1415 < PI < 3.1421.
Proof.
  pose proof (PI_2_3_7_ineq 1) as H.
  cbn [Nat.mul Nat.add sum_f_R0] in H.
  unfold tg_alt, PI_2_3_7_tg, Ratan_seq in H.
  cbn [Nat.mul Nat.add pow INR] in H.
  lra.
Qed.

Lemma sqrt_enclosure (x lo hi : R) :
  0 <= lo -> 0 <= hi -> lo * lo < x < hi * hi -> lo < sqrt x < hi.
Proof.
  intros Hlo Hhi [H1 H2]. split.
  - replace lo with (sqrt (lo * lo)) by (apply sqrt_square; assumption).
    apply sqrt_lt_1; nra.
  - replace hi with (sqrt (hi * hi)) by (apply sqrt_square; assumption).
    apply sqrt_lt_1; nra.
Qed.

Lemma INR_literal (n : nat) (z : Z) : Z.of_nat n = z -> INR n = IZR z.
Proof. intros <-. apply INR_IZR_INZ. Qed.

Lemma sin_5_degrees : 0.087 < sin (5 * PI / 180) < 0.0873.
Proof.
  pose proof PI_enclosure as [Hlo Hhi].
  set (a := 5 * PI / 180).
  assert (Ha : 0.08726 < a < 0.08729) by (unfold a; lra).
  assert (Hpi : a <= PI) by (unfold a; lra).
  split.
  - destruct (SIN a) as [Hlb _]; [lra | exact Hpi |].
    unfold sin_lb, sin_approx, sin_term in Hlb.
    cbn [sum_f_R0 Nat.mul Nat.add pow] in Hlb.
    rewrite (INR_literal (fact 1) 1), (INR_literal (fact 3) 6),
            (INR_literal (fact 5) 120), (INR_literal (fact 7) 5040) in Hlb
      by reflexivity.
    assert (H2 : 0 < a * a < 0.0077) by nra.
    assert (H3 : 0 < a * a * a < 0.00068) by nra.
    assert (H5 : 0 < a * a * (a * a * a)) by (apply Rmult_lt_0_compat; lra).
    assert (H7 : a * a * (a * a * (a * a * a)) < a * a * (a * a * a)) by nra.
    lra.
  - assert (sin a < a) by (apply sin_lt_x; lra). lra.
Qed.

(** ** Physical pendulum *)

Module PendulumFacts.
Import Pendulum.

(** *** Theoretical period at h = 15 cm *)

Lemma period_15_enclosure : 1.6857 < getTheoreticalPeriod 15 < 1.6867.
Proof.
  unfold getTheoreticalPeriod, getMomentOfInertia, g, rulerLength.
  replace ((100 * 100 / 12 + 15 * 15) / (980 * 15)) with (127 / 1764)
    by field.
  assert (Hs : 0.2683 < sqrt (127 / 1764) < 0.2684)
    by (apply sqrt_enclosure; lra).
  pose proof PI_enclosure as Hpi.
  split; nra.
Qed.

(** *** Period counting along a run *)

Lemma trace_app (dts1 dts2 : list R) (s : State) :
  trace (dts1 ++ dts2) s = trace dts1 s ++ trace dts2 (run dts1 s).
Proof.
  revert s; induction dts1 as [|d dts1 IH]; intros s; simpl.
  - reflexivity.
  - rewrite IH. reflexivity.
Qed.

Lemma hasStartedSwinging_step (dt : R) (s : State) :
  hasStartedSwinging (updatePhysics dt s) = true <->
  hasStartedSwinging s = true \/
  Rabs (angularVelocity (updatePhysics dt s)) > 0.001.
Proof.
  unfold updatePhysics; cbn [hasStartedSwinging angularVelocity].
  destruct (hasStartedSwinging s); cbn [negb andb].
  - tauto.
  - match goal with
    | |- context [?a >? ?b] => destruct (a >? b) eqn:E
    end.
    + apply gtb_true in E. tauto.
    + apply gtb_false in E. split; [discriminate|].
      intros [H|H]; [discriminate | lra].
Qed.

Lemma hasStartedSwinging_run (dts : list R) (s : State) :
  hasStartedSwinging (run dts s) = true <->
  hasStartedSwinging s = true \/ swingObserved (trace dts s).
Proof.
  unfold swingObserved.
  revert s; induction dts as [|d dts IH]; intros s; simpl.
  - rewrite Exists_nil. tauto.
  - unfold run in *; simpl. rewrite IH, hasStartedSwinging_step.
    rewrite Exists_cons. tauto.
Qed.

Lemma completedPeriods_step (dt : R) (s : State) :
  let s' := updatePhysics dt s in
  completedPeriods s' =
  if hasStartedSwinging s' && (angularVelocity s >? 0)
     && (angularVelocity s' <=? 0) && (angle s' >? 0)
  then (completedPeriods s + 1)%Z else completedPeriods s.
Proof. reflexivity. Qed.

(** *** Sub-steps of one animation frame *)

Lemma simulationTime_subSteps (k : nat) (s : State) :
  simulationTime (Nat.iter k subStep s) = simulationTime s + INR k * dt.
Proof.
  induction k as [|k IH].
  - simpl. lra.
  - rewrite S_INR. cbn [Nat.iter nat_rect].
    change (simulationTime (subStep ?x)) with (simulationTime x + dt).
    unfold Nat.iter in IH. rewrite IH. lra.
Qed.

Lemma simulationTime_conclude (s : State) :
  simulationTime (conclude s) = simulationTime s.
Proof. unfold conclude; destruct (_ >=? _)%Z; reflexivity. Qed.

(** C1 (as the code has it): with L = 100 cm and g = 980 cm/s^2 the
    theoretical period 2 pi sqrt((L^2/12 + h^2)/(g h)) at h = 15 cm is
    1.686 s to three decimals (it lies strictly between 1.6857 and 1.6867). *)
Theorem theoretical_period_h15 :
  1.6857 < getTheoreticalPeriod 15 < 1.6867.
Proof. exact period_15_enclosure. Qed.

(** C1 (as stated) fails: the period at h = 15 cm is not 0.909 s to three
    decimals; it is more than 0.77 s above that value. *)
Lemma period_at_h15_is_not_0909 :
  ~ (Rabs (getTheoreticalPeriod 15 - 0.909) <= 0.0005) /\
  getTheoreticalPeriod 15 - 0.909 > 0.77.
Proof.
  pose proof period_15_enclosure as [Hlo Hhi].
  split; [|lra].
  intros H. unfold Rabs in H.
  destruct (Rcase_abs (getTheoreticalPeriod 15 - 0.909)); lra.
Qed.

(** C6: along a run of sub-steps from [init] (release velocity zero), a
    sub-step increments [completedPeriods] by one exactly when the angular
    velocity was positive before the RK4 update, is non-positive after it,
    the updated angle is positive, and some sub-step of the run so far (this
    one included) has left the angular velocity above 0.001 rad/s in
    magnitude; otherwise the counter keeps its value.  The first sub-step
    after [init] counts nothing. *)
Theorem period_counted_at_turning_point :
  forall (c : Controls) (s00 : State) (dts : list R) (dt : R),
    let s0 := init c s00 in
    let s := run dts s0 in
    let s' := updatePhysics dt s in
    let turning :=
      angularVelocity s > 0 /\ angularVelocity s' <= 0 /\ angle s' > 0 /\
      swingObserved (trace (dts ++ [dt]) s0) in
    (turning -> completedPeriods s' = (completedPeriods s + 1)%Z) /\
    (~ turning -> completedPeriods s' = completedPeriods s) /\
    completedPeriods (updatePhysics dt s0) = 0%Z.
Proof.
  intros c s00 dts dt s0 s s' turning.
  assert (Hflag : hasStartedSwinging s' = true <->
                  swingObserved (trace (dts ++ [dt]) s0)).
  { change s' with (updatePhysics dt (run dts s0)).
    replace (updatePhysics dt (run dts s0)) with (run (dts ++ [dt]) s0)
      by (unfold run; rewrite fold_left_app; reflexivity).
    rewrite hasStartedSwinging_run.
    unfold s0 at 1; cbn [init hasStartedSwinging].
    split; [intros [H|H]; [discriminate | exact H] | auto]. }
  pose proof (completedPeriods_step dt s) as Hstep.
  cbv zeta in Hstep. fold s' in Hstep.
  repeat split.
  - intros (Hb & Ha & Hang & Hsw).
    rewrite Hstep.
    apply Hflag in Hsw. rewrite Hsw.
    replace (angularVelocity s >? 0) with true by (symmetry; js_cmp).
    replace (angularVelocity s' <=? 0) with true by (symmetry; js_cmp).
    replace (angle s' >? 0) with true by (symmetry; js_cmp).
    reflexivity.
  - intros Hnot. rewrite Hstep.
    destruct (hasStartedSwinging s') eqn:E1; [|reflexivity].
    destruct (angularVelocity s >? 0) eqn:E2; [|reflexivity].
    destruct (angularVelocity s' <=? 0) eqn:E3; [|reflexivity].
    destruct (angle s' >? 0) eqn:E4; [|reflexivity].
    exfalso. apply Hnot. unfold turning.
    apply gtb_true in E2. apply leb_true in E3. apply gtb_true in E4.
    repeat split; try assumption. apply Hflag. reflexivity.
  - rewrite completedPeriods_step.
    replace (angularVelocity s0 >? 0) with false.
    + rewrite andb_false_r. reflexivity.
    + symmetry. unfold s0; cbn [init angularVelocity]. js_cmp.
Qed.

Lemma period_counted_at_turning_point_witness :
  completedPeriods
    (updatePhysics 0.0005 (init (mkControls 15 10 10) initial)) = 0%Z.
Proof.
  exact (proj2 (proj2 (period_counted_at_turning_point
                         (mkControls 15 10 10) initial [] 0.0005))).
Defined.

(** C8: a call of [animate] on a running pendulum executes k sub-steps of
    0.0005 s each, where k = max(0, min(round(f / 0.0005), 100)) and f is
    the elapsed frame interval in seconds; for every elapsed interval f >= 0
    that is min(round(f / 0.0005), 100).  So no call executes more than 100
    sub-steps, and the simulated clock advances by k * 0.0005. *)
Theorem animate_substeps_capped :
  forall (timestamp : R) (s : State),
    isRunning s = true ->
    let f := frameElapsed timestamp s in
    exists k : nat,
      animate timestamp s = conclude (Nat.iter k subStep (stamp timestamp s)) /\
      simulationTime (animate timestamp s) = simulationTime s + INR k * 0.0005 /\
      (k <= 100)%nat /\
      Z.of_nat k = Z.max 0 (Z.min (JS.Math_round (f / 0.0005)) 100) /\
      (0 <= f -> Z.of_nat k = Z.min (JS.Math_round (f / 0.0005)) 100).
Proof.
  intros timestamp s Hrun f.
  exists (Z.to_nat (actualSteps timestamp s)).
  assert (Hanim : animate timestamp s =
                  conclude (Nat.iter (Z.to_nat (actualSteps timestamp s))
                                     subStep (stamp timestamp s))).
  { unfold animate. rewrite Hrun. cbn [negb]. rewrite for_lt_iter.
    reflexivity. }
  assert (Hsteps : actualSteps timestamp s =
                   Z.min (JS.Math_round (f / 0.0005)) 100) by reflexivity.
  repeat split.
  - exact Hanim.
  - rewrite Hanim, simulationTime_conclude, simulationTime_subSteps.
    reflexivity.
  - rewrite Hsteps. lia.
  - rewrite Hsteps. lia.
  - intros Hf. rewrite Hsteps.
    assert (0 <= JS.Math_round (f / 0.0005))%Z.
    { apply Math_round_nonneg. apply Rmult_le_pos; [exact Hf|].
      apply Rlt_le, Rinv_0_lt_compat. lra. }
    lia.
Qed.

Lemma animate_substeps_capped_witness :
  let s := mkState true 0 1000 (10 * PI / 180) 0 15 10 10 0 false in
  exists k : nat,
    Z.of_nat k = 32%Z /\
    simulationTime (animate 1016 s) = simulationTime s + INR k * 0.0005.
Proof.
  intros s.
  destruct (animate_substeps_capped 1016 s eq_refl)
    as (k & _ & Htime & _ & _ & Hk).
  exists k. split; [|exact Htime].
  assert (Hf : frameElapsed 1016 s = 0.016).
  { unfold frameElapsed, s; cbn [lastFrameTime].
    replace (JS.eqb 1000 0) with false by (symmetry; js_cmp). lra. }
  rewrite Hk by (rewrite Hf; lra).
  rewrite Hf.
  rewrite (Math_round_unique (0.016 / 0.0005) 32) by (split; lra).
  reflexivity.
Defined.

End PendulumFacts.

(** ** Linear regression *)

Module RegressionFacts.
Import JS Regression.

Lemma get_middle (pre rest : list R) (x : R) :
  get (pre ++ x :: rest) (length pre) = Fin x.
Proof.
  unfold get. rewrite nth_error_app2 by lia.
  rewrite Nat.sub_diag. reflexivity.
Qed.

(** An index loop over two arrays of one length is a fold over the pairs. *)
Lemma fold_seq_combine {A : Type} (F : A -> num -> num -> A) :
  forall (xs ys pre_x pre_y : list R) (acc : A),
    length pre_x = length pre_y ->
    length xs = length ys ->
    fold_left (fun acc i => F acc (get (pre_x ++ xs) i) (get (pre_y ++ ys) i))
              (seq (length pre_x) (length xs)) acc =
    fold_left (fun acc p => F acc (Fin (fst p)) (Fin (snd p)))
              (combine xs ys) acc.
Proof.
  induction xs as [|x xs IH]; intros ys pre_x pre_y acc Hpre Hlen.
  - reflexivity.
  - destruct ys as [|y ys]; [discriminate|].
    cbn [length seq fold_left combine fst snd].
    rewrite get_middle. rewrite Hpre at 2. rewrite get_middle.
    specialize (IH ys (pre_x ++ [x]) (pre_y ++ [y]) (F acc (Fin x) (Fin y))).
    rewrite !length_app in IH. cbn [length] in IH.
    rewrite <- !app_assoc in IH. cbn [app] in IH.
    rewrite Nat.add_1_r in IH.
    apply IH; [lia | simpl in Hlen; lia].
Qed.

Lemma sums_fold (xs ys : list R) :
  forall a b c d e : R,
    fold_left
      (fun acc p =>
         mkSums (add (sumX acc) (Fin (fst p)))
                (add (sumY acc) (Fin (snd p)))
                (add (sumXY acc) (mul (Fin (fst p)) (Fin (snd p))))
                (add (sumX2 acc) (mul (Fin (fst p)) (Fin (fst p))))
                (add (sumY2 acc) (mul (Fin (snd p)) (Fin (snd p)))))
      (combine xs ys)
      (mkSums (Fin a) (Fin b) (Fin c) (Fin d) (Fin e)) =
    mkSums (Fin (a + Sx (map fst (combine xs ys))))
           (Fin (b + Sx (map snd (combine xs ys))))
           (Fin (c + Sxy xs ys))
           (Fin (d + Rsum (map (fun p => fst p * fst p) (combine xs ys))))
           (Fin (e + Rsum (map (fun p => snd p * snd p) (combine xs ys)))).
Proof.
  unfold Sx, Sxy.
  revert ys; induction xs as [|x xs IH]; intros ys a b c d e.
  - simpl. rewrite !Rplus_0_r. reflexivity.
  - destruct ys as [|y ys].
    + simpl. rewrite !Rplus_0_r. reflexivity.
    + cbn [combine fold_left map Rsum fold_right fst snd sumX sumY sumXY
           sumX2 sumY2 add mul].
      rewrite IH. f_equal; f_equal; unfold Rsum; lra.
Qed.

Lemma combine_fst (xs ys : list R) :
  length xs = length ys -> map fst (combine xs ys) = xs.
Proof.
  revert ys; induction xs as [|x xs IH]; intros [|y ys] H;
    try discriminate; simpl; [reflexivity|].
  rewrite IH by (simpl in H; lia). reflexivity.
Qed.

Lemma combine_snd (xs ys : list R) :
  length xs = length ys -> map snd (combine xs ys) = ys.
Proof.
  revert ys; induction xs as [|x xs IH]; intros [|y ys] H;
    try discriminate; simpl; [reflexivity|].
  rewrite IH by (simpl in H; lia). reflexivity.
Qed.

Lemma squares_fst (xs ys : list R) :
  length xs = length ys ->
  Rsum (map (fun p => fst p * fst p) (combine xs ys)) = Sxy xs xs.
Proof.
  unfold Sxy.
  revert ys; induction xs as [|x xs IH]; intros [|y ys] H;
    try discriminate; simpl; [reflexivity|].
  rewrite IH by (simpl in H; lia). reflexivity.
Qed.

Lemma squares_snd (xs ys : list R) :
  length xs = length ys ->
  Rsum (map (fun p => snd p * snd p) (combine xs ys)) = Sxy ys ys.
Proof.
  unfold Sxy.
  revert ys; induction xs as [|x xs IH]; intros [|y ys] H;
    try discriminate; simpl; [reflexivity|].
  rewrite IH by (simpl in H; lia). reflexivity.
Qed.

(** The five sums of the first loop are the finite sums of the data. *)
Lemma sums_loop_finite (xs ys : list R) :
  length xs = length ys ->
  sums_loop xs ys (length xs) =
  mkSums (Fin (Sx xs)) (Fin (Sx ys)) (Fin (Sxy xs ys))
         (Fin (Sxy xs xs)) (Fin (Sxy ys ys)).
Proof.
  intros Hlen. unfold sums_loop.
  pose proof (fold_seq_combine
                (fun acc x y =>
                   mkSums (add (sumX acc) x) (add (sumY acc) y)
                          (add (sumXY acc) (mul x y))
                          (add (sumX2 acc) (mul x x))
                          (add (sumY2 acc) (mul y y)))
                xs ys [] [] (mkSums (Fin 0) (Fin 0) (Fin 0) (Fin 0) (Fin 0))
                eq_refl Hlen) as H.
  cbn [app length] in H. rewrite H. clear H.
  rewrite sums_fold.
  rewrite combine_fst, combine_snd by assumption.
  rewrite squares_fst, squares_snd by assumption.
  rewrite !Rplus_0_l. reflexivity.
Qed.

Lemma ss_loop_fold (xs ys : list R) (yMean slope intercept : num) :
  length xs = length ys ->
  ss_loop xs ys (length xs) yMean slope intercept =
  (nsum (map (fun p => sq (sub (Fin (snd p)) yMean)) (combine xs ys)),
   nsum (map (fun p =>
                sq (sub (Fin (snd p))
                        (add (mul slope (Fin (fst p))) intercept)))
             (combine xs ys))).
Proof.
  intros Hlen. unfold ss_loop, nsum.
  pose proof (fold_seq_combine
                (fun (acc : num * num) x y =>
                   (add (fst acc) (mul (sub y yMean) (sub y yMean)),
                    add (snd acc)
                        (mul (sub y (add (mul slope x) intercept))
                             (sub y (add (mul slope x) intercept)))))
                xs ys [] [] (Fin 0, Fin 0) eq_refl Hlen) as H.
  cbn [app length] in H. rewrite H. clear H.
  generalize (Fin 0) at 1 3 as a. generalize (Fin 0) as b.
  induction (combine xs ys) as [|p l IH]; intros b a.
  - reflexivity.
  - cbn [fold_left map fst snd]. rewrite IH. reflexivity.
Qed.

(** Refinement: on arrays of one length the code computes the formulas. *)
Lemma fit_refines_spec (xs ys : list R) :
  length xs = length ys -> fit xs ys = fit_spec xs ys.
Proof.
  intros Hlen. unfold fit, fit_spec.
  rewrite sums_loop_finite by assumption.
  cbn [sumX sumY sumXY sumX2 sumY2].
  rewrite ss_loop_fold by assumption.
  cbn [fst snd mul sub].
  reflexivity.
Qed.

(** *** Sums of real data *)

Lemma nsum_finite {A : Type} (f : A -> R) (l : list A) :
  nsum (map (fun p => Fin (f p)) l) = Fin (Rsum (map f l)).
Proof.
  unfold nsum.
  assert (H : forall a, fold_left add (map (fun p => Fin (f p)) l) (Fin a) =
                        Fin (a + Rsum (map f l))).
  { induction l as [|p l IH]; intros a; simpl.
    - rewrite Rplus_0_r. reflexivity.
    - rewrite IH. f_equal. lra. }
  rewrite H, Rplus_0_l. reflexivity.
Qed.

Lemma add_NonFinite_r (a : num) : add a NonFinite = NonFinite.
Proof. destruct a; reflexivity. Qed.

Lemma nsum_non_finite {A : Type} (l : list A) :
  l <> [] -> nsum (map (fun _ => NonFinite) l) = NonFinite.
Proof.
  unfold nsum. destruct l as [|p l]; [congruence|]. intros _. simpl.
  induction l as [|q l IH]; simpl; [reflexivity | exact IH].
Qed.

Lemma Rsum_squares_nonneg (m : R) (l : list R) :
  0 <= Rsum (map (fun x => (x - m) * (x - m)) l).
Proof.
  induction l as [|x l IH]; simpl; [lra|].
  pose proof (Rle_0_sqr (x - m)) as H. unfold Rsqr in H. lra.
Qed.

Lemma Rsum_squares_member (m a : R) (l : list R) :
  In a l -> (a - m) * (a - m) <= Rsum (map (fun x => (x - m) * (x - m)) l).
Proof.
  induction l as [|x l IH]; simpl; [tauto|].
  intros [->|Hin].
  - pose proof (Rsum_squares_nonneg m l). lra.
  - specialize (IH Hin).
    pose proof (Rle_0_sqr (x - m)) as H. unfold Rsqr in H. lra.
Qed.

(** Two distinct values keep the data away from any single centre. *)
Lemma Rsum_squares_pos (m : R) (l : list R) :
  (exists a b, In a l /\ In b l /\ a <> b) ->
  0 < Rsum (map (fun x => (x - m) * (x - m)) l).
Proof.
  intros (a & b & Ha & Hb & Hab).
  pose proof (Rsum_squares_member m a l Ha) as H1.
  pose proof (Rsum_squares_member m b l Hb) as H2.
  destruct (Req_dec_T a m) as [->|Ham].
  - assert (0 < (b - m) * (b - m)) by (apply Rsqr_pos_lt; lra). lra.
  - assert (0 < (a - m) * (a - m)) by (apply Rsqr_pos_lt; lra). lra.
Qed.

Lemma Sxy_diag (l : list R) : Sxy l l = Rsum (map (fun x => x * x) l).
Proof.
  unfold Sxy. induction l as [|x l IH]; simpl; [|rewrite IH]; reflexivity.
Qed.

Lemma Rsum_centred (m : R) (l : list R) :
  Rsum (map (fun x => (x - m) * (x - m)) l) =
  Sxy l l - 2 * m * Sx l + INR (length l) * (m * m).
Proof.
  rewrite Sxy_diag. unfold Sx.
  induction l as [|x l IH].
  - simpl. lra.
  - cbn [map Rsum fold_right] in *. fold (Rsum l) in *.
    change (length (x :: l)) with (S (length l)). rewrite S_INR.
    fold (Rsum (map (fun x => (x - m) * (x - m)) l)).
    fold (Rsum (map (fun x => x * x) l)).
    unfold Rsum in *. rewrite IH. lra.
Qed.

Lemma two_distinct_length (l : list R) :
  (exists a b, In a l /\ In b l /\ a <> b) -> (2 <= length l)%nat.
Proof.
  intros (a & b & Ha & Hb & Hab).
  destruct l as [|x [|y l]]; simpl in *; try tauto; try lia.
  destruct Ha as [<-|[]], Hb as [<-|[]]. congruence.
Qed.

(** The denominator of the slope: n Sxx - Sx^2 > 0 on non-constant data. *)
Lemma denominator_pos (l : list R) :
  (exists a b, In a l /\ In b l /\ a <> b) ->
  0 < INR (length l) * Sxy l l - Sx l * Sx l.
Proof.
  intros Hd.
  pose proof (two_distinct_length l Hd) as Hn.
  assert (Hn' : 2 <= INR (length l)) by (apply (le_INR 2); exact Hn).
  set (n := INR (length l)) in *.
  pose proof (Rsum_squares_pos (Sx l / n) l Hd) as Hpos.
  rewrite Rsum_centred in Hpos. fold n in Hpos.
  assert (Hid : n * (Sxy l l - 2 * (Sx l / n) * Sx l
                     + n * (Sx l / n * (Sx l / n))) =
                n * Sxy l l - Sx l * Sx l) by (field; lra).
  rewrite <- Hid. apply Rmult_lt_0_compat; lra.
Qed.

Lemma Sx_constant (c : R) (l : list R) :
  Forall (fun x => x = c) l -> Sx l = INR (length l) * c.
Proof.
  unfold Sx. induction 1 as [|x l -> _ IH].
  - simpl. lra.
  - change (length (c :: l)) with (S (length l)). rewrite S_INR.
    cbn [Rsum fold_right]. fold (Rsum l). rewrite IH. lra.
Qed.

Lemma Sxx_constant (c : R) (l : list R) :
  Forall (fun x => x = c) l -> Sxy l l = INR (length l) * (c * c).
Proof.
  rewrite Sxy_diag. induction 1 as [|x l -> _ IH].
  - simpl. lra.
  - change (length (c :: l)) with (S (length l)). rewrite S_INR.
    cbn [map Rsum fold_right]. fold (Rsum (map (fun x => x * x) l)).
    rewrite IH. lra.
Qed.

(** The denominator is zero when every x is the same value. *)
Lemma denominator_zero (c : R) (l : list R) :
  Forall (fun x => x = c) l ->
  INR (length l) * Sxy l l - Sx l * Sx l = 0.
Proof.
  intros Hall.
  rewrite (Sx_constant c l Hall), (Sxx_constant c l Hall). ring.
Qed.

(** *** Division *)

Lemma div_finite (a b : R) : b <> 0 -> div (Fin a) (Fin b) = Fin (a / b).
Proof.
  intros Hb. unfold div. destruct (Req_dec_T b 0); [contradiction|reflexivity].
Qed.

Lemma div_by_zero (a b : R) : b = 0 -> div (Fin a) (Fin b) = NonFinite.
Proof.
  intros Hb. unfold div. destruct (Req_dec_T b 0); [reflexivity|contradiction].
Qed.

(** *** Samples on the line y = 3 x + 2 *)

Lemma on_line_length (xs : list R) : length xs = length (on_line xs).
Proof. unfold on_line. rewrite length_map. reflexivity. Qed.

Lemma on_line_Sx (xs : list R) :
  Sx (on_line xs) = 3 * Sx xs + 2 * INR (length xs).
Proof.
  unfold Sx, on_line. induction xs as [|x xs IH].
  - simpl. lra.
  - change (length (x :: xs)) with (S (length xs)). rewrite S_INR.
    cbn [map Rsum fold_right] in *. unfold Rsum in IH. rewrite IH. lra.
Qed.

Lemma on_line_Sxy (xs : list R) :
  Sxy xs (on_line xs) = 3 * Sxy xs xs + 2 * Sx xs.
Proof.
  unfold Sxy, Sx, on_line. induction xs as [|x xs IH].
  - simpl. lra.
  - cbn [map combine Rsum fold_right fst snd] in *.
    unfold Rsum in IH. rewrite IH. lra.
Qed.

Lemma on_line_residuals (a b : R) (xs : list R) :
  a = 3 -> b = 2 ->
  Rsum (map (fun p => (snd p - (a * fst p + b)) * (snd p - (a * fst p + b)))
            (combine xs (on_line xs))) = 0.
Proof.
  intros -> ->. unfold on_line. induction xs as [|x xs IH].
  - reflexivity.
  - cbn [map combine Rsum fold_right fst snd] in *.
    unfold Rsum in IH. rewrite IH. lra.
Qed.

Lemma on_line_total (m : R) (xs : list R) :
  (exists a b, In a xs /\ In b xs /\ a <> b) ->
  0 < Rsum (map (fun p => (snd p - m) * (snd p - m))
                (combine xs (on_line xs))).
Proof.
  intros (a & b & Ha & Hb & Hab).
  replace (map (fun p => (snd p - m) * (snd p - m)) (combine xs (on_line xs)))
    with (map (fun y => (y - m) * (y - m)) (on_line xs)).
  - apply Rsum_squares_pos.
    exists (3 * a + 2), (3 * b + 2). unfold on_line.
    repeat split; try (apply in_map_iff; eauto). lra.
  - rewrite <- (combine_snd xs (on_line xs) (on_line_length xs)) at 1.
    rewrite map_map. reflexivity.
Qed.

Lemma fit_spec_on_line (xs : list R) :
  (exists a b, In a xs /\ In b xs /\ a <> b) ->
  fit_spec xs (on_line xs) = mkFit (Fin 3) (Fin 2) (Fin 1).
Proof.
  intros Hd.
  pose proof (denominator_pos xs Hd) as HD.
  pose proof (two_distinct_length xs Hd) as Hn.
  assert (Hn' : 2 <= INR (length xs)) by (apply (le_INR 2); exact Hn).
  unfold fit_spec. cbv zeta.
  rewrite on_line_Sx, on_line_Sxy.
  set (n := INR (length xs)) in *.
  rewrite (div_finite _ (n * Sxy xs xs - Sx xs * Sx xs)) by lra.
  replace ((n * (3 * Sxy xs xs + 2 * Sx xs) - Sx xs * (3 * Sx xs + 2 * n))
           / (n * Sxy xs xs - Sx xs * Sx xs)) with 3 by (field; lra).
  cbn [mul sub].
  rewrite !(div_finite _ n) by lra.
  replace ((3 * Sx xs + 2 * n - 3 * Sx xs) / n) with 2 by (field; lra).
  cbn [mul sub add sq].
  rewrite (nsum_finite
             (fun p => (snd p - (3 * Sx xs + 2 * n) / n)
                       * (snd p - (3 * Sx xs + 2 * n) / n))).
  rewrite (nsum_finite
             (fun p => (snd p - (3 * fst p + 2)) * (snd p - (3 * fst p + 2)))).
  rewrite on_line_residuals by reflexivity.
  pose proof (on_line_total ((3 * Sx xs + 2 * n) / n) xs Hd) as Htot.
  rewrite div_finite by lra.
  cbn [sub]. do 2 f_equal. field. lra.
Qed.

(** *** Samples that share one x value *)

Lemma fit_spec_constant_x (c : R) (xs ys : list R) :
  length xs = length ys ->
  (2 <= length xs)%nat ->
  Forall (fun x => x = c) xs ->
  fit_spec xs ys = mkFit NonFinite NonFinite NonFinite.
Proof.
  intros Hlen Hn Hall.
  unfold fit_spec. cbv zeta.
  rewrite (div_by_zero _ _ (denominator_zero c xs Hall)).
  cbn [mul sub div add sq].
  rewrite nsum_non_finite.
  - reflexivity.
  - destruct xs as [|x xs]; [simpl in Hn; lia|].
    destruct ys as [|y ys]; [discriminate|]. discriminate.
Qed.

Lemma pendulum_guard_passed (xs ys : list R) :
  (2 <= length xs)%nat ->
  Pendulum.linearRegression xs ys = Some (fit xs ys).
Proof.
  intros Hn. unfold Pendulum.linearRegression.
  destruct (Nat.ltb_spec (length xs) 2); [lia | reflexivity].
Qed.

(** C7: on n >= 2 samples generated exactly by y = 3 x + 2 with at least two
    distinct x values, [linearRegression] (of either page) returns slope 3,
    intercept 2 and R^2 = 1, and what it computes is
    slope = (n Sxy - Sx Sy) / (n Sxx - Sx^2), intercept = (Sy - slope Sx) / n,
    R^2 = 1 - SS_res / SS_tot. *)
Theorem regression_recovers_line :
  forall xs : list R,
    (exists a b, In a xs /\ In b xs /\ a <> b) ->
    let ys := map (fun x => 3 * x + 2) xs in
    Pendulum.linearRegression xs ys = Some (mkFit (Fin 3) (Fin 2) (Fin 1)) /\
    Centripetal.linearRegression xs ys = mkFit (Fin 3) (Fin 2) (Fin 1) /\
    fit xs ys = fit_spec xs ys.
Proof.
  intros xs Hd ys.
  assert (Hfit : fit xs ys = fit_spec xs ys)
    by (apply fit_refines_spec, on_line_length).
  pose proof (fit_spec_on_line xs Hd) as Hline.
  change (on_line xs) with ys in Hline.
  repeat split.
  - rewrite pendulum_guard_passed by (apply two_distinct_length; exact Hd).
    rewrite Hfit, Hline. reflexivity.
  - unfold Centripetal.linearRegression. rewrite Hfit. exact Hline.
  - exact Hfit.
Qed.

Lemma regression_recovers_line_witness :
  Pendulum.linearRegression [0; 1] [3 * 0 + 2; 3 * 1 + 2] =
  Some (mkFit (Fin 3) (Fin 2) (Fin 1)).
Proof.
  refine (proj1 (regression_recovers_line [0; 1] _)).
  exists 0, 1. simpl. repeat split; auto; lra.
Defined.

(** C3 (as stated) fails: two samples with the same x do not make
    [linearRegression] fail; it returns a result whose slope is non-finite. *)
Lemma regression_constant_x_is_no_error :
  Pendulum.linearRegression [1; 1] [2; 3] <> None /\
  exists f : Fit,
    Pendulum.linearRegression [1; 1] [2; 3] = Some f /\
    Centripetal.linearRegression [1; 1] [2; 3] = f /\
    slope f = NonFinite.
Proof.
  assert (H : fit [1; 1] [2; 3] = mkFit NonFinite NonFinite NonFinite).
  { rewrite fit_refines_spec by reflexivity.
    apply (fit_spec_constant_x 1); [reflexivity | simpl; lia |].
    repeat constructor. }
  rewrite (pendulum_guard_passed [1; 1] [2; 3]) by (simpl; lia).
  split; [discriminate|].
  exists (fit [1; 1] [2; 3]). repeat split. rewrite H. reflexivity.
Qed.

End RegressionFacts.

(** ** Linear regression on binary64 numbers *)

Module RegressionFloatFacts.
Import PrimFloat FloatOps SpecFloat RegressionFloat.

Lemma Prim2SF_zero : Prim2SF zero = S754_zero false.
Proof. vm_compute. reflexivity. Qed.

Lemma Prim2SF_infinity : Prim2SF infinity = S754_infinity false.
Proof. vm_compute. reflexivity. Qed.

(** A number that compares equal to 0 is +0 or -0. *)
Lemma is_zero_spec (d : float) :
  is_zero d = true -> exists s, Prim2SF d = S754_zero s.
Proof.
  unfold is_zero. rewrite FloatAxioms.eqb_spec, Prim2SF_zero.
  destruct (Prim2SF d) as [s | s | | s m e]; cbn; try discriminate.
  - intros _. exists s. reflexivity.
  - destruct s; discriminate.
  - destruct s; discriminate.
Qed.

Lemma not_finite_spec (z : float) :
  Prim2SF z = S754_nan \/ (exists s, Prim2SF z = S754_infinity s) ->
  is_finite z = false.
Proof.
  unfold is_finite, is_nan, is_infinity.
  rewrite !FloatAxioms.eqb_spec, FloatAxioms.abs_spec, Prim2SF_infinity.
  intros [H | [s H]]; rewrite H; [reflexivity|].
  destruct s; reflexivity.
Qed.

(** IEEE 754 division by a zero: NaN or an infinity, whatever the
    dividend. *)
Lemma div_by_zero_not_finite (a d : float) :
  is_zero d = true -> is_finite (a / d) = false.
Proof.
  intros Hd. destruct (is_zero_spec d Hd) as [s Hs].
  apply not_finite_spec.
  rewrite FloatAxioms.div_spec, Hs. unfold FloatAxioms.SF64div.
  destruct (Prim2SF a) as [sa | sa | | sa m e]; cbn [SFdiv]; eauto.
Qed.

(** C3 (as the code has it): on equal-length inputs with n >= 2 whose x
    values are all equal, [linearRegression] does not fail: it tests neither
    the x values nor the denominator and returns a result (the pendulum
    page's copy a result other than [null]) whose slope is the quotient
    (n Sxy - Sx Sy) / (n Sxx - Sx^2) as computed in binary64; the slope is
    NaN or infinite whenever that denominator is computed as 0. *)
Theorem regression_constant_x_returns_result :
  forall (c : float) (xs ys : list float),
    length xs = length ys ->
    (2 <= length xs)%nat ->
    Forall (fun x => x = c) xs ->
    let n := number (length xs) in
    let s := sums_loop xs ys (length xs) in
    exists f : Fit,
      RegressionFloat.Pendulum.linearRegression xs ys = Some f /\
      RegressionFloat.Centripetal.linearRegression xs ys = f /\
      slope f = (numerator n s / denominator n s)%float /\
      (is_zero (denominator n s) = true -> is_finite (slope f) = false).
Proof.
  intros c xs ys _ Hn _ n s. exists (fit xs ys).
  unfold RegressionFloat.Pendulum.linearRegression,
    RegressionFloat.Centripetal.linearRegression.
  destruct (Nat.ltb_spec (length xs) 2) as [Hlt | _]; [lia|].
  refine (conj eq_refl (conj eq_refl (conj eq_refl _))).
  intros Hz. apply div_by_zero_not_finite. exact Hz.
Qed.

Lemma regression_constant_x_returns_result_witness :
  exists f : Fit,
    RegressionFloat.Pendulum.linearRegression
      [1; 1; 1]%float [2; 3; 5]%float = Some f /\
    is_finite (slope f) = false.
Proof.
  destruct (regression_constant_x_returns_result
              1%float [1; 1; 1]%float [2; 3; 5]%float eq_refl)
    as (f & Hp & _ & _ & Hz).
  - simpl. lia.
  - repeat constructor.
  - exists f. split; [exact Hp|]. apply Hz. vm_compute. reflexivity.
Defined.

(** Two samples at x = 1: every sum is exact, the denominator is 0 and the
    three results are NaN. *)
Example constant_x_slope_nan :
  RegressionFloat.Pendulum.linearRegression [1; 1]%float [2; 3]%float =
  Some (mkFit nan nan nan).
Proof. vm_compute. reflexivity. Qed.

(** Three samples at x = 0.7 (the binary64 number 0x1.6666666666666p-1):
    rounding leaves a denominator other than 0, and the slope is the finite
    number 2. *)
Example constant_x_slope_finite :
  let xs := [0x1.6666666666666p-1; 0x1.6666666666666p-1;
             0x1.6666666666666p-1]%float in
  let ys := [1; 2; 4]%float in
  slope (fit xs ys) = 2%float /\
  is_zero (denominator (number 3) (sums_loop xs ys 3)) = false /\
  is_finite (slope (fit xs ys)) = true.
Proof. vm_compute. repeat split. Qed.

End RegressionFloatFacts.

(** ** Air table *)

Module AirTableFacts.
Import AirTable.

Lemma margin_value : puckRadiusCm = 3.
Proof. unfold puckRadiusCm, puckRadius, pixelsPerCm. lra. Qed.

Lemma table_800x600 :
  tableWidth canvas800x600 = 160 /\ tableHeight canvas800x600 = 120.
Proof.
  unfold tableWidth, tableHeight, canvas800x600, pixelsPerCm.
  cbn [width height]. lra.
Qed.

(** What [updatePhysics] does to the puck, wall by wall. *)
Lemma updatePhysics_cases (c : Canvas) (dt : R) (s : State) :
  puckRadiusCm <= tableWidth c - puckRadiusCm ->
  puckRadiusCm <= tableHeight c - puckRadiusCm ->
  let s' := updatePhysics c dt s in
  (rawX dt s < puckRadiusCm /\
     puckX s' = puckRadiusCm /\ puckVx s' = - 0.8 * rawVx dt s
   \/ rawX dt s > tableWidth c - puckRadiusCm /\
     puckX s' = tableWidth c - puckRadiusCm /\
     puckVx s' = - 0.8 * rawVx dt s
   \/ puckRadiusCm <= rawX dt s <= tableWidth c - puckRadiusCm /\
     puckX s' = rawX dt s /\ puckVx s' = rawVx dt s) /\
  (rawY dt s < puckRadiusCm /\
     puckY s' = puckRadiusCm /\ puckVy s' = - 0.8 * rawVy dt s
   \/ rawY dt s > tableHeight c - puckRadiusCm /\
     puckY s' = tableHeight c - puckRadiusCm /\
     puckVy s' = - 0.8 * rawVy dt s
   \/ puckRadiusCm <= rawY dt s <= tableHeight c - puckRadiusCm /\
     puckY s' = rawY dt s /\ puckVy s' = rawVy dt s).
Proof.
  intros HW HH s'. subst s'.
  unfold updatePhysics, rawX, rawY, rawVx, rawVy. cbv zeta.
  set (W := tableWidth c) in *. set (H := tableHeight c) in *.
  set (m := puckRadiusCm) in *.
  set (vx := puckVx s + 0 * dt). set (vy := puckVy s + slopeAccel s * dt).
  set (x := puckX s + vx * dt). set (y := puckY s + vy * dt).
  destruct (x <? m) eqn:E1; cbv beta iota;
    [apply ltb_true in E1 | apply ltb_false in E1].
  - replace (m >? W - m) with false by (symmetry; js_cmp). cbv beta iota.
    destruct (y <? m) eqn:E3; cbv beta iota;
      [apply ltb_true in E3 | apply ltb_false in E3].
    + replace (m >? H - m) with false by (symmetry; js_cmp). cbv beta iota.
      cbn [set_puck puckX puckY puckVx puckVy].
      split; [left | left]; repeat split; try lra.
    + destruct (y >? H - m) eqn:E4; cbv beta iota;
        [apply gtb_true in E4 | apply gtb_false in E4];
        cbn [set_puck puckX puckY puckVx puckVy];
        (split; [left | first [right; left; repeat split; lra
                              | right; right; repeat split; lra]]);
        repeat split; lra.
  - destruct (x >? W - m) eqn:E2; cbv beta iota;
      [apply gtb_true in E2 | apply gtb_false in E2];
      (destruct (y <? m) eqn:E3; cbv beta iota;
       [apply ltb_true in E3;
        replace (m >? H - m) with false by (symmetry; js_cmp); cbv beta iota
       | apply ltb_false in E3;
         destruct (y >? H - m) eqn:E4; cbv beta iota;
         [apply gtb_true in E4 | apply gtb_false in E4]]);
      cbn [set_puck puckX puckY puckVx puckVy];
      (split;
       first [left; repeat split; lra
             | right; left; repeat split; lra
             | right; right; repeat split; lra]).
Qed.

Lemma updatePhysics_free (c : Canvas) (dt : R) (s : State) :
  freeStep c dt s ->
  updatePhysics c dt s =
  set_puck (rawX dt s) (rawY dt s) (rawVx dt s) (rawVy dt s) s.
Proof.
  intros [[Hx1 Hx2] [Hy1 Hy2]].
  unfold rawX, rawY, rawVx, rawVy in *.
  unfold updatePhysics. cbv zeta.
  replace (_ <? puckRadiusCm) with false by (symmetry; js_cmp). cbv beta iota.
  replace (_ >? tableWidth c - puckRadiusCm) with false by (symmetry; js_cmp).
  cbv beta iota.
  replace (_ <? puckRadiusCm) with false by (symmetry; js_cmp). cbv beta iota.
  replace (_ >? tableHeight c - puckRadiusCm) with false by (symmetry; js_cmp).
  reflexivity.
Qed.

(** *** Free flight over several sub-steps *)

Lemma set_puck_set_puck (x y vx vy x' y' vx' vy' : R) (s : State) :
  set_puck x y vx vy (set_puck x' y' vx' vy' s) = set_puck x y vx vy s.
Proof. reflexivity. Qed.

Lemma set_puck_ext (x y vx vy x' y' vx' vy' : R) (s : State) :
  x = x' -> y = y' -> vx = vx' -> vy = vy' ->
  set_puck x y vx vy s = set_puck x' y' vx' vy' s.
Proof. intros -> -> -> ->. reflexivity. Qed.

Lemma set_puck_same (s : State) :
  set_puck (puckX s) (puckY s) (puckVx s) (puckVy s) s = s.
Proof. destruct s; reflexivity. Qed.

Lemma flight_succ (h : R) (s : State) (k : nat) :
  flightX h s (S k) = flightX h s k + (puckVx s + 0 * h) * h /\
  flightVy h s (S k) = flightVy h s k + slopeAccel s * h /\
  flightY h s (S k) = flightY h s k + (flightVy h s k + slopeAccel s * h) * h.
Proof.
  unfold flightX, flightVy, flightY. rewrite S_INR. repeat split; field.
Qed.

(** As long as the closed-form positions stay within the margins, the
    sub-steps meet no wall and the puck follows the closed form. *)
Lemma iter_free_flight (c : Canvas) (h : R) (s : State) (k : nat) :
  (forall j, (1 <= j <= k)%nat -> inside c (flightX h s j) (flightY h s j)) ->
  Nat.iter k (updatePhysics c h) s =
    set_puck (flightX h s k) (flightY h s k) (puckVx s) (flightVy h s k) s /\
  (forall j, (j < k)%nat -> freeStep c h (Nat.iter j (updatePhysics c h) s)).
Proof.
  induction k as [|k IH]; intros Hin.
  - split; [|intros j Hj; lia].
    cbn [Nat.iter nat_rect]. rewrite <- (set_puck_same s) at 1.
    apply set_puck_ext; unfold flightX, flightY, flightVy; simpl; lra.
  - destruct IH as [IHeq IHfree]; [intros j Hj; apply Hin; lia|].
    destruct (flight_succ h s k) as (HX & HV & HY).
    assert (Hfree : freeStep c h (Nat.iter k (updatePhysics c h) s)).
    { rewrite IHeq. unfold freeStep, rawX, rawY, rawVx, rawVy, slopeAccel.
      cbn [set_puck puckX puckY puckVx puckVy slopeAngle].
      fold (slopeAccel s). rewrite <- HX, <- HY. apply Hin. lia. }
    split.
    + change (Nat.iter (S k) (updatePhysics c h) s)
        with (updatePhysics c h (Nat.iter k (updatePhysics c h) s)).
      rewrite (updatePhysics_free c h _ Hfree). rewrite IHeq.
      rewrite set_puck_set_puck.
      unfold rawX, rawY, rawVx, rawVy, slopeAccel.
      cbn [set_puck puckX puckY puckVx puckVy slopeAngle].
      fold (slopeAccel s).
      apply set_puck_ext; lra.
    + intros j Hj. destruct (Nat.eq_dec j k) as [->|Hne];
        [exact Hfree | apply IHfree; lia].
Qed.

Lemma physicsPhase_iter (c : Canvas) (timestamp : R) (s : State) :
  physicsPhase c timestamp s =
  Nat.iter 10 (updatePhysics c (frameDt timestamp s / 10)) s.
Proof. unfold physicsPhase. rewrite for_lt_iter. reflexivity. Qed.

(** *** Launch-height detection at the end of a frame *)

Lemma animate_completes (c : Canvas) (timestamp : R) (s : State) :
  isAnimating s = true ->
  let s1 := physicsPhase c timestamp s in
  hasMovedFromStart s = true \/ Rabs (puckY s1 - launchY s) > 1 ->
  puckY s1 >= launchY s ->
  let s' := animate c timestamp s in
  trajectoryComplete s' = true /\ isAnimating s' = false /\
  puckY s' = launchY s /\ puckVx s' = 0 /\ puckVy s' = 0 /\
  finalX s' = puckX s1.
Proof.
  intros Hanim s1 Hmoved Hback s'. subst s'.
  unfold animate. rewrite Hanim. cbn [negb]. cbv zeta. fold s1.
  assert (Hm : (if negb (hasMovedFromStart s)
                   && (Rabs (puckY s1 - launchY s) >? 1)
                then true else hasMovedFromStart s) = true).
  { destruct (hasMovedFromStart s); [reflexivity|].
    destruct Hmoved as [Hm|Hm]; [discriminate|].
    replace (Rabs (puckY s1 - launchY s) >? 1) with true
      by (symmetry; js_cmp).
    reflexivity. }
  rewrite Hm.
  replace (puckY s1 >=? launchY s) with true by (symmetry; js_cmp).
  cbn [andb trajectoryComplete isAnimating puckY puckVx puckVy finalX].
  repeat split.
Qed.

Lemma animate_continues (c : Canvas) (timestamp : R) (s : State) :
  isAnimating s = true ->
  let s1 := physicsPhase c timestamp s in
  hasMovedFromStart s = false ->
  Rabs (puckY s1 - launchY s) <= 1 ->
  puckY s1 < tableHeight c - puckRadiusCm - 1 ->
  let s' := animate c timestamp s in
  trajectoryComplete s' = trajectoryComplete s /\ isAnimating s' = true /\
  hasMovedFromStart s' = false /\ lastTime s' = timestamp /\
  launchY s' = launchY s /\ slopeAngle s' = slopeAngle s /\
  puckX s' = puckX s1 /\ puckY s' = puckY s1 /\
  puckVx s' = puckVx s1 /\ puckVy s' = puckVy s1.
Proof.
  intros Hanim s1 Hmoved Hnear Hbottom s'. subst s'.
  unfold animate. rewrite Hanim. cbn [negb]. cbv zeta. fold s1.
  rewrite Hmoved. cbn [negb andb].
  replace (Rabs (puckY s1 - launchY s) >? 1) with false by (symmetry; js_cmp).
  cbn [andb].
  replace (puckY s1 >=? tableHeight c - puckRadiusCm - 1) with false
    by (symmetry; js_cmp).
  cbn [trajectoryComplete isAnimating hasMovedFromStart lastTime launchY
       slopeAngle puckX puckY puckVx puckVy].
  repeat split.
Qed.

(** C5: on a table at least as wide and as high as the puck, after every
    [updatePhysics(dt)] the puck centre satisfies
    margin <= x <= tableWidth - margin and margin <= y <= tableHeight - margin
    (margin = puck radius in cm); and whenever the integration step carries
    a coordinate past a wall margin, that coordinate is set to the margin and
    the matching velocity component v (after the step's velocity update) is
    replaced by -0.8 v. *)
Theorem puck_stays_within_margins :
  forall (c : Canvas) (dt : R) (s : State),
    2 * puckRadiusCm <= tableWidth c ->
    2 * puckRadiusCm <= tableHeight c ->
    let s' := updatePhysics c dt s in
    let margin := puckRadiusCm in
    (margin <= puckX s' <= tableWidth c - margin /\
     margin <= puckY s' <= tableHeight c - margin) /\
    (rawX dt s < margin ->
     puckX s' = margin /\ puckVx s' = - 0.8 * rawVx dt s) /\
    (rawX dt s > tableWidth c - margin ->
     puckX s' = tableWidth c - margin /\ puckVx s' = - 0.8 * rawVx dt s) /\
    (rawY dt s < margin ->
     puckY s' = margin /\ puckVy s' = - 0.8 * rawVy dt s) /\
    (rawY dt s > tableHeight c - margin ->
     puckY s' = tableHeight c - margin /\ puckVy s' = - 0.8 * rawVy dt s).
Proof.
  intros c dt s HW HH s' margin.
  assert (HW' : puckRadiusCm <= tableWidth c - puckRadiusCm) by lra.
  assert (HH' : puckRadiusCm <= tableHeight c - puckRadiusCm) by lra.
  destruct (updatePhysics_cases c dt s HW' HH') as [Hx Hy].
  fold s' in Hx, Hy. fold margin in Hx, Hy, HW', HH' |- *.
  repeat split;
    try (destruct Hx as [Hx|[Hx|Hx]]; lra);
    try (destruct Hy as [Hy|[Hy|Hy]]; lra);
    intros Hhit;
    try (destruct Hx as [Hx|[Hx|Hx]]; lra);
    try (destruct Hy as [Hy|[Hy|Hy]]; lra).
Qed.

Lemma puck_stays_within_margins_witness :
  let s' := updatePhysics canvas800x600 0.01 (initial canvas800x600) in
  3 <= puckX s' <= 157 /\ 3 <= puckY s' <= 117.
Proof.
  destruct table_800x600 as [HW HH]. pose proof margin_value as Hm.
  pose proof (proj1 (puck_stays_within_margins
                       canvas800x600 0.01 (initial canvas800x600)
                       ltac:(lra) ltac:(lra))) as H.
  cbv zeta in H. rewrite Hm, HW, HH in H.
  intros s'. subst s'. lra.
Defined.

(** *** The horizontal launch, frame by frame *)

Lemma slopeAccel_default (s : State) :
  slopeAngle s = 5 -> 85.26 < slopeAccel s < 85.554.
Proof.
  intros H. unfold slopeAccel, g. rewrite H.
  pose proof sin_5_degrees. lra.
Qed.

Lemma launched_fields :
  isAnimating launched = true /\ lastTime launched = 0 /\
  hasMovedFromStart launched = false /\
  trajectoryComplete launched = false /\ slopeAngle launched = 5 /\
  puckX launched = 80 /\ puckY launched = 30 /\ launchY launched = 30 /\
  puckVx launched = 100 /\ puckVy launched = 0.
Proof.
  destruct table_800x600 as [HW HH].
  unfold launched, launch, startAnimation, initial.
  cbn [set_puck isAnimating lastTime hasMovedFromStart trajectoryComplete
       slopeAngle puckX puckY launchY puckVx puckVy].
  repeat split; lra.
Qed.

Lemma Rabs_small (x : R) : -1 <= x <= 1 -> Rabs x <= 1.
Proof. intros H. unfold Rabs. destruct (Rcase_abs x); lra. Qed.

Lemma Rabs_large (x : R) : 1 < x -> Rabs x > 1.
Proof. intros H. unfold Rabs. destruct (Rcase_abs x); lra. Qed.

Lemma INR_range (j k : nat) : (1 <= j <= k)%nat -> 1 <= INR j <= INR k.
Proof.
  intros [H1 H2]. split; [apply (le_INR 1); exact H1 | apply le_INR; exact H2].
Qed.

Lemma firstFrame_physics :
  let h := frameDt 1000 launched / 10 in
  h = 0 /\
  puckX (physicsPhase canvas800x600 1000 launched) = 80 /\
  puckY (physicsPhase canvas800x600 1000 launched) = 30 /\
  puckVx (physicsPhase canvas800x600 1000 launched) = 100 /\
  puckVy (physicsPhase canvas800x600 1000 launched) = 0 /\
  (forall j, (j < 10)%nat ->
     freeStep canvas800x600 h
       (Nat.iter j (updatePhysics canvas800x600 h) launched)).
Proof.
  destruct launched_fields
    as (Ha & Hl & Hm & Ht & Hs & Hx & Hy & Hly & Hvx & Hvy).
  destruct table_800x600 as [HW HH]. pose proof margin_value as Hmg.
  intros h.
  assert (Hh : h = 0).
  { unfold h, frameDt. rewrite Hl.
    replace (JS.eqb 0 0) with true by (symmetry; js_cmp). lra. }
  rewrite physicsPhase_iter. fold h.
  destruct (iter_free_flight canvas800x600 h launched 10) as [Heq Hfree].
  { intros j Hj. unfold inside, flightX, flightY.
    rewrite Hh, Hx, Hy, Hvx, Hvy, HW, HH, Hmg. lra. }
  rewrite Heq. cbn [set_puck puckX puckY puckVx puckVy].
  unfold flightX, flightY, flightVy.
  refine (conj _ (conj _ (conj _ (conj _ (conj _ Hfree)))));
    rewrite ?Hh, ?Hx, ?Hy, ?Hvx, ?Hvy; lra.
Qed.

Lemma firstFrame_fields :
  isAnimating firstFrame = true /\ lastTime firstFrame = 1000 /\
  hasMovedFromStart firstFrame = false /\
  trajectoryComplete firstFrame = false /\ slopeAngle firstFrame = 5 /\
  puckX firstFrame = 80 /\ puckY firstFrame = 30 /\
  launchY firstFrame = 30 /\
  puckVx firstFrame = 100 /\ puckVy firstFrame = 0.
Proof.
  destruct launched_fields
    as (Ha & Hl & Hm & Ht & Hs & Hx & Hy & Hly & Hvx & Hvy).
  destruct firstFrame_physics as (_ & Px & Py & Pvx & Pvy & _).
  destruct table_800x600 as [HW HH]. pose proof margin_value as Hmg.
  destruct (animate_continues canvas800x600 1000 launched Ha Hm)
    as (Ft & Fa & Fm & Fl & Fly & Fs & Fx & Fy & Fvx & Fvy).
  - apply Rabs_small. rewrite Py, Hly. lra.
  - rewrite Py, HH, Hmg. lra.
  - fold firstFrame in *.
    rewrite Ft, Fa, Fm, Fl, Fly, Fs, Fx, Fy, Fvx, Fvy.
    repeat split; assumption.
Qed.

Lemma secondFrame_physics :
  let h := frameDt 1200 firstFrame / 10 in
  h = 0.02 /\
  puckY (physicsPhase canvas800x600 1200 firstFrame) =
    30 + 0.022 * slopeAccel firstFrame /\
  puckX (physicsPhase canvas800x600 1200 firstFrame) = 100 /\
  (forall j, (j < 10)%nat ->
     freeStep canvas800x600 h
       (Nat.iter j (updatePhysics canvas800x600 h) firstFrame)).
Proof.
  destruct firstFrame_fields
    as (Ha & Hl & Hm & Ht & Hs & Hx & Hy & Hly & Hvx & Hvy).
  destruct table_800x600 as [HW HH]. pose proof margin_value as Hmg.
  pose proof (slopeAccel_default firstFrame Hs) as Hay.
  intros h.
  assert (Hh : h = 0.02).
  { unfold h, frameDt. rewrite Hl.
    replace (JS.eqb 1000 0) with false by (symmetry; js_cmp). lra. }
  rewrite physicsPhase_iter. fold h.
  destruct (iter_free_flight canvas800x600 h firstFrame 10) as [Heq Hfree].
  { intros j Hj. apply INR_range in Hj.
    rewrite (INR_literal 10 10 eq_refl) in Hj.
    unfold inside, flightX, flightY.
    rewrite Hh, Hx, Hy, Hvx, Hvy, HW, HH, Hmg.
    set (J := INR j) in *. set (a := slopeAccel firstFrame) in *.
    assert (0 <= J * (J + 1) / 2 * (a * 0.02 * 0.02) <= 2) by nra.
    lra. }
  rewrite Heq. cbn [set_puck puckX puckY puckVx puckVy].
  unfold flightX, flightY, flightVy.
  rewrite (INR_literal 10 10 eq_refl).
  refine (conj _ (conj _ (conj _ Hfree)));
    rewrite ?Hh, ?Hx, ?Hy, ?Hvx, ?Hvy; lra.
Qed.

(** C2 (what the code does): on the page's default settings (slope 5
    degrees, puck at the centre line a quarter down an 800 x 600 px canvas)
    a puck launched horizontally at 100 cm/s, with zero vertical velocity,
    meets no wall in any sub-step of its first two frames (timestamps 1000
    and 1200 ms), yet the second frame signals trajectory completion: the
    puck is then more than 1 cm below its launch height, which the code
    counts both as having moved away and as having returned.  The puck is
    put back at launch height and the animation stops. *)
Theorem horizontal_launch_completes_without_bounce :
  (puckVx launched = 100 /\ puckVy launched = 0 /\ slopeAngle launched = 5) /\
  (forall j, (j < 10)%nat ->
     freeStep canvas800x600 (frameDt 1000 launched / 10)
       (Nat.iter j (updatePhysics canvas800x600 (frameDt 1000 launched / 10))
                 launched)) /\
  (forall j, (j < 10)%nat ->
     freeStep canvas800x600 (frameDt 1200 firstFrame / 10)
       (Nat.iter j (updatePhysics canvas800x600 (frameDt 1200 firstFrame / 10))
                 firstFrame)) /\
  trajectoryComplete firstFrame = false /\
  puckY (physicsPhase canvas800x600 1200 firstFrame)
    > launchY firstFrame + 1 /\
  trajectoryComplete secondFrame = true /\
  isAnimating secondFrame = false /\
  puckY secondFrame = launchY firstFrame.
Proof.
  destruct launched_fields
    as (_ & _ & _ & _ & Ls & _ & _ & _ & Lvx & Lvy).
  destruct firstFrame_fields
    as (Ha & Hl & Hm & Ht & Hs & Hx & Hy & Hly & Hvx & Hvy).
  destruct firstFrame_physics as (_ & _ & _ & _ & _ & Hfree1).
  destruct secondFrame_physics as (_ & Py & _ & Hfree2).
  pose proof (slopeAccel_default firstFrame Hs) as Hay.
  assert (Hbelow : puckY (physicsPhase canvas800x600 1200 firstFrame)
                   > launchY firstFrame + 1) by (rewrite Py, Hly; lra).
  destruct (animate_completes canvas800x600 1200 firstFrame Ha)
    as (Ct & Ca & Cy & _).
  - right. apply Rabs_large. lra.
  - lra.
  - fold secondFrame in *.
    refine (conj (conj Lvx (conj Lvy Ls))
              (conj Hfree1 (conj Hfree2 (conj Ht (conj Hbelow
                 (conj Ct (conj Ca Cy))))))).
Qed.

Lemma horizontal_launch_completes_without_bounce_witness :
  freeStep canvas800x600 (frameDt 1200 firstFrame / 10) firstFrame.
Proof.
  exact (proj1 (proj2 (proj2 horizontal_launch_completes_without_bounce))
               0%nat ltac:(lia)).
Defined.

(** *** The ghost-trajectory preview of the same launch *)

Lemma preview_continues (c : Canvas) (f : nat) (startY vx ay dt : R)
      (p : Preview) :
  let x := pvX p + vx * dt in
  let y := pvY p + (pvVy p * dt + 0.5 * ay * dt * dt) in
  hasMovedAway p = false ->
  -1 <= y - startY <= 1 ->
  0 <= x <= tableWidth c -> 0 <= y <= tableHeight c ->
  trajectoryLoop c (S f) startY vx ay dt p =
  trajectoryLoop c f startY vx ay dt
    (mkPreview x y (pvVy p + ay * dt) false (points p ++ [(x, y)])).
Proof.
  intros x y Hm Hy Hx Hy'. cbn [trajectoryLoop]. fold x y. rewrite Hm.
  cbn [negb andb].
  replace (Rabs (y - startY) >? 1) with false.
  2:{ symmetry. apply gtb_false. apply Rabs_small. exact Hy. }
  cbn [andb].
  replace (x <? 0) with false by (symmetry; js_cmp).
  replace (x >? tableWidth c) with false by (symmetry; js_cmp).
  replace (y <? 0) with false by (symmetry; js_cmp).
  replace (y >? tableHeight c) with false by (symmetry; js_cmp).
  reflexivity.
Qed.

Lemma preview_lands (c : Canvas) (f : nat) (startY vx ay dt : R)
      (p : Preview) :
  let x := pvX p + vx * dt in
  let y := pvY p + (pvVy p * dt + 0.5 * ay * dt * dt) in
  hasMovedAway p = false ->
  1 < y - startY ->
  trajectoryLoop c (S f) startY vx ay dt p = points p ++ [(x, startY)].
Proof.
  intros x y Hm Hy. cbn [trajectoryLoop]. fold x y. rewrite Hm.
  cbn [negb andb].
  replace (Rabs (y - startY) >? 1) with true.
  2:{ symmetry. apply gtb_true. apply Rabs_large. exact Hy. }
  replace (y >=? startY) with true by (symmetry; js_cmp).
  reflexivity.
Qed.

(** [k] more iterations of a fall that stays within 1 cm of the start
    height and on the table. *)
Lemma preview_falls (c : Canvas) (x0 y0 vx ay dt : R) (k : nat) :
  forall (i f : nat) (pts : list (R * R)),
    (forall j, (i < j <= i + k)%nat ->
       0 <= ay * (INR j * dt) * (INR j * dt) / 2 <= 1 /\
       0 <= x0 + INR j * (vx * dt) <= tableWidth c /\
       y0 + ay * (INR j * dt) * (INR j * dt) / 2 <= tableHeight c) ->
    0 <= y0 ->
    Forall (fun q => y0 <= snd q) pts ->
    exists pts',
      length pts' = (length pts + k)%nat /\
      Forall (fun q => y0 <= snd q) pts' /\
      trajectoryLoop c (k + f) y0 vx ay dt (fallState x0 y0 vx ay dt i pts) =
      trajectoryLoop c f y0 vx ay dt (fallState x0 y0 vx ay dt (i + k) pts').
Proof.
  induction k as [|k IH]; intros i f pts Hcond Hy0 Hpts.
  - exists pts. rewrite !Nat.add_0_r. repeat split; assumption.
  - destruct (Hcond (S i)) as (Hfall & Hx & Hy); [lia|].
    rewrite S_INR in Hfall, Hx, Hy.
    set (x := x0 + (INR i + 1) * (vx * dt)) in *.
    set (y := y0 + ay * ((INR i + 1) * dt) * ((INR i + 1) * dt) / 2) in *.
    destruct (IH (S i) f (pts ++ [(x, y)])) as (pts' & Hlen & Hall & Heq).
    { intros j Hj. apply Hcond. lia. }
    { exact Hy0. }
    { apply Forall_app. split; [exact Hpts|].
      constructor; [|constructor]. cbn [snd]. unfold y. lra. }
    exists pts'. split; [|split; [exact Hall|]].
    + rewrite Hlen, length_app. cbn [length]. lia.
    + replace (i + S k)%nat with (S i + k)%nat by lia. rewrite <- Heq.
      cbn [Nat.add].
      rewrite preview_continues;
        cbn [fallState pvX pvY pvVy hasMovedAway points].
      * unfold fallState. rewrite S_INR. fold x y.
        replace (x0 + INR i * (vx * dt) + vx * dt) with x
          by (unfold x; ring).
        replace (y0 + ay * (INR i * dt) * (INR i * dt) / 2
                 + (INR i * (ay * dt) * dt + 0.5 * ay * dt * dt))
          with y by (unfold y; lra).
        replace (INR i * (ay * dt) + ay * dt) with ((INR i + 1) * (ay * dt))
          by ring.
        reflexivity.
      * reflexivity.
      * replace (y0 + ay * (INR i * dt) * (INR i * dt) / 2
                 + (INR i * (ay * dt) * dt + 0.5 * ay * dt * dt) - y0)
          with (y - y0) by (unfold y; lra).
        unfold y. lra.
      * replace (x0 + INR i * (vx * dt) + vx * dt) with x
          by (unfold x; ring).
        exact Hx.
      * replace (y0 + ay * (INR i * dt) * (INR i * dt) / 2
                 + (INR i * (ay * dt) * dt + 0.5 * ay * dt * dt))
          with y by (unfold y; lra).
        unfold y in *. lra.
Qed.

(** The preview of the horizontal launch: sixteen points of a fall that
    never rises above the start height, then a landing point put back at
    the start height. *)
Lemma preview_of_horizontal_launch :
  exists pts : list (R * R),
    calculateTrajectory canvas800x600 (initial canvas800x600) 80 30 100 0 =
      pts ++ [(96, 30)] /\
    length pts = 16%nat /\
    Forall (fun q => 30 <= snd q) pts.
Proof.
  destruct table_800x600 as [HW HH].
  pose proof (slopeAccel_default (initial canvas800x600) eq_refl) as Hay.
  unfold calculateTrajectory, maxIterations. cbv zeta.
  set (ay := slopeAccel (initial canvas800x600)) in *.
  assert (Hstart : mkPreview 80 30 0 false [(80, 30)] =
                   fallState 80 30 100 ay 0.01 0 [(80, 30)]).
  { unfold fallState. cbn [INR]. f_equal; lra. }
  rewrite Hstart.
  destruct (preview_falls canvas800x600 80 30 100 ay 0.01 15 0 1985
                          [(80, 30)]) as (pts & Hlen & Hall & Heq).
  { intros j Hj.
    assert (HJ : 1 <= INR j <= 15).
    { rewrite <- (INR_literal 15 15 eq_refl). apply INR_range. lia. }
    set (J := INR j) in *. rewrite HW, HH.
    assert (1 <= J * J <= 225) by nra.
    repeat split; nra. }
  { lra. }
  { constructor; [cbn [snd]; lra | constructor]. }
  exists pts. cbn [length Nat.add] in Hlen.
  change 2000%nat with (15 + 1985)%nat. rewrite Heq.
  split; [|split; [exact Hlen | exact Hall]].
  change 1985%nat with (S 1984).
  rewrite preview_lands; cbn [fallState pvX pvY pvVy hasMovedAway points].
  - rewrite (INR_literal (0 + 15) 15 eq_refl). do 3 f_equal. lra.
  - reflexivity.
  - rewrite (INR_literal (0 + 15) 15 eq_refl). lra.
Qed.

End AirTableFacts.

(** ** Centripetal apparatus *)

Module CentripetalFacts.
Import Centripetal.

Lemma updatePhysics_idle (dt : R) (s : State) :
  isAnimating s = false -> updatePhysics dt s = s.
Proof. intros H. unfold updatePhysics. rewrite H. reflexivity. Qed.

Lemma updatePhysics_running (dt : R) (s : State) :
  isAnimating s = true ->
  updatePhysics dt s =
  set_dynamics (stepTheta dt s) (stepOmega dt s)
               (Rmax 0 (Rmin 5 (preClamp dt s)))
               (if Rabs (preClamp dt s) >? maxCylinderDisplacement s
                then Rabs (preClamp dt s) else maxCylinderDisplacement s)
               ((cylinderVelocity s + stepAccel dt s * dt) * 0.95)
               (stepAccel dt s) s.
Proof. intros H. unfold updatePhysics. rewrite H. reflexivity. Qed.

Lemma updatePhysics_isAnimating (dt : R) (s : State) :
  isAnimating (updatePhysics dt s) = isAnimating s.
Proof.
  destruct (isAnimating s) eqn:E.
  - rewrite updatePhysics_running by exact E. exact E.
  - rewrite updatePhysics_idle by exact E. exact E.
Qed.

(** *** The clamp *)

Lemma clamp_range (x : R) : 0 <= Rmax 0 (Rmin 5 x) <= 5.
Proof.
  split.
  - apply Rmax_l.
  - apply Rmax_lub; [lra | apply Rmin_l].
Qed.






(** *** The running maximum *)

Lemma Rlist_max_nonneg (l : list R) : 0 <= Rlist_max l.
Proof.
  induction l as [|x l IH]; simpl; [lra|].
  apply Rle_trans with (Rlist_max l); [exact IH | apply Rmax_r].
Qed.

Lemma max_update (m p : R) : (if p >? m then p else m) = Rmax m p.
Proof.
  destruct (p >? m) eqn:E.
  - apply gtb_true in E. rewrite Rmax_right; lra.
  - apply gtb_false in E. rewrite Rmax_left; lra.
Qed.

Lemma maxCylinderDisplacement_step (dt : R) (s : State) :
  isAnimating s = true ->
  maxCylinderDisplacement (updatePhysics dt s) =
  Rmax (maxCylinderDisplacement s) (Rabs (preClamp dt s)).
Proof.
  intros H. rewrite updatePhysics_running by exact H.
  cbn [set_dynamics maxCylinderDisplacement]. apply max_update.
Qed.

Lemma maxCylinderDisplacement_subSteps (dts : list R) :
  forall s : State,
    isAnimating s = true ->
    0 <= maxCylinderDisplacement s ->
    maxCylinderDisplacement (subSteps dts s) =
    Rmax (maxCylinderDisplacement s)
         (Rlist_max (map Rabs (preClampTrace dts s))).
Proof.
  induction dts as [|dt dts IH]; intros s H Hpos.
  - cbn [subSteps fold_left preClampTrace map Rlist_max fold_right].
    rewrite Rmax_left; [reflexivity | exact Hpos].
  - cbn [subSteps fold_left preClampTrace map Rlist_max fold_right].
    fold (subSteps dts (updatePhysics dt s)).
    pose proof (maxCylinderDisplacement_step dt s H) as Hstep.
    rewrite IH.
    + rewrite Hstep.
      fold (Rlist_max (map Rabs (preClampTrace dts (updatePhysics dt s)))).
      rewrite Rmax_assoc. reflexivity.
    + rewrite updatePhysics_isAnimating; exact H.
    + rewrite Hstep. apply Rle_trans with (1 := Hpos). apply Rmax_l.
Qed.

Lemma maxCylinderDisplacement_monotone (dt : R) (s : State) :
  maxCylinderDisplacement s <= maxCylinderDisplacement (updatePhysics dt s).
Proof.
  destruct (isAnimating s) eqn:E.
  - rewrite maxCylinderDisplacement_step by exact E. apply Rmax_l.
  - rewrite updatePhysics_idle by exact E. lra.
Qed.

(** *** The one-step lag *)

Lemma lag_step (dt : R) (s : State) :
  isAnimating s = true ->
  let s' := updatePhysics dt s in
  pendulumAngularVelocity s' =
    (pendulumAngularVelocity s
     + - ((g + lastCylinderAccel s) / actualRopeLength)
       * sin (pendulumAngle s) * dt) * 0.9995 /\
  lastCylinderAccel s' =
    cylinderAccel (pendulumAngle s') (pendulumAngularVelocity s') s /\
  effective_g s' = g + lastCylinderAccel s'.
Proof.
  intros H s'. subst s'. rewrite updatePhysics_running by exact H.
  repeat split.
Qed.

(** *** The guided set-up *)

Lemma setup_fields (k : R) :
  let s := run [MeasureX1; AttachMass; MeasureX2 20 20] (initial k) in
  isAnimating s = false /\ x3 s = Some (naturalSpringLength + 20) /\
  effectiveSpringConstant s = k /\
  releaseAngle s = calculateReleaseAngle 20 /\
  lastCylinderAccel s = 0.
Proof. cbv zeta. repeat split. Qed.

Lemma release_fields (s : State) :
  isAnimating s = false ->
  let s' := releaseClick s in
  isAnimating s' = true /\ x3 s' = x3 s /\
  effectiveSpringConstant s' = effectiveSpringConstant s /\
  releaseAngle s' = releaseAngle s /\
  lastCylinderAccel s' = lastCylinderAccel s /\
  pendulumAngle s' = releaseAngle s /\ pendulumAngularVelocity s' = 0 /\
  cylinderDisplacement s' = 0 /\ cylinderVelocity s' = 0 /\
  maxCylinderDisplacement s' = 0.
Proof.
  intros H. unfold releaseClick, startAnimation. rewrite H.
  cbv zeta. repeat split.
Qed.

Lemma releaseAngle_20 :
  calculateReleaseAngle 20 = acos (11 / 15) /\
  0 < sin (calculateReleaseAngle 20) <= 1.
Proof.
  assert (H : calculateReleaseAngle 20 = acos (11 / 15)).
  { unfold calculateReleaseAngle, actualRopeLength. cbv zeta.
    replace (1 - 20 / 75 <? -1) with false by (symmetry; js_cmp).
    replace (1 - 20 / 75 >? 1) with false by (symmetry; js_cmp).
    f_equal. lra. }
  split; [exact H|]. rewrite H. split.
  - apply sin_gt_0; apply acos_bound_lt; lra.
  - apply SIN_bound.
Qed.

Lemma or_else_some (v b : R) : v <> 0 -> or_else (Some v) b = v.
Proof.
  intros Hv. unfold or_else.
  replace (JS.eqb v 0) with false; [reflexivity|].
  symmetry. apply eqb_false. exact Hv.
Qed.

(** The extension under the small mass alone, x0 = m g / k = 1.7 cm at the
    default spring constant. *)
Example extensionDueToMass_default :
  extensionDueToMass (initial 2450) = 1.7.
Proof. unfold initial, smallMass, g. cbn [extensionDueToMass]. lra. Qed.

Example releaseAngle_at_rest : calculateReleaseAngle 0 = 0.
Proof.
  unfold calculateReleaseAngle, actualRopeLength. cbv zeta.
  replace (1 - 0 / 75 <? -1) with false by (symmetry; js_cmp).
  replace (1 - 0 / 75 >? 1) with false by (symmetry; js_cmp).
  replace (1 - 0 / 75) with 1 by lra. apply acos_1.
Qed.

Example releaseAngle_above_pivot : calculateReleaseAngle 200 = PI.
Proof.
  unfold calculateReleaseAngle, actualRopeLength. cbv zeta.
  replace (1 - 200 / 75 <? -1) with true by (symmetry; js_cmp).
  reflexivity.
Qed.

(** *** Bounds on the quantities of a sub-step *)

Lemma Rabs_bound (x b : R) : Rabs x <= b <-> - b <= x <= b.
Proof.
  unfold Rabs. destruct (Rcase_abs x); split; intros H; lra.
Qed.

(** The cylinder acceleration lies between what the lightest and the
    heaviest rope tension allow. *)
Lemma stepAccel_bounds (dt w e : R) (s : State) :
  x3 s = Some e -> e <> 0 ->
  Rabs (stepOmega dt s) <= w ->
  let F := effectiveSpringConstant s
           * (e - naturalSpringLength + cylinderDisplacement s) in
  (3430 - 4165 - F) / 3.5 <= stepAccel dt s
    <= (3430 + 4165 + 318.75 * (w * w) - F) / 3.5.
Proof.
  intros Hx3 He Hw F. subst F.
  unfold stepAccel, cylinderAccel. cbv zeta.
  rewrite Hx3, or_else_some by exact He.
  unfold cylinderMass, smallMass, g, actualRopeLength, naturalSpringLength.
  apply Rabs_bound in Hw.
  set (om := stepOmega dt s) in *.
  pose proof (COS_bound (stepTheta dt s)) as Hc.
  set (c := cos (stepTheta dt s)) in *.
  set (K := effectiveSpringConstant s * (e - 30 + cylinderDisplacement s)).
  assert (Hsq : 0 <= om * om <= w * w) by nra.
  split; lra.
Qed.

Lemma stepOmega_bound (dt B G : R) (s : State) :
  0 <= dt ->
  Rabs (pendulumAngularVelocity s) <= B ->
  Rabs (effective_g s) <= G ->
  Rabs (stepOmega dt s) <= B + G / 75 * dt.
Proof.
  intros Hdt HB HG. apply Rabs_bound in HB. apply Rabs_bound in HG.
  apply Rabs_bound.
  unfold stepOmega, angularAcceleration, actualRopeLength.
  pose proof (SIN_bound (pendulumAngle s)) as Hs.
  set (sn := sin (pendulumAngle s)) in *.
  set (ge := effective_g s) in *.
  set (om := pendulumAngularVelocity s) in *.
  assert (H1 : - G <= ge * sn <= G) by nra.
  assert (H2 : - (G * dt) <= ge * sn * dt <= G * dt) by nra.
  split; nra.
Qed.

(** *** A trial on the default set-up

    The spring is stretched 20 cm at k = 2450: it pulls the cylinder up
    against its stop, so the displacement stays 0 and the acceleration the
    sub-steps store stays between -14210 and -10897 cm/s^2. *)

Lemma trial_step (B : R) (s : State) :
  trialInv B s -> B <= 2.8 ->
  trialInv (B + 0.36) (updatePhysics dt s) /\
  lastCylinderAccel (updatePhysics dt s) <= -10897.
Proof.
  intros [Hrun Hx3 Hk Hang Hd Hv Ha Hom] HB.
  assert (HG : Rabs (effective_g s) <= 13230).
  { apply Rabs_bound. unfold effective_g, g. lra. }
  assert (Hdt : 0 <= dt) by (unfold dt; lra).
  pose proof (stepOmega_bound dt B 13230 s Hdt Hom HG) as Hw.
  assert (Hw' : Rabs (stepOmega dt s) <= 3.16).
  { apply Rle_trans with (1 := Hw). unfold dt. lra. }
  assert (He : naturalSpringLength + 20 <> 0)
    by (unfold naturalSpringLength; lra).
  pose proof (stepAccel_bounds dt 3.16 _ s Hx3 He Hw') as Hacc.
  cbv zeta in Hacc. rewrite Hk, Hd in Hacc.
  unfold naturalSpringLength in Hacc.
  set (a := stepAccel dt s) in *.
  assert (Harange : -14210 <= a <= -10897) by (split; lra).
  assert (Hp : preClamp dt s <= 0).
  { unfold preClamp, rawDisplacement. fold a. cbv zeta.
    rewrite Hd. unfold dt. nra. }
  rewrite updatePhysics_running by exact Hrun. fold a.
  split; [|cbn [set_dynamics lastCylinderAccel]; lra].
  constructor; cbn [set_dynamics isAnimating x3 effectiveSpringConstant
                    releaseAngle cylinderDisplacement cylinderVelocity
                    lastCylinderAccel pendulumAngularVelocity];
    try assumption.
  - rewrite Rmin_right by lra. rewrite Rmax_left by lra. reflexivity.
  - unfold dt. nra.
  - lra.
  - apply Rle_trans with (1 := Hw). unfold dt. lra.
Qed.

Lemma trial_steps (n : nat) :
  forall (B : R) (s : State),
    trialInv B s -> B + 0.36 * INR n <= 3.16 ->
    trialInv (B + 0.36 * INR n) (Nat.iter n (updatePhysics dt) s) /\
    ((1 <= n)%nat ->
     lastCylinderAccel (Nat.iter n (updatePhysics dt) s) <= -10897).
Proof.
  induction n as [|n IH]; intros B s Hinv HB.
  - cbn [Nat.iter nat_rect INR]. split; [|lia].
    replace (B + 0.36 * 0) with B by lra. exact Hinv.
  - rewrite S_INR in *. pose proof (pos_INR n) as Hn.
    destruct (IH B s Hinv) as [Hinv' _]; [lra|].
    destruct (trial_step _ _ Hinv') as [Hnext Hacc]; [lra|].
    cbn [Nat.iter nat_rect]. fold (Nat.iter n (updatePhysics dt) s).
    split; [|intros _; exact Hacc].
    replace (B + 0.36 * (INR n + 1)) with (B + 0.36 * INR n + 0.36) by lra.
    exact Hnext.
Qed.

Lemma first_release_inv : trialInv 0 (releaseClick defaultSetup).
Proof.
  destruct (setup_fields 2450) as (Ha & Hx & Hk & Hr & Hl).
  cbv zeta in *. fold defaultSetup in *.
  destruct (release_fields defaultSetup Ha)
    as (Ra & Rx & Rk & Rr & Rl & Rt & Ro & Rd & Rv & Rm).
  constructor.
  - exact Ra.
  - rewrite Rx. exact Hx.
  - rewrite Rk. exact Hk.
  - rewrite Rr. exact Hr.
  - exact Rd.
  - rewrite Rv. lra.
  - rewrite Rl, Hl. lra.
  - rewrite Ro, Rabs_R0. lra.
Qed.

Lemma firstTrial_inv :
  trialInv 2.88 firstTrial /\ lastCylinderAccel firstTrial <= -10897.
Proof.
  assert (H : firstTrial =
              Nat.iter 8 (updatePhysics dt) (releaseClick defaultSetup)).
  { unfold firstTrial, run. cbn [fold_left handle]. unfold animate.
    rewrite (inv_running _ _ first_release_inv). cbn [negb].
    rewrite for_lt_iter. reflexivity. }
  rewrite H.
  destruct (trial_steps 8 0 _ first_release_inv) as [Hinv Hacc].
  - rewrite (INR_literal 8 8 eq_refl). lra.
  - rewrite (INR_literal 8 8 eq_refl) in Hinv.
    replace (0 + 0.36 * 8) with 2.88 in Hinv by lra.
    split; [exact Hinv | apply Hacc; lia].
Qed.

Lemma resetTrial_fields (s : State) :
  isAnimating (resetTrial s) = false /\
  lastCylinderAccel (resetTrial s) = lastCylinderAccel s /\
  releaseAngle (resetTrial s) = releaseAngle s.
Proof. repeat split. Qed.

Lemma secondRelease_fields :
  isAnimating secondRelease = true /\
  lastCylinderAccel secondRelease = lastCylinderAccel firstTrial /\
  pendulumAngle secondRelease = calculateReleaseAngle 20 /\
  pendulumAngularVelocity secondRelease = 0 /\
  cylinderDisplacement secondRelease = 0 /\
  cylinderVelocity secondRelease = 0.
Proof.
  destruct firstTrial_inv as [[_ _ _ Hang _ _ _ _] _].
  unfold secondRelease, run. cbn [fold_left handle].
  generalize dependent firstTrial. intros s Hang.
  destruct (resetTrial_fields s) as (Ta & Tl & Tr).
  destruct (release_fields (resetTrial s) Ta)
    as (Ra & _ & _ & _ & Rl & Rt & Ro & Rd & Rv & _).
  rewrite Ra, Rl, Rt, Ro, Rd, Rv, Tl, Tr.
  repeat split. exact Hang.
Qed.



(** C9 (what holds, and the failing run).  Every sub-step of a running
    simulation computes the pendulum's angular acceleration with
    g_eff = g + lastCylinderAccel, the acceleration stored by the sub-step
    executed before it, and stores its own cylinder acceleration only after
    the pendulum update; the stored value is 0 after page load and after
    [fullReset].  "Reset trial" and the next release leave the stored value
    in place: on the default set-up, after one frame of a first trial, the
    first sub-step of the second trial runs with g_eff < 0 (the stored
    acceleration is below -10000 cm/s^2, not 0), so the pendulum, released
    from the same angle at rest, starts to swing the other way. *)
Theorem stale_acceleration_after_reset_trial :
  (forall (h : R) (s : State),
     isAnimating s = true ->
     pendulumAngularVelocity (updatePhysics h s) =
       (pendulumAngularVelocity s
        + - ((g + lastCylinderAccel s) / actualRopeLength)
          * sin (pendulumAngle s) * h) * 0.9995 /\
     lastCylinderAccel (updatePhysics h s) =
       cylinderAccel (pendulumAngle (updatePhysics h s))
                     (pendulumAngularVelocity (updatePhysics h s)) s) /\
  (forall k : R, lastCylinderAccel (initial k) = 0) /\
  (forall s : State, lastCylinderAccel (fullReset s) = 0) /\
  (effective_g (releaseClick defaultSetup) = g /\
   pendulumAngularVelocity (updatePhysics dt (releaseClick defaultSetup)) < 0) /\
  (pendulumAngle secondRelease = pendulumAngle (releaseClick defaultSetup) /\
   pendulumAngularVelocity secondRelease = 0 /\
   cylinderDisplacement secondRelease = 0 /\
   cylinderVelocity secondRelease = 0) /\
  (lastCylinderAccel secondRelease < -10000 /\
   effective_g secondRelease < 0 /\
   pendulumAngularVelocity (updatePhysics dt secondRelease) > 0).
Proof.
  destruct releaseAngle_20 as [_ [Hsin _]].
  destruct firstTrial_inv as [_ Hstale].
  destruct secondRelease_fields as (Sa & Sl & St & So & Sd & Sv).
  pose proof first_release_inv as [Frun _ _ _ _ _ _ _].
  destruct (setup_fields 2450) as (Ha & _ & _ & Hr & Hl).
  cbv zeta in Ha, Hr, Hl. fold defaultSetup in Ha, Hr, Hl.
  destruct (release_fields defaultSetup Ha)
    as (_ & _ & _ & _ & Rl & Rt & Ro & _).
  split; [|split; [|split; [|split; [|split]]]].
  - intros h s H. destruct (lag_step h s H) as (H1 & H2 & _). split; assumption.
  - reflexivity.
  - reflexivity.
  - split.
    + unfold effective_g. rewrite Rl, Hl. lra.
    + destruct (lag_step dt _ Frun) as (H1 & _). rewrite H1.
      rewrite Rl, Hl, Rt, Hr, Ro.
      unfold g, actualRopeLength, dt.
      set (sn := sin (calculateReleaseAngle 20)) in *. nra.
  - rewrite St, Rt, Hr. repeat split; assumption.
  - split; [rewrite Sl; lra|]. split.
    + unfold effective_g, g. rewrite Sl. lra.
    + destruct (lag_step dt _ Sa) as (H1 & _). rewrite H1.
      rewrite Sl, St, So.
      unfold g, actualRopeLength, dt.
      set (sn := sin (calculateReleaseAngle 20)) in *.
      set (a := lastCylinderAccel firstTrial) in *.
      assert (0 < - (980 + a)) by lra. nra.
Qed.

Lemma stale_acceleration_after_reset_trial_witness :
  pendulumAngularVelocity (updatePhysics dt secondRelease) =
  (pendulumAngularVelocity secondRelease
   + - ((g + lastCylinderAccel secondRelease) / actualRopeLength)
     * sin (pendulumAngle secondRelease) * dt) * 0.9995.
Proof.
  exact (proj1 (proj1 stale_acceleration_after_reset_trial dt secondRelease
                      (proj1 secondRelease_fields))).
Defined.

(** *** A release on the stiff spring *)

Lemma stiff_first_step :
  preClamp dt (releaseClick stiffSetup) < -5.
Proof.
  destruct (setup_fields 250000) as (Ha & Hx & Hk & Hr & Hl).
  cbv zeta in *. fold stiffSetup in *.
  destruct (release_fields stiffSetup Ha)
    as (Ra & Rx & Rk & Rr & Rl & Rt & Ro & Rd & Rv & Rm).
  set (s := releaseClick stiffSetup) in *.
  assert (Hdt : 0 <= dt) by (unfold dt; lra).
  assert (Hom : Rabs (pendulumAngularVelocity s) <= 0)
    by (rewrite Ro, Rabs_R0; lra).
  assert (HG : Rabs (effective_g s) <= 980).
  { apply Rabs_bound. unfold effective_g, g. rewrite Rl, Hl. lra. }
  pose proof (stepOmega_bound dt 0 980 s Hdt Hom HG) as Hw.
  assert (Hw' : Rabs (stepOmega dt s) <= 0.03).
  { apply Rle_trans with (1 := Hw). unfold dt. lra. }
  assert (He : naturalSpringLength + 20 <> 0)
    by (unfold naturalSpringLength; lra).
  rewrite Hx in Rx.
  pose proof (stepAccel_bounds dt 0.03 _ s Rx He Hw') as Hacc.
  cbv zeta in Hacc. rewrite Rk, Hk, Rd in Hacc.
  unfold naturalSpringLength in Hacc.
  unfold preClamp, rawDisplacement. cbv zeta. rewrite Rd, Rv.
  set (a := stepAccel dt s) in *. unfold dt. lra.
Qed.

(** C10: from the start of a run ([startAnimation]), after any sequence of
    sub-steps [maxCylinderDisplacement] is the largest absolute value among
    the displacements the sub-steps reached before clamping (0 before the
    first sub-step); a sub-step never lowers it; and it can exceed 5 while
    the clamped displacement stays in [0, 5], as on the first sub-step after
    a release with the spring constant at 250000. *)
Theorem max_displacement_tracks_pre_clamp :
  (forall (s : State) (dts : list R),
     isAnimating s = false ->
     let s0 := startAnimation s in
     maxCylinderDisplacement (subSteps dts s0) =
     Rlist_max (map Rabs (preClampTrace dts s0))) /\
  (forall (s : State) (dt : R),
     maxCylinderDisplacement s <=
     maxCylinderDisplacement (updatePhysics dt s)) /\
  (let s1 := updatePhysics dt (releaseClick stiffSetup) in
   maxCylinderDisplacement s1 > 5 /\ 0 <= cylinderDisplacement s1 <= 5).
Proof.
  split; [|split].
  - intros s dts H s0.
    assert (Hrun : isAnimating s0 = true)
      by (unfold s0, startAnimation; rewrite H; reflexivity).
    assert (Hzero : maxCylinderDisplacement s0 = 0)
      by (unfold s0, startAnimation; rewrite H; reflexivity).
    rewrite maxCylinderDisplacement_subSteps by (rewrite ?Hzero; auto; lra).
    rewrite Hzero. apply Rmax_right. apply Rlist_max_nonneg.
  - intros s dt. apply maxCylinderDisplacement_monotone.
  - cbv zeta.
    destruct (setup_fields 250000) as (Ha & _). cbv zeta in Ha.
    fold stiffSetup in Ha.
    destruct (release_fields stiffSetup Ha) as (Ra & _ & _ & _ & _ & _ & _ & _ & _ & Rm).
    pose proof stiff_first_step as Hp.
    split.
    + rewrite maxCylinderDisplacement_step by exact Ra. rewrite Rm.
      apply Rlt_le_trans with (Rabs (preClamp dt (releaseClick stiffSetup)));
        [|apply Rmax_r].
      unfold Rabs. destruct (Rcase_abs _); lra.
    + rewrite updatePhysics_running by exact Ra. apply clamp_range.
Qed.

Lemma max_displacement_tracks_pre_clamp_witness :
  maxCylinderDisplacement (subSteps [dt] (startAnimation defaultSetup)) =
  Rlist_max (map Rabs (preClampTrace [dt] (startAnimation defaultSetup))).
Proof.
  exact (proj1 max_displacement_tracks_pre_clamp defaultSetup [dt]
               (proj1 (setup_fields 2450))).
Defined.

End CentripetalFacts.
(** ** Arrays: sorting and splicing *)


Module ArrayFacts.
Import JSArray.

Section SortBy.
Context {A : Type} (key : A -> R).

Lemma insert_by_perm (x : A) (l : list A) :
  Permutation (insert_by key x l) (x :: l).
Proof.
  induction l as [|y l IH]; cbn [insert_by].
  - apply Permutation_refl.
  - destruct (JS.ltb (key x) (key y)).
    + apply Permutation_refl.
    + apply perm_trans with (y :: x :: l).
      * apply perm_skip. exact IH.
      * apply perm_swap.
Qed.

Lemma insert_by_sorted (x : A) (l : list A) :
  StronglySorted (key_le key) l -> StronglySorted (key_le key) (insert_by key x l).
Proof.
  induction 1 as [|y l Hs IH Hall]; cbn [insert_by].
  - repeat constructor.
  - destruct (JS.ltb (key x) (key y)) eqn:E.
    + apply ltb_true in E. constructor.
      * constructor; assumption.
      * constructor; [unfold key_le; lra|].
        eapply Forall_impl; [|exact Hall].
        intros a Ha. unfold key_le in *. lra.
    + apply ltb_false in E. constructor; [exact IH|].
      apply (Permutation_Forall (Permutation_sym (insert_by_perm x l))).
      constructor; [exact E | exact Hall].
Qed.

(** Inserting a key that is not smaller than any present appends. *)
Lemma insert_by_last (x : A) (l : list A) :
  Forall (fun a => key_le key a x) l -> insert_by key x l = l ++ [x].
Proof.
  induction 1 as [|y l Hy _ IH]; cbn [insert_by app]; [reflexivity|].
  replace (JS.ltb (key x) (key y)) with false.
  - rewrite IH. reflexivity.
  - symmetry. apply ltb_false. exact Hy.
Qed.

Lemma sort_by_snoc (l : list A) (x : A) :
  sort_by key (l ++ [x]) = insert_by key x (sort_by key l).
Proof. unfold sort_by. rewrite fold_left_app. reflexivity. Qed.

Lemma sort_by_perm (l : list A) : Permutation (sort_by key l) l.
Proof.
  induction l as [|x l IH] using rev_ind.
  - apply Permutation_refl.
  - rewrite sort_by_snoc.
    apply perm_trans with (x :: sort_by key l); [apply insert_by_perm|].
    apply perm_trans with (x :: l); [apply perm_skip; exact IH|].
    apply Permutation_cons_append.
Qed.

Lemma sort_by_sorted (l : list A) : StronglySorted (key_le key) (sort_by key l).
Proof.
  induction l as [|x l IH] using rev_ind.
  - constructor.
  - rewrite sort_by_snoc. apply insert_by_sorted. exact IH.
Qed.

Lemma sorted_snoc_inv (l : list A) (x : A) :
  StronglySorted (key_le key) (l ++ [x]) ->
  StronglySorted (key_le key) l /\ Forall (fun a => key_le key a x) l.
Proof.
  induction l as [|y l IH]; cbn [app]; intros H.
  - split; constructor.
  - apply StronglySorted_inv in H. destruct H as [Hs Hall].
    destruct (IH Hs) as [Hl Hx].
    apply Forall_app in Hall. destruct Hall as [Hall Hyx].
    split.
    + constructor; assumption.
    + constructor; [|exact Hx]. inversion Hyx; assumption.
Qed.

(** Stability at work: a sorted array is left as it is. *)
Lemma sort_by_sorted_id (l : list A) :
  StronglySorted (key_le key) l -> sort_by key l = l.
Proof.
  induction l as [|x l IH] using rev_ind; intros H; [reflexivity|].
  destruct (sorted_snoc_inv l x H) as [Hl Hx].
  rewrite sort_by_snoc, (IH Hl). apply insert_by_last. exact Hx.
Qed.

Lemma splice1_out_of_range (index : nat) (l : list A) :
  (length l <= index)%nat -> splice1 index l = l.
Proof.
  intros H. unfold splice1.
  rewrite firstn_all2 by exact H.
  rewrite skipn_all2 by lia. apply app_nil_r.
Qed.

Lemma splice1_length (index : nat) (l : list A) :
  (index < length l)%nat -> S (length (splice1 index l)) = length l.
Proof.
  intros H. unfold splice1.
  rewrite length_app, length_firstn, length_skipn. lia.
Qed.

Lemma splice1_nth_before (index j : nat) (l : list A) :
  (j < index)%nat -> nth_error (splice1 index l) j = nth_error l j.
Proof.
  intros H. unfold splice1.
  destruct (Nat.le_gt_cases (length l) index) as [Hout|Hin].
  - rewrite firstn_all2 by exact Hout. rewrite skipn_all2 by lia.
    rewrite app_nil_r. reflexivity.
  - rewrite nth_error_app1 by (rewrite length_firstn; lia).
    rewrite nth_error_firstn.
    destruct (Nat.ltb_spec j index); [reflexivity | lia].
Qed.

Lemma splice1_nth_after (index j : nat) (l : list A) :
  (index <= j)%nat -> (index < length l)%nat ->
  nth_error (splice1 index l) j = nth_error l (S j).
Proof.
  intros Hj Hin. unfold splice1.
  rewrite nth_error_app2 by (rewrite length_firstn; lia).
  rewrite length_firstn, nth_error_skipn.
  f_equal. lia.
Qed.

Lemma sorted_app_inv (l1 l2 : list A) :
  StronglySorted (key_le key) (l1 ++ l2) ->
  StronglySorted (key_le key) l1 /\ StronglySorted (key_le key) l2 /\
  Forall (fun a => Forall (key_le key a) l2) l1.
Proof.
  induction l1 as [|y l1 IH]; cbn [app]; intros H.
  - repeat split; [constructor | exact H | constructor].
  - apply StronglySorted_inv in H. destruct H as [Hs Hall].
    destruct (IH Hs) as (H1 & H2 & H12).
    apply Forall_app in Hall. destruct Hall as [Hy1 Hy2].
    repeat split; [constructor; assumption | exact H2 |].
    constructor; assumption.
Qed.

Lemma sorted_app (l1 l2 : list A) :
  StronglySorted (key_le key) l1 -> StronglySorted (key_le key) l2 ->
  Forall (fun a => Forall (key_le key a) l2) l1 ->
  StronglySorted (key_le key) (l1 ++ l2).
Proof.
  induction 1 as [|y l1 Hs IH Hall]; cbn [app]; intros H2 H12.
  - exact H2.
  - inversion H12 as [|? ? Hy Hrest]; subst.
    constructor; [apply IH; assumption|].
    apply Forall_app. split; assumption.
Qed.

Lemma splice1_sorted (index : nat) (l : list A) :
  StronglySorted (key_le key) l -> StronglySorted (key_le key) (splice1 index l).
Proof.
  intros H. unfold splice1.
  rewrite <- (firstn_skipn index l) in H.
  destruct (sorted_app_inv _ _ H) as (H1 & H2 & H12).
  apply sorted_app.
  - exact H1.
  - destruct (skipn index l) as [|y r] eqn:E.
    + change (S index) with (1 + index)%nat; rewrite <- skipn_skipn, E. constructor.
    + change (S index) with (1 + index)%nat; rewrite <- skipn_skipn, E. cbn [skipn].
      apply StronglySorted_inv in H2. apply H2.
  - eapply Forall_impl; [|exact H12].
    intros a Ha.
    change (S index) with (1 + index)%nat; rewrite <- skipn_skipn.
    destruct (skipn index l) as [|y r]; [constructor|].
    cbn [skipn]. inversion Ha; assumption.
Qed.

End SortBy.

End ArrayFacts.

(** ** Linear regression: lines, degenerate inputs and the range of R^2 *)

Module RegressionMore.
Import JS Regression RegressionData RegressionFacts.

Lemma line_length (a b : R) (xs : list R) : length xs = length (line a b xs).
Proof. unfold line. rewrite length_map. reflexivity. Qed.

Lemma line_Sx (a b : R) (xs : list R) :
  Sx (line a b xs) = a * Sx xs + b * INR (length xs).
Proof.
  unfold Sx, line. induction xs as [|x xs IH].
  - simpl. lra.
  - change (length (x :: xs)) with (S (length xs)). rewrite S_INR.
    cbn [map Rsum fold_right] in *. unfold Rsum in IH. rewrite IH. lra.
Qed.

Lemma line_Sxy (a b : R) (xs : list R) :
  Sxy xs (line a b xs) = a * Sxy xs xs + b * Sx xs.
Proof.
  unfold Sxy, Sx, line. induction xs as [|x xs IH].
  - simpl. lra.
  - cbn [map combine Rsum fold_right fst snd] in *.
    unfold Rsum in IH. rewrite IH. lra.
Qed.

Lemma line_residuals (a b : R) (xs : list R) :
  Rsum (map (fun p => (snd p - (a * fst p + b)) * (snd p - (a * fst p + b)))
            (combine xs (line a b xs))) = 0.
Proof.
  unfold line. induction xs as [|x xs IH].
  - reflexivity.
  - cbn [map combine Rsum fold_right fst snd] in *.
    unfold Rsum in IH. rewrite IH. lra.
Qed.

Lemma line_total (a b m : R) (xs : list R) :
  Rsum (map (fun p => (snd p - m) * (snd p - m)) (combine xs (line a b xs))) =
  Rsum (map (fun y => (y - m) * (y - m)) (line a b xs)).
Proof.
  rewrite <- (combine_snd xs (line a b xs) (line_length a b xs)) at 2.
  rewrite map_map. reflexivity.
Qed.

Lemma line_total_pos (a b m : R) (xs : list R) :
  a <> 0 -> two_distinct xs ->
  0 < Rsum (map (fun y => (y - m) * (y - m)) (line a b xs)).
Proof.
  intros Ha (u & v & Hu & Hv & Huv).
  apply Rsum_squares_pos.
  exists (a * u + b), (a * v + b). unfold line.
  repeat split; try (apply in_map_iff; eauto).
  intros H. apply Huv. nra.
Qed.

Lemma line_total_flat (b : R) (xs : list R) :
  Rsum (map (fun y => (y - b) * (y - b)) (line 0 b xs)) = 0.
Proof.
  unfold line. induction xs as [|x xs IH].
  - reflexivity.
  - cbn [map Rsum fold_right] in *. unfold Rsum in IH. rewrite IH. lra.
Qed.

Lemma fit_on_line (a b : R) (xs : list R) :
  two_distinct xs ->
  fit xs (line a b xs) =
  mkFit (Fin a) (Fin b) (if Req_dec_T a 0 then NonFinite else Fin 1).
Proof.
  intros Hd.
  rewrite fit_refines_spec by apply line_length.
  pose proof (denominator_pos xs Hd) as HD.
  pose proof (two_distinct_length xs Hd) as Hn.
  assert (Hn' : 2 <= INR (length xs)) by (apply (le_INR 2); exact Hn).
  unfold fit_spec. cbv zeta.
  rewrite line_Sx, line_Sxy.
  set (n := INR (length xs)) in *.
  rewrite (div_finite _ (n * Sxy xs xs - Sx xs * Sx xs)) by lra.
  replace ((n * (a * Sxy xs xs + b * Sx xs) - Sx xs * (a * Sx xs + b * n))
           / (n * Sxy xs xs - Sx xs * Sx xs)) with a by (field; lra).
  cbn [mul sub].
  rewrite !(div_finite _ n) by lra.
  replace ((a * Sx xs + b * n - a * Sx xs) / n) with b by (field; lra).
  cbn [mul sub add sq].
  set (m := (a * Sx xs + b * n) / n).
  rewrite (nsum_finite (fun p => (snd p - m) * (snd p - m))).
  rewrite (nsum_finite
             (fun p => (snd p - (a * fst p + b)) * (snd p - (a * fst p + b)))).
  rewrite line_residuals, line_total.
  destruct (Req_dec_T a 0) as [Ha|Ha].
  - subst a. replace m with b by (unfold m; field; lra).
    rewrite line_total_flat.
    rewrite div_by_zero by reflexivity. reflexivity.
  - pose proof (line_total_pos a b m xs Ha Hd) as Htot.
    rewrite div_finite by lra.
    cbn [sub]. do 2 f_equal. field. lra.
Qed.

(** X1: on exact samples of any line y = a x + b with two distinct x
    values, [linearRegression] (of either page) returns slope a and
    intercept b; R^2 is 1 when a <> 0 and non-finite (0/0) when the samples
    are flat (a = 0). *)
Theorem regression_recovers_any_line :
  forall (a b : R) (xs : list R),
    two_distinct xs ->
    let result :=
      mkFit (Fin a) (Fin b) (if Req_dec_T a 0 then NonFinite else Fin 1) in
    Pendulum.linearRegression xs (line a b xs) = Some result /\
    Centripetal.linearRegression xs (line a b xs) = result.
Proof.
  intros a b xs Hd result.
  pose proof (fit_on_line a b xs Hd) as H. fold result in H.
  split.
  - rewrite pendulum_guard_passed by (apply two_distinct_length; exact Hd).
    rewrite H. reflexivity.
  - exact H.
Qed.

Lemma regression_recovers_any_line_witness :
  Centripetal.linearRegression [1; 2; 4] (line 0 5 [1; 2; 4]) =
  mkFit (Fin 0) (Fin 5) (if Req_dec_T 0 0 then NonFinite else Fin 1).
Proof.
  refine (proj2 (regression_recovers_any_line 0 5 [1; 2; 4] _)).
  exists 1, 2. simpl. repeat split; auto; lra.
Defined.

(** *** Fewer than two samples *)

Lemma fit_spec_empty : fit_spec [] [] = mkFit NonFinite NonFinite NonFinite.
Proof.
  unfold fit_spec. cbv zeta. cbn [length INR combine map nsum fold_left].
  rewrite !div_by_zero by (unfold Sxy, Sx; simpl; lra).
  cbn [mul sub div add]. reflexivity.
Qed.

Lemma fit_spec_single (x y : R) :
  fit_spec [x] [y] = mkFit NonFinite NonFinite NonFinite.
Proof.
  unfold fit_spec. cbv zeta. cbn [length combine map].
  rewrite div_by_zero by (unfold Sxy, Sx; simpl; lra).
  cbn [mul sub div add sq nsum fold_left fst snd]. reflexivity.
Qed.

(** X2: on fewer than two samples (arrays of one length) the pendulum
    page's [linearRegression] returns [null], while the centripetal page's,
    which has no guard, returns a result whose slope, intercept and R^2 are
    all non-finite. *)
Theorem regression_below_two_samples :
  forall xs ys : list R,
    length xs = length ys ->
    (length xs < 2)%nat ->
    Pendulum.linearRegression xs ys = None /\
    Centripetal.linearRegression xs ys = mkFit NonFinite NonFinite NonFinite.
Proof.
  intros xs ys Hlen Hn. split.
  - unfold Pendulum.linearRegression.
    destruct (Nat.ltb_spec (length xs) 2); [reflexivity | lia].
  - unfold Centripetal.linearRegression.
    rewrite fit_refines_spec by exact Hlen.
    destruct xs as [|x [|x' xs]]; destruct ys as [|y [|y' ys]];
      try discriminate; simpl in Hn; try lia.
    + apply fit_spec_empty.
    + apply fit_spec_single.
Qed.

Lemma regression_below_two_samples_witness :
  Pendulum.linearRegression [7] [3] = None /\
  Centripetal.linearRegression [7] [3] = mkFit NonFinite NonFinite NonFinite.
Proof.
  apply (regression_below_two_samples [7] [3] eq_refl). simpl. lia.
Defined.

(** *** Arrays of different lengths *)

Lemma sub_NonFinite_r (a : num) : sub a NonFinite = NonFinite.
Proof. destruct a; reflexivity. Qed.

Lemma mul_NonFinite_r (a : num) : mul a NonFinite = NonFinite.
Proof. destruct a; reflexivity. Qed.

Lemma fold_left_preserves {A B : Type} (F : A -> B -> A) (P : A -> Prop)
      (l : list B) :
  (forall acc i, P acc -> P (F acc i)) ->
  forall acc, P acc -> P (fold_left F l acc).
Proof.
  intros Hkeep. induction l as [|i l IH]; intros acc H; cbn [fold_left].
  - exact H.
  - apply IH, Hkeep, H.
Qed.

Lemma fold_left_absorbing {A B : Type} (F : A -> B -> A) (P : A -> Prop)
      (l : list B) (i0 : B) :
  (forall acc i, P acc -> P (F acc i)) ->
  In i0 l -> (forall acc, P (F acc i0)) ->
  forall acc, P (fold_left F l acc).
Proof.
  intros Hkeep Hin Hhit. induction l as [|i l IH]; intros acc.
  - destruct Hin.
  - cbn [fold_left]. destruct Hin as [->|Hin].
    + apply fold_left_preserves; [exact Hkeep | apply Hhit].
    + apply IH. exact Hin.
Qed.

Lemma fold_left_ext_in {A B : Type} (F G : A -> B -> A) (l : list B) :
  (forall acc i, In i l -> F acc i = G acc i) ->
  forall acc, fold_left F l acc = fold_left G l acc.
Proof.
  induction l as [|i l IH]; intros H acc; cbn [fold_left]; [reflexivity|].
  rewrite H by (left; reflexivity).
  apply IH. intros acc' j Hj. apply H. right. exact Hj.
Qed.

Lemma get_past_end (l : list R) (i : nat) :
  (length l <= i)%nat -> get l i = NonFinite.
Proof.
  intros H. unfold get.
  replace (nth_error l i) with (@None R); [reflexivity|].
  symmetry. apply nth_error_None. exact H.
Qed.

Lemma get_firstn (l : list R) (n i : nat) :
  (i < n)%nat -> get (firstn n l) i = get l i.
Proof.
  intros H. unfold get. rewrite nth_error_firstn.
  destruct (Nat.ltb_spec i n); [reflexivity | lia].
Qed.

Lemma sums_loop_short (xs ys : list R) :
  (length ys < length xs)%nat ->
  sumY (sums_loop xs ys (length xs)) = NonFinite /\
  sumXY (sums_loop xs ys (length xs)) = NonFinite.
Proof.
  intros Hshort. unfold sums_loop.
  apply (fold_left_absorbing _
           (fun acc => sumY acc = NonFinite /\ sumXY acc = NonFinite)
           _ (length ys)).
  - intros acc i [H1 H2]. cbn [sumY sumXY]. rewrite H1, H2. split; reflexivity.
  - apply in_seq. lia.
  - intros acc. cbn [sumY sumXY].
    rewrite (get_past_end ys (length ys)) by lia.
    rewrite mul_NonFinite_r, !add_NonFinite_r. split; reflexivity.
Qed.

Lemma ss_loop_non_finite (xs ys : list R) (n : nat) (yMean intercept : num) :
  (1 <= n)%nat ->
  snd (ss_loop xs ys n yMean NonFinite intercept) = NonFinite.
Proof.
  intros Hn. unfold ss_loop.
  apply (fold_left_absorbing _ (fun acc => snd acc = NonFinite) _ O).
  - intros acc i H. cbn [snd mul add].
    rewrite sub_NonFinite_r. cbn [mul]. apply add_NonFinite_r.
  - apply in_seq. lia.
  - intros acc. cbn [snd mul add].
    rewrite sub_NonFinite_r. cbn [mul]. apply add_NonFinite_r.
Qed.

(** X3: when [yData] is shorter than [xData] the missing entries read as
    [undefined] and the whole result is non-finite; when it is longer, the
    entries past [xData.length] are never read. *)
Theorem regression_on_unequal_lengths :
  forall xs ys : list R,
    ((length ys < length xs)%nat ->
     fit xs ys = mkFit NonFinite NonFinite NonFinite) /\
    ((length xs <= length ys)%nat ->
     fit xs ys = fit xs (firstn (length xs) ys)).
Proof.
  intros xs ys. split.
  - intros Hshort.
    destruct (sums_loop_short xs ys Hshort) as [HY HXY].
    unfold fit. cbv zeta. rewrite HY, HXY.
    cbn [mul sub div].
    rewrite ss_loop_non_finite by lia. reflexivity.
  - intros Hlong.
    assert (Hsums : sums_loop xs ys (length xs) =
                    sums_loop xs (firstn (length xs) ys) (length xs)).
    { unfold sums_loop. apply fold_left_ext_in.
      intros acc i Hi. apply in_seq in Hi.
      rewrite get_firstn by lia. reflexivity. }
    assert (Hss : forall m a b,
               ss_loop xs ys (length xs) m a b =
               ss_loop xs (firstn (length xs) ys) (length xs) m a b).
    { intros m a b. unfold ss_loop. apply fold_left_ext_in.
      intros acc i Hi. apply in_seq in Hi.
      rewrite get_firstn by lia. reflexivity. }
    unfold fit. cbv zeta. rewrite Hsums, Hss. reflexivity.
Qed.

Lemma regression_on_unequal_lengths_witness :
  fit [1; 2; 3] [5; 7] = mkFit NonFinite NonFinite NonFinite.
Proof.
  apply (proj1 (regression_on_unequal_lengths [1; 2; 3] [5; 7])).
  simpl. lia.
Defined.

(** *** The range of R^2 *)

Lemma residual_expansion (a b : R) (xs : list R) :
  forall ys : list R,
    length xs = length ys ->
    Rsum (map (fun p => (snd p - (a * fst p + b)) * (snd p - (a * fst p + b)))
              (combine xs ys)) =
    Sxy ys ys - 2 * a * Sxy xs ys - 2 * b * Sx ys
    + a * a * Sxy xs xs + 2 * a * b * Sx xs + INR (length xs) * (b * b).
Proof.
  unfold Sxy, Sx.
  induction xs as [|x xs IH]; intros [|y ys] Hlen; try discriminate.
  - simpl. lra.
  - change (length (x :: xs)) with (S (length xs)). rewrite S_INR.
    cbn [map combine Rsum fold_right fst snd] in *.
    specialize (IH ys ltac:(simpl in Hlen; lia)).
    unfold Rsum in IH. rewrite IH. lra.
Qed.

Lemma residuals_nonneg (a b : R) (l : list (R * R)) :
  0 <= Rsum (map (fun p => (snd p - (a * fst p + b))
                           * (snd p - (a * fst p + b))) l).
Proof.
  induction l as [|p l IH]; cbn [map Rsum fold_right]; [lra|].
  unfold Rsum in IH.
  pose proof (Rle_0_sqr (snd p - (a * fst p + b))) as H. unfold Rsqr in H.
  lra.
Qed.

Lemma total_over_pairs (m : R) (xs ys : list R) :
  length xs = length ys ->
  Rsum (map (fun p => (snd p - m) * (snd p - m)) (combine xs ys)) =
  Rsum (map (fun y => (y - m) * (y - m)) ys).
Proof.
  intros Hlen.
  rewrite <- (combine_snd xs ys Hlen) at 2.
  rewrite map_map. reflexivity.
Qed.

(** X4: on arrays of one length whose x values are not all equal and whose
    y values are not all equal, [linearRegression] returns finite numbers
    and its R^2 lies in the closed interval from 0 to 1. *)
Theorem r_squared_between_0_and_1 :
  forall xs ys : list R,
    length xs = length ys ->
    two_distinct xs -> two_distinct ys ->
    exists a b r : R,
      fit xs ys = mkFit (Fin a) (Fin b) (Fin r) /\ 0 <= r <= 1.
Proof.
  intros xs ys Hlen Hdx Hdy.
  rewrite fit_refines_spec by exact Hlen.
  pose proof (denominator_pos xs Hdx) as HD.
  pose proof (two_distinct_length xs Hdx) as Hn.
  assert (Hn' : 2 <= INR (length xs)) by (apply (le_INR 2); exact Hn).
  unfold fit_spec. cbv zeta.
  set (n := INR (length xs)) in *.
  set (D := n * Sxy xs xs - Sx xs * Sx xs) in *.
  rewrite (div_finite _ D) by lra.
  set (a := (n * Sxy xs ys - Sx xs * Sx ys) / D).
  cbn [mul sub].
  rewrite !(div_finite _ n) by lra.
  set (b := (Sx ys - a * Sx xs) / n).
  set (m := Sx ys / n).
  cbn [mul sub add sq].
  rewrite (nsum_finite (fun p => (snd p - m) * (snd p - m))).
  rewrite (nsum_finite
             (fun p => (snd p - (a * fst p + b)) * (snd p - (a * fst p + b)))).
  pose proof (residuals_nonneg a b (combine xs ys)) as Hres.
  rewrite (total_over_pairs m xs ys Hlen).
  pose proof (Rsum_squares_pos m ys Hdy) as Htot.
  assert (Hgap :
    Rsum (map (fun y => (y - m) * (y - m)) ys)
    - Rsum (map (fun p => (snd p - (a * fst p + b))
                          * (snd p - (a * fst p + b))) (combine xs ys))
    = a * a * D / n).
  { rewrite residual_expansion by exact Hlen.
    rewrite Rsum_centred. rewrite <- Hlen. fold n.
    assert (Ha : Sxy xs ys = (a * D + Sx xs * Sx ys) / n)
      by (unfold a; field; lra).
    rewrite Ha. unfold b, m, D. field. lra. }
  set (tot := Rsum (map (fun y => (y - m) * (y - m)) ys)) in *.
  set (res := Rsum (map _ (combine xs ys))) in *.
  rewrite div_finite by lra. cbn [sub].
  exists a, b, (1 - res / tot). split; [reflexivity|].
  assert (Hge : 0 <= a * a * D / n).
  { apply Rmult_le_pos; [|apply Rlt_le, Rinv_0_lt_compat; lra].
    apply Rmult_le_pos; [nra | lra]. }
  assert (Hq : 0 <= res / tot <= 1).
  { split.
    - apply Rmult_le_pos; [lra | apply Rlt_le, Rinv_0_lt_compat; lra].
    - apply (Rmult_le_reg_r tot); [lra|].
      replace (res / tot * tot) with res by (field; lra). lra. }
  lra.
Qed.

Lemma r_squared_between_0_and_1_witness :
  exists a b r : R,
    fit [0; 1; 2] [1; 0; 4] = mkFit (Fin a) (Fin b) (Fin r) /\ 0 <= r <= 1.
Proof.
  apply (r_squared_between_0_and_1 [0; 1; 2] [1; 0; 4] eq_refl).
  - exists 0, 1. simpl. repeat split; auto; lra.
  - exists 1, 0. simpl. repeat split; auto; lra.
Defined.

End RegressionMore.

(** ** Result tables of the pendulum and centripetal pages *)

Module TableFacts.
Import JSArray ArrayFacts.

(** X5: whatever the table held, after [storeResult] (pendulum page) or the
    record button (centripetal page) it is sorted by h and holds exactly the
    old rows and the new one; on a table that was sorted, the old rows keep
    their order and the new row goes behind the rows with the same h. *)
Theorem tables_stay_sorted :
  (forall (s : Pendulum.State) (data : list PendulumData.Sample),
     let row := PendulumData.mkSample (Pendulum.pivotDistance s)
                                      (PendulumData.avgPeriod s) in
     StronglySorted (key_le PendulumData.h) (PendulumData.storeResult s data) /\
     Permutation (PendulumData.storeResult s data) (data ++ [row]) /\
     (StronglySorted (key_le PendulumData.h) data ->
      PendulumData.storeResult s data = insert_by PendulumData.h row data)) /\
  (forall (xSlider : R) (s : Centripetal.State)
          (data : list CentripetalPage.Point),
     let row := CentripetalPage.mkPoint xSlider (Centripetal.releaseHeight s) in
     StronglySorted (key_le CentripetalPage.h)
                    (CentripetalPage.record xSlider s data) /\
     Permutation (CentripetalPage.record xSlider s data) (data ++ [row]) /\
     (StronglySorted (key_le CentripetalPage.h) data ->
      CentripetalPage.record xSlider s data =
      insert_by CentripetalPage.h row data)).
Proof.
  split.
  - intros s data row. unfold PendulumData.storeResult. fold row.
    repeat split.
    + apply sort_by_sorted.
    + apply sort_by_perm.
    + intros H. rewrite sort_by_snoc, (sort_by_sorted_id _ _ H). reflexivity.
  - intros xSlider s data row. unfold CentripetalPage.record. fold row.
    repeat split.
    + apply sort_by_sorted.
    + apply sort_by_perm.
    + intros H. rewrite sort_by_snoc, (sort_by_sorted_id _ _ H). reflexivity.
Qed.

Lemma tables_stay_sorted_witness :
  PendulumData.storeResult Pendulum.initial
    [PendulumData.mkSample 10 2; PendulumData.mkSample 20 1.7] =
  insert_by PendulumData.h
    (PendulumData.mkSample (Pendulum.pivotDistance Pendulum.initial)
                           (PendulumData.avgPeriod Pendulum.initial))
    [PendulumData.mkSample 10 2; PendulumData.mkSample 20 1.7].
Proof.
  apply (proj1 tables_stay_sorted Pendulum.initial).
  repeat constructor; unfold key_le; cbn [PendulumData.h]; lra.
Defined.

(** X6: [removeData(index)] with an index past the end changes nothing;
    with an index inside the table it removes that row and no other, the
    rows behind it moving up by one; a sorted table stays sorted. *)
Theorem removeData_removes_one_row :
  forall (index : nat) (data : list PendulumData.Sample)
         (points : list CentripetalPage.Point),
    ((length data <= index)%nat -> PendulumData.removeData index data = data) /\
    ((length points <= index)%nat ->
     CentripetalPage.removeData index points = points) /\
    ((index < length data)%nat ->
     S (length (PendulumData.removeData index data)) = length data /\
     (forall j, (j < index)%nat ->
        nth_error (PendulumData.removeData index data) j = nth_error data j) /\
     (forall j, (index <= j)%nat ->
        nth_error (PendulumData.removeData index data) j =
        nth_error data (S j))) /\
    ((index < length points)%nat ->
     S (length (CentripetalPage.removeData index points)) = length points /\
     (forall j, (j < index)%nat ->
        nth_error (CentripetalPage.removeData index points) j =
        nth_error points j) /\
     (forall j, (index <= j)%nat ->
        nth_error (CentripetalPage.removeData index points) j =
        nth_error points (S j))) /\
    (StronglySorted (key_le PendulumData.h) data ->
     StronglySorted (key_le PendulumData.h)
                    (PendulumData.removeData index data)) /\
    (StronglySorted (key_le CentripetalPage.h) points ->
     StronglySorted (key_le CentripetalPage.h)
                    (CentripetalPage.removeData index points)).
Proof.
  intros index data points.
  unfold PendulumData.removeData, CentripetalPage.removeData.
  split; [apply splice1_out_of_range|].
  split; [apply splice1_out_of_range|].
  split.
  { intros H. split; [apply splice1_length; exact H|]. split.
    - intros j Hj. apply splice1_nth_before. exact Hj.
    - intros j Hj. apply splice1_nth_after; assumption. }
  split.
  { intros H. split; [apply splice1_length; exact H|]. split.
    - intros j Hj. apply splice1_nth_before. exact Hj.
    - intros j Hj. apply splice1_nth_after; assumption. }
  split; apply splice1_sorted.
Qed.

Lemma removeData_removes_one_row_witness :
  nth_error (PendulumData.removeData 0
               [PendulumData.mkSample 10 2; PendulumData.mkSample 20 1.7]) 0 =
  nth_error [PendulumData.mkSample 10 2; PendulumData.mkSample 20 1.7] 1.
Proof.
  refine (proj2 (proj2 (proj1 (proj2 (proj2
            (removeData_removes_one_row 0
               [PendulumData.mkSample 10 2; PendulumData.mkSample 20 1.7] [])))
            _)) 0%nat _).
  - simpl. lia.
  - lia.
Defined.

End TableFacts.

(** ** Physical pendulum: theory, analysis and runs *)

Module PendulumMore.
Import Pendulum PendulumData PendulumFacts.

(** *** The theoretical period *)

Lemma inertia_pos (h : R) : 0 < getMomentOfInertia h.
Proof. unfold getMomentOfInertia, rulerLength. nra. Qed.

Lemma PI_pos : 0 < PI.
Proof. exact PI_RGT_0. Qed.

(** T^2 = 4 pi^2 (L^2/12 + h^2) / (g h) for a pivot below the centre. *)
Lemma period_squared (h : R) :
  0 < h ->
  getTheoreticalPeriod h * getTheoreticalPeriod h =
  4 * PI * PI * (getMomentOfInertia h / (g * h)).
Proof.
  intros Hh. unfold getTheoreticalPeriod. cbv zeta.
  pose proof (inertia_pos h) as HI.
  assert (Hq : 0 <= getMomentOfInertia h / (g * h)).
  { apply Rlt_le, Rdiv_lt_0_compat; [exact HI | unfold g; lra]. }
  pose proof (sqrt_sqrt _ Hq) as Hs.
  set (r := sqrt (getMomentOfInertia h / (g * h))) in *.
  replace (2 * PI * r * (2 * PI * r)) with (4 * PI * PI * (r * r)) by ring.
  rewrite Hs. reflexivity.
Qed.

Lemma balancedPivot_square :
  0 < balancedPivot /\
  balancedPivot * balancedPivot = rulerLength * rulerLength / 12.
Proof.
  unfold balancedPivot.
  assert (H12 : 0 < sqrt 12) by (apply sqrt_lt_R0; lra).
  pose proof (sqrt_sqrt 12 ltac:(lra)) as Hs.
  split.
  - apply Rdiv_lt_0_compat; [unfold rulerLength; lra | exact H12].
  - set (q := sqrt 12) in *.
    replace (rulerLength / q * (rulerLength / q))
      with (rulerLength * rulerLength / (q * q)) by (field; lra).
    rewrite Hs. reflexivity.
Qed.

(** X7: for every pivot distance h > 0 the theoretical period is positive,
    and it is never below the period at the pivot distance L / sqrt 12
    (where h^2 = L^2/12): the period has its minimum there. *)
Theorem theoretical_period_minimum :
  forall h : R,
    0 < h ->
    0 < getTheoreticalPeriod h /\
    getTheoreticalPeriod balancedPivot <= getTheoreticalPeriod h.
Proof.
  intros h Hh.
  destruct balancedPivot_square as [H0 Hsq].
  set (h0 := balancedPivot) in *.
  pose proof PI_pos as Hpi.
  assert (Hratio : forall x, 0 < x -> 0 < getMomentOfInertia x / (g * x)).
  { intros x Hx. apply Rdiv_lt_0_compat; [apply inertia_pos | unfold g; lra]. }
  split.
  - unfold getTheoreticalPeriod. cbv zeta.
    apply Rmult_lt_0_compat; [lra|]. apply sqrt_lt_R0. apply Hratio, Hh.
  - unfold getTheoreticalPeriod. cbv zeta.
    apply Rmult_le_compat_l; [lra|].
    apply sqrt_le_1_alt.
    unfold getMomentOfInertia, g. cbv zeta. rewrite <- Hsq.
    apply (Rmult_le_reg_r (980 * h0 * (980 * h))); [nra|].
    replace ((h0 * h0 + h0 * h0) / (980 * h0) * (980 * h0 * (980 * h)))
      with (2 * h0 * h0 * (980 * h)) by (field; lra).
    replace ((h0 * h0 + h * h) / (980 * h) * (980 * h0 * (980 * h)))
      with ((h0 * h0 + h * h) * (980 * h0)) by (field; lra).
    assert (Hsqr : 0 <= h0 * ((h - h0) * (h - h0))).
    { apply Rmult_le_pos; [lra | apply Rle_0_sqr]. }
    clearbody h0. nra.
Qed.

Lemma theoretical_period_minimum_witness :
  getTheoreticalPeriod balancedPivot <= getTheoreticalPeriod 15.
Proof.
  apply (theoretical_period_minimum 15). lra.
Defined.

(** *** The analysis of a table *)

(** The abscissa [h T^2] of a theoretical row. *)
Lemma theoretical_abscissa (h : R) :
  0 < h ->
  h * getTheoreticalPeriod h * getTheoreticalPeriod h =
  4 * PI * PI * getMomentOfInertia h / g.
Proof.
  intros Hh. rewrite Rmult_assoc, period_squared by exact Hh.
  unfold g. field. lra.
Qed.

Lemma theoretical_abscissa_injective (u v : R) :
  0 < u -> 0 < v ->
  4 * PI * PI * getMomentOfInertia u / g =
  4 * PI * PI * getMomentOfInertia v / g ->
  u = v.
Proof.
  intros Hu Hv Heq. pose proof PI_pos as Hpi.
  assert (Hpp : 0 < 4 * PI * PI) by nra.
  assert (HI : getMomentOfInertia u = getMomentOfInertia v).
  { unfold g in Heq.
    apply (Rmult_eq_reg_l (4 * PI * PI / 980)); [|
      apply Rgt_not_eq, Rdiv_lt_0_compat; lra].
    transitivity (4 * PI * PI * getMomentOfInertia u / 980); [field|].
    rewrite Heq. field. }
  unfold getMomentOfInertia in HI. cbv zeta in HI.
  assert (Hsq : (u - v) * (u + v) = 0) by lra.
  destruct (Rmult_integral _ _ Hsq); lra.
Qed.

(** X8: on a table whose rows carry the theoretical period of their pivot
    distance (all distances positive, at least two different ones),
    [analyzeData] fits slope g/(4 pi^2) and intercept -L^2/12 with R^2 = 1,
    and reports g itself with a percent error of 0. *)
Theorem analysis_recovers_g :
  forall hs : list R,
    Forall (fun h => 0 < h) hs ->
    RegressionData.two_distinct hs ->
    exists A : Analysis,
      analyzeData (theoreticalTable hs) = Some A /\
      Regression.slope (fit A) = JS.Fin (g / (4 * PI * PI)) /\
      Regression.intercept (fit A) =
        JS.Fin (- (rulerLength * rulerLength / 12)) /\
      Regression.r2 (fit A) = JS.Fin 1 /\
      expG A = JS.Fin g /\
      percentError A = JS.Fin 0.
Proof.
  intros hs Hpos Hd. pose proof PI_pos as Hpi.
  assert (Hpp : 0 < 4 * PI * PI) by nra.
  pose proof (RegressionFacts.two_distinct_length hs Hd) as Hlen.
  set (a := g / (4 * PI * PI)).
  set (b := - (rulerLength * rulerLength / 12)).
  set (xs := map (fun h => 4 * PI * PI * getMomentOfInertia h / g) hs).
  assert (Hx : map (fun d => h d * T d * T d) (theoreticalTable hs) = xs).
  { unfold theoreticalTable, xs. rewrite map_map. apply map_ext_in.
    intros u Hu. cbn [h T]. apply theoretical_abscissa.
    rewrite Forall_forall in Hpos. apply Hpos, Hu. }
  assert (Hy : map (fun d => h d * h d) (theoreticalTable hs) =
               RegressionData.line a b xs).
  { unfold theoreticalTable, xs, RegressionData.line. rewrite !map_map.
    apply map_ext. intros u. cbn [h]. unfold a, b, getMomentOfInertia, g.
    cbv zeta. field. lra. }
  assert (Hdx : RegressionData.two_distinct xs).
  { destruct Hd as (u & v & Hu & Hv & Huv).
    exists (4 * PI * PI * getMomentOfInertia u / g),
           (4 * PI * PI * getMomentOfInertia v / g).
    rewrite Forall_forall in Hpos.
    split; [apply (in_map (fun h => 4 * PI * PI * getMomentOfInertia h / g)), Hu|].
    split; [apply (in_map (fun h => 4 * PI * PI * getMomentOfInertia h / g)), Hv|].
    intros Heq. apply Huv.
    apply theoretical_abscissa_injective; auto. }
  assert (Ha : a <> 0).
  { unfold a, g. apply Rgt_not_eq, Rdiv_lt_0_compat; lra. }
  unfold analyzeData.
  assert (Hl : length (theoreticalTable hs) = length hs).
  { unfold theoreticalTable. apply length_map. }
  rewrite Hl.
  destruct (Nat.ltb_spec (length hs) 2) as [Hlt | _]; [lia|].
  cbv zeta. rewrite Hx, Hy.
  rewrite RegressionFacts.pendulum_guard_passed
    by (unfold xs; rewrite length_map; exact Hlen).
  rewrite (RegressionMore.fit_on_line a b xs Hdx).
  destruct (Req_dec_T a 0) as [Hz | _]; [contradiction|].
  eexists. split; [reflexivity|].
  cbn [fit expG percentError Regression.slope Regression.intercept
       Regression.r2 JS.mul JS.sub JS.div JSArray.num_abs].
  destruct (Req_dec_T g 0) as [Hg | _]; [unfold g in Hg; lra|].
  cbn [JS.mul JSArray.num_abs].
  assert (Hg : 4 * PI * PI * a = g) by (unfold a; field; lra).
  repeat split.
  - f_equal. exact Hg.
  - f_equal. rewrite Hg.
    replace ((g - g) / g * 100) with 0 by (unfold g; field).
    apply Rabs_R0.
Qed.

Lemma analysis_recovers_g_witness :
  exists A : Analysis,
    analyzeData (theoreticalTable [10; 20]) = Some A /\
    Regression.slope (fit A) = JS.Fin (g / (4 * PI * PI)) /\
    Regression.intercept (fit A) =
      JS.Fin (- (rulerLength * rulerLength / 12)) /\
    Regression.r2 (fit A) = JS.Fin 1 /\
    expG A = JS.Fin g /\
    percentError A = JS.Fin 0.
Proof.
  apply (analysis_recovers_g [10; 20]).
  - repeat constructor; lra.
  - exists 10, 20. cbn [In].
    repeat split; [left; reflexivity | right; left; reflexivity | lra].
Defined.

(** *** The simulation clock *)

Lemma animate_advance (t : R) (s : State) :
  isRunning s = true ->
  simulationTime (animate t s) - simulationTime s =
  IZR (Z.max 0 (Z.min (JS.Math_round (frameElapsed t s / dt)) maxSteps)) * dt.
Proof.
  intros Hrun. unfold animate. rewrite Hrun. cbn [negb]. cbv zeta.
  rewrite for_lt_iter, simulationTime_conclude, simulationTime_subSteps.
  change (simulationTime (stamp t s)) with (simulationTime s).
  rewrite INR_IZR_INZ. unfold actualSteps. cbv zeta.
  set (z := Z.min _ maxSteps).
  replace (Z.of_nat (Z.to_nat z)) with (Z.max 0 z) by lia.
  ring.
Qed.

Lemma IZR_lt_le (z k : Z) (x : R) :
  IZR z <= x -> x < IZR (k + 1) -> (z <= k)%Z.
Proof.
  intros H1 H2. apply Z.lt_succ_r. apply lt_IZR.
  unfold Z.succ. lra.
Qed.

Lemma IZR_gt_ge (z k : Z) (x : R) :
  x < IZR z + 1 -> IZR k <= x -> (k <= z)%Z.
Proof.
  intros H1 H2. apply Z.lt_succ_r. apply lt_IZR.
  unfold Z.succ. rewrite plus_IZR. lra.
Qed.

(** X9: how the simulated clock follows real time in one call of [animate]
    on a running pendulum, with f the elapsed frame interval in seconds: for
    0 <= f <= 0.05 the clock advances by f to within a quarter of a
    millisecond; for f >= 0.05 it advances by 0.05 s only (the simulation
    falls behind real time); for f <= 0, and on the first frame after a
    start (lastFrameTime 0), it does not advance. *)
Theorem simulation_clock_follows_frame_time :
  forall (timestamp : R) (s : State),
    isRunning s = true ->
    let f := frameElapsed timestamp s in
    let advance := simulationTime (animate timestamp s) - simulationTime s in
    (f <= 0 -> advance = 0) /\
    (0 <= f <= 0.05 -> Rabs (advance - f) <= 0.00025) /\
    (0.05 <= f -> advance = 0.05) /\
    (lastFrameTime s = 0 -> advance = 0).
Proof.
  intros t s Hrun f advance.
  assert (Hadv : advance =
            IZR (Z.max 0 (Z.min (JS.Math_round (f / dt)) maxSteps)) * dt)
    by (apply animate_advance, Hrun).
  clearbody advance. subst advance.
  pose proof (Math_round_bounds (f / dt)) as [Hlo Hhi].
  assert (Hf : f = f / dt * 0.0005) by (unfold dt; field; lra).
  assert (Hfirst : lastFrameTime s = 0 -> f = 0).
  { intros Hlast. unfold f, frameElapsed. cbv zeta. rewrite Hlast.
    replace (JS.eqb 0 0) with true by (symmetry; js_cmp). lra. }
  set (x := f / dt) in *. set (z := JS.Math_round x) in *.
  clearbody x f.
  assert (Hneg : f <= 0 -> IZR (Z.max 0 (Z.min z maxSteps)) * dt = 0).
  { intros Hle.
    assert (Hz : (z <= 0)%Z) by (apply (IZR_lt_le z 0 (x + / 2)); simpl; lra).
    replace (Z.max 0 (Z.min z maxSteps)) with 0%Z by (unfold maxSteps; lia).
    ring. }
  refine (conj Hneg (conj _ (conj _ _))).
  - intros [H0 H1].
    assert (Hz0 : (0 <= z)%Z) by (apply (IZR_gt_ge z 0 (x + / 2)); lra).
    assert (Hz1 : (z <= 100)%Z)
      by (apply (IZR_lt_le z 100 (x + / 2)); simpl; lra).
    replace (Z.max 0 (Z.min z maxSteps)) with z by (unfold maxSteps; lia).
    unfold dt. apply Rabs_le. lra.
  - intros H1.
    assert (Hz1 : (100 <= z)%Z) by (apply (IZR_gt_ge z 100 (x + / 2)); lra).
    replace (Z.max 0 (Z.min z maxSteps)) with 100%Z by (unfold maxSteps; lia).
    unfold dt. lra.
  - intros Hlast. apply Hneg. rewrite (Hfirst Hlast). lra.
Qed.

Lemma simulation_clock_follows_frame_time_witness :
  let s := mkState true 0 1000 (10 * PI / 180) 0 15 10 10 0 false in
  Rabs (simulationTime (animate 1016.6 s) - simulationTime s - 0.0166)
    <= 0.00025.
Proof.
  intros s.
  assert (Hf : frameElapsed 1016.6 s = 0.0166).
  { unfold frameElapsed, s; cbn [lastFrameTime].
    replace (JS.eqb 1000 0) with false by (symmetry; js_cmp). lra. }
  destruct (simulation_clock_follows_frame_time 1016.6 s eq_refl)
    as (_ & Hmid & _ & _).
  rewrite Hf in Hmid. apply Hmid. lra.
Defined.

(** *** The period counter *)

Lemma count_step (dt : R) (s : State) :
  let s' := updatePhysics dt s in
  completedPeriods s' = completedPeriods s \/
  (completedPeriods s' = (completedPeriods s + 1)%Z /\
   0 < angularVelocity s /\ angularVelocity s' <= 0 /\ 0 < angle s').
Proof.
  intros s'. unfold s'. rewrite completedPeriods_step.
  destruct (hasStartedSwinging (updatePhysics dt s)); cbn [andb];
    [|left; reflexivity].
  destruct (Rlt_dec 0 (angularVelocity s)) as [Hv | Hv].
  2:{ replace (angularVelocity s >? 0) with false by (symmetry; js_cmp).
      left; reflexivity. }
  replace (angularVelocity s >? 0) with true by (symmetry; js_cmp).
  cbn [andb].
  destruct (Rle_dec (angularVelocity (updatePhysics dt s)) 0) as [Hv' | Hv'].
  2:{ replace (angularVelocity (updatePhysics dt s) <=? 0) with false
        by (symmetry; js_cmp).
      left; reflexivity. }
  replace (angularVelocity (updatePhysics dt s) <=? 0) with true
    by (symmetry; js_cmp).
  cbn [andb].
  destruct (Rlt_dec 0 (angle (updatePhysics dt s))) as [Ha | Ha].
  2:{ replace (angle (updatePhysics dt s) >? 0) with false
        by (symmetry; js_cmp).
      left; reflexivity. }
  replace (angle (updatePhysics dt s) >? 0) with true by (symmetry; js_cmp).
  right. auto.
Qed.

Lemma count_run_bound (dts : list R) :
  forall s : State,
    (completedPeriods s <= completedPeriods (run dts s))%Z /\
    (angularVelocity s <= 0 ->
     (completedPeriods (run dts s) <=
      completedPeriods s + Z.of_nat (length dts) / 2)%Z) /\
    (completedPeriods (run dts s) <=
     completedPeriods s + (Z.of_nat (length dts) + 1) / 2)%Z.
Proof.
  induction dts as [|d rest IH]; intros s.
  - unfold run. cbn [fold_left length Z.of_nat].
    change (0 / 2)%Z with 0%Z. change ((0 + 1) / 2)%Z with 0%Z.
    refine (conj _ (conj (fun _ => _) _)); lia.
  - change (run (d :: rest) s) with (run rest (updatePhysics d s)).
    destruct (IH (updatePhysics d s)) as (Hmono & Hneg & Hany).
    rewrite length_cons, Nat2Z.inj_succ.
    destruct (count_step d s) as [Heq | (Heq & Hv & Hv' & _)].
    + rewrite Heq in *.
      assert (Hdiv : ((Z.of_nat (length rest) + 1) / 2 <=
                      (Z.succ (Z.of_nat (length rest)) + 1) / 2)%Z)
        by (apply Z.div_le_mono; lia).
      unfold Z.succ in *.
      refine (conj _ (conj (fun Hle => _) _)); [lia | | lia].
      destruct (Rle_dec (angularVelocity (updatePhysics d s)) 0) as [Hv|Hv];
        [specialize (Hneg Hv)|]; lia.
    + specialize (Hneg Hv'). rewrite Heq in *.
      assert (Hdiv : ((Z.succ (Z.of_nat (length rest)) + 1) / 2 =
                      Z.of_nat (length rest) / 2 + 1)%Z).
      { unfold Z.succ.
        replace (Z.of_nat (length rest) + 1 + 1)%Z
          with (Z.of_nat (length rest) + 1 * 2)%Z by lia.
        rewrite Z.div_add by lia. reflexivity. }
      refine (conj _ (conj (fun Hle => _) _)); [lia | lra | lia].
Qed.

(** X10: the period counter never decreases, one sub-step adds at most one
    period, two consecutive sub-steps never both count one, and so a run of
    n sub-steps counts at most (n + 1) / 2 periods (integer division). *)
Theorem periods_counted_at_most_every_other_substep :
  forall (dts : list R) (d1 d2 : R) (s : State),
    let s1 := updatePhysics d1 s in
    let s2 := updatePhysics d2 s1 in
    (completedPeriods s <= completedPeriods s1 <= completedPeriods s + 1)%Z /\
    (completedPeriods s1 = completedPeriods s + 1 ->
     completedPeriods s2 = completedPeriods s1)%Z /\
    (completedPeriods s <= completedPeriods (run dts s)
       <= completedPeriods s + (Z.of_nat (length dts) + 1) / 2)%Z.
Proof.
  intros dts d1 d2 s s1 s2. subst s1 s2.
  refine (conj _ (conj _ _)).
  - destruct (count_step d1 s) as [Heq | (Heq & _)]; lia.
  - intros Hcount.
    destruct (count_step d1 s) as [Heq | (_ & _ & Hv' & _)]; [lia|].
    destruct (count_step d2 (updatePhysics d1 s)) as [Heq | (_ & Hv & _)];
      [exact Heq | lra].
  - destruct (count_run_bound dts s) as (Hmono & _ & Hany). lia.
Qed.

(** *** A pendulum hanging at rest *)

Lemma rest_step (d : R) (s : State) :
  angle s = 0 -> angularVelocity s = 0 ->
  let s' := updatePhysics d s in
  angle s' = 0 /\ angularVelocity s' = 0 /\
  completedPeriods s' = completedPeriods s /\
  targetPeriods s' = targetPeriods s /\
  isRunning s' = isRunning s.
Proof.
  intros Ha Hv s'.
  assert (Hacc : forall x, x = 0 ->
            getAngularAcceleration x (pivotDistance s) = 0).
  { intros x ->. unfold getAngularAcceleration. cbv zeta.
    rewrite sin_0. ring. }
  assert (Hv' : angularVelocity s' = 0).
  { unfold s', updatePhysics. cbv zeta. cbn [angularVelocity].
    rewrite Ha, Hv.
    rewrite (Hacc 0 eq_refl).
    rewrite (Hacc (0 + 0.5 * d * 0)) by lra.
    rewrite (Hacc (0 + 0.5 * d * (0 + 0.5 * d * 0))) by lra.
    rewrite (Hacc (0 + d * (0 + 0.5 * d * 0))) by lra.
    lra. }
  refine (conj _ (conj Hv' (conj _ (conj eq_refl eq_refl)))).
  - unfold s', updatePhysics. cbv zeta. cbn [angle].
    rewrite Ha, Hv.
    rewrite (Hacc 0 eq_refl).
    rewrite (Hacc (0 + 0.5 * d * 0)) by lra.
    rewrite (Hacc (0 + 0.5 * d * (0 + 0.5 * d * 0))) by lra.
    lra.
  - destruct (count_step d s) as [Heq | (_ & Hpos & _)];
      [exact Heq | lra].
Qed.

Lemma rest_subSteps (k : nat) (s : State) :
  angle s = 0 -> angularVelocity s = 0 ->
  let s' := Nat.iter k subStep s in
  angle s' = 0 /\ angularVelocity s' = 0 /\
  completedPeriods s' = completedPeriods s /\
  targetPeriods s' = targetPeriods s /\
  isRunning s' = isRunning s.
Proof.
  intros Ha Hv. induction k as [|k IH]; [cbn; auto|].
  cbv zeta in *. cbn [Nat.iter nat_rect].
  destruct IH as (Ha' & Hv' & Hc & Ht & Hr).
  unfold Nat.iter in *.
  set (sk := nat_rect _ s (fun _ => subStep) k) in *.
  destruct (rest_step dt sk Ha' Hv') as (Ha2 & Hv2 & Hc2 & Ht2 & Hr2).
  unfold subStep. cbv zeta.
  cbn [angle angularVelocity completedPeriods targetPeriods isRunning].
  repeat split; congruence.
Qed.

(** X11: a pendulum released at rest in its equilibrium position (angle 0,
    angular velocity 0) never moves: whatever the frame timestamps, it stays
    at angle 0, no period is ever counted, and a run whose target has not
    been reached never stops. *)
Theorem pendulum_at_rest_never_finishes :
  forall (timestamps : list R) (s : State),
    angle s = 0 -> angularVelocity s = 0 ->
    isRunning s = true ->
    (completedPeriods s < targetPeriods s)%Z ->
    let s' := frames timestamps s in
    angle s' = 0 /\ angularVelocity s' = 0 /\
    completedPeriods s' = completedPeriods s /\
    isRunning s' = true.
Proof.
  intros ts. induction ts as [|t rest IH]; intros s Ha Hv Hrun Hlt.
  - cbn. auto.
  - cbv zeta. change (frames (t :: rest) s) with (frames rest (animate t s)).
    assert (Hstep : angle (animate t s) = 0 /\
                    angularVelocity (animate t s) = 0 /\
                    completedPeriods (animate t s) = completedPeriods s /\
                    targetPeriods (animate t s) = targetPeriods s /\
                    isRunning (animate t s) = true).
    { unfold animate. rewrite Hrun. cbn [negb]. cbv zeta.
      rewrite for_lt_iter.
      destruct (rest_subSteps (Z.to_nat (actualSteps t s)) (stamp t s) Ha Hv)
        as (Ha' & Hv' & Hc & Ht & Hr).
      cbv zeta in *.
      set (sk := Nat.iter _ subStep (stamp t s)) in *.
      change (completedPeriods (stamp t s)) with (completedPeriods s) in Hc.
      change (targetPeriods (stamp t s)) with (targetPeriods s) in Ht.
      change (isRunning (stamp t s)) with (isRunning s) in Hr.
      unfold conclude.
      destruct (Z.geb_spec (completedPeriods sk) (targetPeriods sk)) as [Hge|_];
        [lia|].
      repeat split; congruence. }
    destruct Hstep as (Ha' & Hv' & Hc & Ht & Hr).
    destruct (IH (animate t s) Ha' Hv' Hr ltac:(lia)) as (H1 & H2 & H3 & H4).
    cbv zeta in *. repeat split; congruence.
Qed.

Lemma pendulum_at_rest_never_finishes_witness :
  let s := release (mkControls 15 0 10) initial in
  isRunning (frames [1000; 1016; 1032] s) = true /\
  completedPeriods (frames [1000; 1016; 1032] s) = 0%Z.
Proof.
  intros s.
  assert (Ha : angle s = 0) by (cbn; lra).
  destruct (pendulum_at_rest_never_finishes [1000; 1016; 1032] s Ha eq_refl
              eq_refl eq_refl) as (_ & _ & Hc & Hr).
  split; [exact Hr | exact Hc].
Defined.

(** *** Mirror symmetry *)

Lemma acceleration_odd (theta h : R) :
  getAngularAcceleration (- theta) h = - getAngularAcceleration theta h.
Proof.
  unfold getAngularAcceleration. cbv zeta. rewrite sin_neg. ring.
Qed.

Lemma mirror_step (d : R) (s m : State) :
  angle m = - angle s -> angularVelocity m = - angularVelocity s ->
  pivotDistance m = pivotDistance s ->
  angle (updatePhysics d m) = - angle (updatePhysics d s) /\
  angularVelocity (updatePhysics d m) = - angularVelocity (updatePhysics d s) /\
  pivotDistance (updatePhysics d m) = pivotDistance (updatePhysics d s).
Proof.
  intros Ha Hv Hh.
  unfold updatePhysics. cbv zeta.
  cbn [angle angularVelocity pivotDistance].
  rewrite Ha, Hv, Hh.
  set (h := pivotDistance s). set (a := angle s). set (v := angularVelocity s).
  rewrite (acceleration_odd a h).
  set (k1 := getAngularAcceleration a h).
  replace (- a + 0.5 * d * - v) with (- (a + 0.5 * d * v)) by ring.
  rewrite acceleration_odd.
  set (k2 := getAngularAcceleration (a + 0.5 * d * v) h).
  replace (- a + 0.5 * d * (- v + 0.5 * d * - k1))
    with (- (a + 0.5 * d * (v + 0.5 * d * k1))) by ring.
  rewrite acceleration_odd.
  set (k3 := getAngularAcceleration (a + 0.5 * d * (v + 0.5 * d * k1)) h).
  replace (- a + d * (- v + 0.5 * d * - k2))
    with (- (a + d * (v + 0.5 * d * k2))) by ring.
  rewrite acceleration_odd.
  set (k4 := getAngularAcceleration (a + d * (v + 0.5 * d * k2)) h).
  repeat split; ring.
Qed.

(** X12: the RK4 integrator is mirror symmetric: started from the mirrored
    state (angle and angular velocity with the opposite sign) a run of
    sub-steps reaches the mirrored angle and angular velocity. *)
Theorem motion_is_mirror_symmetric :
  forall (dts : list R) (s : State),
    angle (run dts (mirror s)) = - angle (run dts s) /\
    angularVelocity (run dts (mirror s)) = - angularVelocity (run dts s).
Proof.
  intros dts s.
  assert (Hgen : forall dts s m,
            angle m = - angle s -> angularVelocity m = - angularVelocity s ->
            pivotDistance m = pivotDistance s ->
            angle (run dts m) = - angle (run dts s) /\
            angularVelocity (run dts m) = - angularVelocity (run dts s)).
  { clear. induction dts as [|d rest IH]; intros s m Ha Hv Hh.
    - cbn. auto.
    - change (run (d :: rest) m) with (run rest (updatePhysics d m)).
      change (run (d :: rest) s) with (run rest (updatePhysics d s)).
      destruct (mirror_step d s m Ha Hv Hh) as (Ha' & Hv' & Hh').
      apply IH; assumption. }
  apply Hgen; reflexivity.
Qed.

(** *** When a run stops *)

Lemma count_subSteps (k : nat) (s : State) :
  let s' := Nat.iter k subStep s in
  (completedPeriods s <= completedPeriods s')%Z /\
  (completedPeriods s' <= completedPeriods s + (Z.of_nat k + 1) / 2)%Z /\
  (0 < angularVelocity s' ->
   (completedPeriods s' <= completedPeriods s + Z.of_nat k / 2)%Z) /\
  targetPeriods s' = targetPeriods s /\
  isRunning s' = isRunning s.
Proof.
  induction k as [|k IH].
  - cbn [Nat.iter nat_rect Z.of_nat]. cbv zeta.
    change (0 / 2)%Z with 0%Z. change ((0 + 1) / 2)%Z with 0%Z.
    refine (conj _ (conj _ (conj (fun _ => _) (conj eq_refl eq_refl)))); lia.
  - cbv zeta in *. rewrite Nat.iter_succ.
    set (sk := Nat.iter k subStep s) in *.
    destruct IH as (Hmono & Hany & Hpos & Ht & Hr).
    change (completedPeriods (subStep sk))
      with (completedPeriods (updatePhysics dt sk)).
    change (angularVelocity (subStep sk))
      with (angularVelocity (updatePhysics dt sk)).
    change (targetPeriods (subStep sk)) with (targetPeriods sk).
    change (isRunning (subStep sk)) with (isRunning sk).
    rewrite Nat2Z.inj_succ. unfold Z.succ.
    assert (Hdiv1 : ((Z.of_nat k + 1 + 1) / 2 = Z.of_nat k / 2 + 1)%Z).
    { replace (Z.of_nat k + 1 + 1)%Z with (Z.of_nat k + 1 * 2)%Z by lia.
      rewrite Z.div_add by lia. reflexivity. }
    assert (Hdiv2 : (Z.of_nat k / 2 <= (Z.of_nat k + 1) / 2)%Z)
      by (apply Z.div_le_mono; lia).
    assert (Hdiv3 : ((Z.of_nat k + 1) / 2 <= (Z.of_nat k + 1 + 1) / 2)%Z)
      by (apply Z.div_le_mono; lia).
    destruct (count_step dt sk) as [Heq | (Heq & Hv & Hv' & _)].
    + rewrite Heq.
      refine (conj _ (conj _ (conj (fun _ => _) (conj Ht Hr)))); lia.
    + rewrite Heq. specialize (Hpos Hv).
      refine (conj _ (conj _ (conj (fun Hp => _) (conj Ht Hr))));
        [lia | lia | lra].
Qed.

Lemma actualSteps_le (t : R) (s : State) :
  (Z.of_nat (Z.to_nat (actualSteps t s)) <= 100)%Z.
Proof. unfold actualSteps, maxSteps. cbv zeta. lia. Qed.

(** What a frame keeps: a running simulation is below its target, unless it
    has just been released; a stopped one has reached it, by less than 50. *)
Lemma animate_target (t : R) (s : State) :
  isRunning s = true ->
  (0 <= completedPeriods s)%Z ->
  (completedPeriods s < targetPeriods s)%Z \/
  (lastFrameTime s = 0 /\ completedPeriods s = 0%Z) ->
  let s' := animate t s in
  targetPeriods s' = targetPeriods s /\
  (0 <= completedPeriods s')%Z /\
  (isRunning s' = true -> (completedPeriods s' < targetPeriods s')%Z) /\
  (isRunning s' = false ->
   (targetPeriods s' <= completedPeriods s'
      <= Z.max 0 (targetPeriods s' + 49))%Z).
Proof.
  intros Hrun H0 Hcase s'. subst s'.
  unfold animate. rewrite Hrun. cbn [negb]. cbv zeta.
  rewrite for_lt_iter.
  destruct (count_subSteps (Z.to_nat (actualSteps t s)) (stamp t s))
    as (Hmono & Hany & _ & Ht & Hr).
  cbv zeta in *.
  pose proof (actualSteps_le t s) as Hk.
  assert (Hfirst : lastFrameTime s = 0 -> actualSteps t s = 0%Z).
  { intros Hl. unfold actualSteps, frameElapsed. cbv zeta. rewrite Hl.
    replace (JS.eqb 0 0) with true by (symmetry; js_cmp).
    replace ((t - t) / 1000 / dt) with 0 by (unfold dt; lra).
    rewrite (Math_round_unique 0 0) by (simpl; lra).
    reflexivity. }
  set (k := Z.to_nat (actualSteps t s)) in *.
  set (s2 := Nat.iter k subStep (stamp t s)) in *.
  change (completedPeriods (stamp t s)) with (completedPeriods s) in *.
  change (targetPeriods (stamp t s)) with (targetPeriods s) in *.
  change (isRunning (stamp t s)) with (isRunning s) in *.
  assert (Hbound : (completedPeriods s2 <= completedPeriods s + 50)%Z).
  { assert (((Z.of_nat k + 1) / 2 <= (100 + 1) / 2)%Z)
      by (apply Z.div_le_mono; lia).
    change ((100 + 1) / 2)%Z with 50%Z in *. lia. }
  assert (Hsame : lastFrameTime s = 0 -> completedPeriods s2 = completedPeriods s).
  { intros Hl. unfold s2, k. rewrite (Hfirst Hl). reflexivity. }
  unfold conclude.
  destruct (Z.geb_spec (completedPeriods s2) (targetPeriods s2)) as [Hge | Hlt].
  - cbn [stopSimulation targetPeriods completedPeriods isRunning].
    refine (conj Ht (conj _ (conj _ _))); [lia | discriminate |].
    intros _. destruct Hcase as [Hlt | (Hl & Hc)].
    + lia.
    + rewrite (Hsame Hl), Hc in *. lia.
  - refine (conj Ht (conj _ (conj _ _))); [lia | intros _; lia |].
    intros Hstop. congruence.
Qed.

(** X24: when a run stops.  After a release and at least one frame, a
    simulation that is still running has counted fewer periods than its
    target, and one that has stopped has counted at least its target (the
    period count read at the release) and at most max(0, target + 49), the
    target being checked only at the end of a frame of up to 100
    sub-steps. *)
Theorem run_stops_at_target :
  forall (c : Controls) (s0 : State) (t1 : R) (ts : list R),
    let s := frames (t1 :: ts) (release c s0) in
    targetPeriods s = periodCountInput c /\
    (0 <= completedPeriods s)%Z /\
    (isRunning s = true -> (completedPeriods s < targetPeriods s)%Z) /\
    (isRunning s = false ->
     (targetPeriods s <= completedPeriods s
        <= Z.max 0 (targetPeriods s + 49))%Z).
Proof.
  intros c s0 t1 ts.
  assert (Hrel : isRunning (release c s0) = true /\
                 lastFrameTime (release c s0) = 0 /\
                 completedPeriods (release c s0) = 0%Z /\
                 targetPeriods (release c s0) = periodCountInput c).
  { unfold release, startSimulation.
    destruct (isRunning (init c s0)) eqn:E.
    - unfold init in *. cbn [isRunning] in E.
      cbn [isRunning lastFrameTime completedPeriods targetPeriods].
      auto.
    - cbn [isRunning lastFrameTime completedPeriods targetPeriods init].
      auto. }
  destruct Hrel as (R1 & R2 & R3 & R4).
  assert (Hgen : forall ts s,
            (0 <= completedPeriods s)%Z ->
            (isRunning s = true -> (completedPeriods s < targetPeriods s)%Z) ->
            (isRunning s = false ->
             (targetPeriods s <= completedPeriods s
                <= Z.max 0 (targetPeriods s + 49))%Z) ->
            let s' := frames ts s in
            targetPeriods s' = targetPeriods s /\
            (0 <= completedPeriods s')%Z /\
            (isRunning s' = true ->
             (completedPeriods s' < targetPeriods s')%Z) /\
            (isRunning s' = false ->
             (targetPeriods s' <= completedPeriods s'
                <= Z.max 0 (targetPeriods s' + 49))%Z)).
  { clear. induction ts as [|t ts IH]; intros s H0 Hr Hs.
    - cbn. auto.
    - cbv zeta. change (frames (t :: ts) s) with (frames ts (animate t s)).
      assert (Hstep : targetPeriods (animate t s) = targetPeriods s /\
                (0 <= completedPeriods (animate t s))%Z /\
                (isRunning (animate t s) = true ->
                 (completedPeriods (animate t s)
                  < targetPeriods (animate t s))%Z) /\
                (isRunning (animate t s) = false ->
                 (targetPeriods (animate t s) <= completedPeriods (animate t s)
                  <= Z.max 0 (targetPeriods (animate t s) + 49))%Z)).
      { destruct (isRunning s) eqn:E.
        - apply (animate_target t s E H0). left. apply Hr. reflexivity.
        - assert (Hid : animate t s = s)
            by (unfold animate; rewrite E; reflexivity).
          rewrite Hid, E. auto. }
      destruct Hstep as (S1 & S2 & S3 & S4).
      destruct (IH (animate t s) S2 S3 S4) as (I1 & I2 & I3 & I4).
      cbv zeta in *. rewrite <- S1. auto. }
  cbv zeta. change (frames (t1 :: ts) (release c s0))
    with (frames ts (animate t1 (release c s0))).
  destruct (animate_target t1 (release c s0) R1 ltac:(lia)
              (or_intror (conj R2 R3))) as (S1 & S2 & S3 & S4).
  cbv zeta in *.
  destruct (Hgen ts (animate t1 (release c s0)) S2 S3 S4)
    as (I1 & I2 & I3 & I4).
  cbv zeta in *.
  assert (Ht : targetPeriods (frames ts (animate t1 (release c s0))) =
               periodCountInput c) by congruence.
  exact (conj Ht (conj I2 (conj I3 I4))).
Qed.

End PendulumMore.

(** ** Air table: the page as a whole *)

Module AirTableMore.
Import AirTable AirTablePage AirTableFacts.

(** *** The puck stays on the table *)

Lemma updatePhysics_inside (c : Canvas) (d : R) (s : State) :
  2 * puckRadiusCm <= tableWidth c ->
  2 * puckRadiusCm <= tableHeight c ->
  inside c (puckX (updatePhysics c d s)) (puckY (updatePhysics c d s)).
Proof.
  intros HW HH.
  destruct (updatePhysics_cases c d s ltac:(lra) ltac:(lra)) as [Hx Hy].
  cbv zeta in Hx, Hy. unfold inside.
  split; [destruct Hx as [Hx|[Hx|Hx]] | destruct Hy as [Hy|[Hy|Hy]]]; lra.
Qed.

Lemma updatePhysics_frame (c : Canvas) (d : R) (s : State) :
  let s' := updatePhysics c d s in
  isAnimating s' = isAnimating s /\ launchY s' = launchY s /\
  minY s' = minY s /\ simulationTime s' = simulationTime s /\
  lastTime s' = lastTime s /\ hasMovedFromStart s' = hasMovedFromStart s /\
  trajectoryComplete s' = trajectoryComplete s.
Proof.
  unfold updatePhysics. cbv zeta.
  repeat match goal with
         | |- context [if ?b then _ else _] => destruct b
         end; cbn [set_puck isAnimating launchY minY simulationTime lastTime
                   hasMovedFromStart trajectoryComplete]; repeat split.
Qed.

Lemma physicsPhase_inside (c : Canvas) (t : R) (s : State) :
  2 * puckRadiusCm <= tableWidth c ->
  2 * puckRadiusCm <= tableHeight c ->
  inside c (puckX (physicsPhase c t s)) (puckY (physicsPhase c t s)).
Proof.
  intros HW HH. rewrite physicsPhase_iter.
  rewrite Nat.iter_succ.
  apply updatePhysics_inside; assumption.
Qed.

(** Where a frame leaves the puck: at the end of its physics phase, or
    snapped to the launch height. *)
Lemma animate_position (c : Canvas) (t : R) (s : State) :
  isAnimating s = true ->
  let s1 := physicsPhase c t s in
  let s' := animate c t s in
  puckX s' = puckX s1 /\
  (puckY s' = puckY s1 \/ puckY s' = launchY s) /\
  launchY s' = launchY s.
Proof.
  intros Hanim s1 s'. subst s'.
  unfold animate. rewrite Hanim. cbn [negb]. cbv zeta. fold s1.
  match goal with
  | |- context [if ?a && (puckY s1 >=? launchY s) then _ else _] =>
      destruct (a && (puckY s1 >=? launchY s))
  end; cbn [puckX puckY launchY]; auto.
Qed.

Lemma clamp_inside (lo hi x : R) :
  lo <= hi -> lo <= Rmax lo (Rmin hi x) <= hi.
Proof.
  intros H. split; [apply Rmax_l|].
  apply Rmax_lub; [exact H | apply Rmin_l].
Qed.

Lemma initialPage_inv (c : Canvas) :
  2 * puckRadiusCm <= tableWidth c ->
  4 * puckRadiusCm <= tableHeight c ->
  pageInv c (initialPage c).
Proof.
  intros HW HH. pose proof margin_value as Hm.
  unfold pageInv, initialPage, initial, inside.
  cbn [sim puckX puckY initialPuckX initialPuckY isAnimating].
  repeat split; try lra; intros; discriminate.
Qed.

Lemma handle_inv (c : Canvas) (e : event) (p : Page) :
  2 * puckRadiusCm <= tableWidth c ->
  2 * puckRadiusCm <= tableHeight c ->
  pageInv c p -> pageInv c (handle c e p).
Proof.
  intros HW HH Hp.
  pose proof Hp as (Hpuck & Hreset & Hlaunch & Hdrag).
  destruct e as [x y | x y | | | | | slope | spark | t]; cbn [handle].
  - (* mousedown *)
    unfold mousedown.
    destruct (isAnimating (sim p)) eqn:Ha;
      [exact Hp|].
    destruct (isInsidePuck x y (sim p)).
    + unfold pageInv. cbn [sim isDragging initialPuckX initialPuckY].
      rewrite Ha. repeat split; try apply Hpuck; try apply Hreset;
        intros; discriminate.
    + cbv zeta. unfold pageInv.
      cbn [sim isDragging initialPuckX initialPuckY clearDots set_puck
           puckX puckY isAnimating launchY].
      rewrite Ha. unfold inside.
      pose proof (clamp_inside puckRadiusCm (tableWidth c - puckRadiusCm)
                    (fst (canvasToPhysics x y)) ltac:(lra)) as Hx.
      pose proof (clamp_inside puckRadiusCm (tableHeight c - puckRadiusCm)
                    (snd (canvasToPhysics x y)) ltac:(lra)) as Hy.
      repeat split; try apply Hx; try apply Hy; intros; discriminate.
  - (* mousemove *)
    unfold mousemove. destruct (isDragging p) eqn:Hd;
      [|exact Hp].
    unfold pageInv. cbn [sim isDragging initialPuckX initialPuckY].
    refine (conj Hpuck (conj Hreset (conj Hlaunch _))).
    intros Ha. specialize (Hdrag Ha). congruence.
  - (* mouseup *)
    unfold mouseup. destruct (isDragging p) eqn:Hd; cbn [negb];
      [|exact Hp].
    assert (Ha : isAnimating (sim p) = false).
    { destruct (isAnimating (sim p)); [|reflexivity].
      specialize (Hdrag eq_refl). congruence. }
    cbv zeta. unfold pageInv. cbn [sim isDragging initialPuckX initialPuckY].
    match goal with
    | |- context [if ?b then _ else _] => destruct b
    end.
    + unfold launch, startAnimation.
      cbn [set_puck isAnimating]. rewrite Ha.
      cbn [puckX puckY isAnimating launchY].
      refine (conj Hpuck (conj Hreset (conj _ _))); intros _;
        [apply Hpuck | reflexivity].
    + refine (conj Hpuck (conj Hreset (conj Hlaunch _))).
      intros _. reflexivity.
  - (* mouseleave *)
    unfold mouseleave. destruct (isDragging p) eqn:Hd;
      [|exact Hp].
    unfold pageInv. cbn [sim isDragging initialPuckX initialPuckY].
    refine (conj Hpuck (conj Hreset (conj Hlaunch _))).
    intros _. reflexivity.
  - (* reset *)
    unfold resetPuck, pageInv. cbv zeta.
    cbn [with_sim sim isDragging initialPuckX initialPuckY clearDots set_puck
         stopAnimation puckX puckY isAnimating launchY].
    repeat split; try apply Hreset; intros; discriminate.
  - (* clear dots *)
    unfold pageInv.
    cbn [with_sim sim isDragging initialPuckX initialPuckY clearDots
         puckX puckY isAnimating launchY].
    refine (conj Hpuck (conj Hreset (conj Hlaunch Hdrag))).
  - unfold pageInv.
    cbn [with_sim sim isDragging initialPuckX initialPuckY set_controls
         puckX puckY isAnimating launchY].
    refine (conj Hpuck (conj Hreset (conj Hlaunch Hdrag))).
  - unfold pageInv.
    cbn [with_sim sim isDragging initialPuckX initialPuckY set_controls
         puckX puckY isAnimating launchY].
    refine (conj Hpuck (conj Hreset (conj Hlaunch Hdrag))).
  - (* frame *)
    unfold pageInv. cbn [with_sim sim isDragging initialPuckX initialPuckY].
    destruct (isAnimating (sim p)) eqn:Ha.
    2:{ assert (Hid : animate c t (sim p) = sim p)
          by (unfold animate; rewrite Ha; reflexivity).
        rewrite Hid, Ha.
        refine (conj Hpuck (conj Hreset (conj _ _))); intros; discriminate. }
    destruct (animate_position c t (sim p) Ha) as (Hx & Hy & Hl).
    pose proof (physicsPhase_inside c t (sim p) HW HH) as [Hix Hiy].
    specialize (Hlaunch eq_refl). specialize (Hdrag eq_refl).
    rewrite Hx, Hl. unfold inside.
    refine (conj _ (conj Hreset (conj (fun _ => Hlaunch) (fun _ => Hdrag)))).
    split; [exact Hix|]. destruct Hy as [-> | ->]; assumption.
Qed.

(** X13: on a canvas that leaves room for the puck (table at least two puck
    radii wide and four high), whatever the user does (any sequence of mouse
    events, button clicks, slider inputs and animation frames, from the
    page's initial state) the puck centre and the stored reset position stay
    within the wall margins, and no drag is in progress while the puck is in
    flight. *)
Theorem puck_never_leaves_table :
  forall (c : Canvas) (es : list event),
    2 * puckRadiusCm <= tableWidth c ->
    4 * puckRadiusCm <= tableHeight c ->
    let p := run c es (initialPage c) in
    inside c (puckX (sim p)) (puckY (sim p)) /\
    inside c (initialPuckX p) (initialPuckY p) /\
    (isAnimating (sim p) = true -> isDragging p = false).
Proof.
  intros c es HW HH.
  assert (HH' : 2 * puckRadiusCm <= tableHeight c)
    by (pose proof margin_value; lra).
  assert (Hinv : forall es p, pageInv c p -> pageInv c (run c es p)).
  { clear es. induction es as [|e es IH]; intros p Hp; [exact Hp|].
    change (run c (e :: es) p) with (run c es (handle c e p)).
    apply IH, handle_inv; assumption. }
  destruct (Hinv es (initialPage c) (initialPage_inv c HW HH))
    as (Hpuck & Hreset & _ & Hdrag).
  cbv zeta. auto.
Qed.

Lemma puck_never_leaves_table_witness :
  let p := run canvas800x600
             [MouseDown 400 150; MouseMove 380 150; MouseUp; Frame 1000;
              Frame 1200; ResetClick]
             (initialPage canvas800x600) in
  inside canvas800x600 (puckX (sim p)) (puckY (sim p)).
Proof.
  destruct table_800x600 as [HW HH]. pose proof margin_value as Hm.
  apply (puck_never_leaves_table canvas800x600); lra.
Defined.

(** *** Mouse gestures *)

Lemma sqrt_gt_const (d2 r : R) : 0 <= r -> r * r < d2 -> r < sqrt d2.
Proof.
  intros Hr H. apply Rle_lt_trans with (sqrt (r * r)).
  - rewrite sqrt_square; lra.
  - apply sqrt_lt_1_alt. nra.
Qed.

Lemma sqrt_le_const (d2 r : R) : 0 <= r -> d2 <= r * r -> sqrt d2 <= r.
Proof.
  intros Hr H. apply Rle_trans with (sqrt (r * r)).
  - apply sqrt_le_1_alt. exact H.
  - rewrite sqrt_square; lra.
Qed.

(** X14: releasing a drag while the puck is not in flight.  A drag of more
    than 5 px launches the puck from where it lies with velocity 3 cm/s per
    pixel of drag, opposite to the drag (start minus end, component by
    component), records the launch point and puts the first spark dot there;
    a drag of at most 5 px launches nothing.  Either way the drag is over. *)
Theorem drag_release_launches :
  forall p : Page,
    isDragging p = true ->
    isAnimating (sim p) = false ->
    let dx := dragStartX p - currentMouseX p in
    let dy := dragStartY p - currentMouseY p in
    let p' := mouseup p in
    isDragging p' = false /\
    (25 < dx * dx + dy * dy ->
     puckVx (sim p') = 3 * dx /\ puckVy (sim p') = 3 * dy /\
     puckX (sim p') = puckX (sim p) /\ puckY (sim p') = puckY (sim p) /\
     isAnimating (sim p') = true /\
     launchX (sim p') = puckX (sim p) /\ launchY (sim p') = puckY (sim p) /\
     simulationTime (sim p') = 0 /\
     sparkDots (sim p') =
       sparkDots (sim p) ++ [(puckX (sim p), puckY (sim p))]) /\
    (dx * dx + dy * dy <= 25 -> sim p' = sim p).
Proof.
  intros p Hd Ha dx dy p'. subst p'.
  unfold mouseup. rewrite Hd. cbn [negb]. cbv zeta. fold dx dy.
  set (distance := sqrt (dx * dx + dy * dy)).
  cbn [isDragging sim].
  refine (conj eq_refl (conj _ _)).
  - intros Hfar.
    assert (H5 : 5 < distance) by (apply sqrt_gt_const; lra).
    replace (distance >? 5) with true by (symmetry; js_cmp).
    unfold launch, startAnimation. cbn [set_puck isAnimating]. rewrite Ha.
    cbn [set_puck puckVx puckVy puckX puckY isAnimating launchX launchY
         simulationTime sparkDots].
    unfold velocityScale.
    repeat split; try reflexivity; field; lra.
  - intros Hnear.
    assert (H5 : distance <= 5) by (apply sqrt_le_const; lra).
    replace (distance >? 5) with false by (symmetry; js_cmp).
    reflexivity.
Qed.

Lemma drag_release_launches_witness :
  let p := mkPage (initial canvas800x600) true 400 150 380 165
                  80 30 in
  puckVx (sim (mouseup p)) = 60 /\ puckVy (sim (mouseup p)) = -45.
Proof.
  intros p.
  destruct (drag_release_launches p eq_refl eq_refl) as (_ & Hfar & _).
  cbv zeta in Hfar. unfold p in Hfar at 1 2 3 4 5 6 7 8.
  cbn [dragStartX dragStartY currentMouseX currentMouseY] in Hfar.
  destruct Hfar as (Hvx & Hvy & _); [lra|].
  rewrite Hvx, Hvy. unfold p.
  cbn [dragStartX dragStartY currentMouseX currentMouseY]. lra.
Defined.

Lemma isInsidePuck_near (x y : R) (s : State) :
  (x - pixelsPerCm * puckX s) * (x - pixelsPerCm * puckX s) +
  (y - pixelsPerCm * puckY s) * (y - pixelsPerCm * puckY s) <= 625 ->
  isInsidePuck x y s = true.
Proof.
  intros H. unfold isInsidePuck, physicsToCanvas. cbv zeta. cbn [fst snd].
  unfold puckRadius.
  set (d2 := _ + _).
  assert (Hd : sqrt d2 <= 25) by (apply sqrt_le_const; unfold d2; lra).
  js_cmp.
Qed.

Lemma isInsidePuck_far (x y : R) (s : State) :
  625 <
  (x - pixelsPerCm * puckX s) * (x - pixelsPerCm * puckX s) +
  (y - pixelsPerCm * puckY s) * (y - pixelsPerCm * puckY s) ->
  isInsidePuck x y s = false.
Proof.
  intros H. unfold isInsidePuck, physicsToCanvas. cbv zeta. cbn [fst snd].
  unfold puckRadius.
  set (d2 := _ + _).
  assert (Hd : 25 < sqrt d2) by (apply sqrt_gt_const; unfold d2; lra).
  js_cmp.
Qed.

(** X15: a mouse press while the puck is not in flight, with d2 the squared
    distance in pixels between the press and the puck centre
    (5 px per cm).  Within 25 px (d2 <= 625) it grabs the puck: a drag starts
    at the press and the simulation state is untouched.  Farther away it
    moves the puck and the reset position, and clears the dots; when the
    press is at least one puck radius (15 px) inside the canvas, the puck
    centre lands exactly under the press.  During a flight a press is
    ignored. *)
Theorem press_grabs_or_moves_puck :
  forall (c : Canvas) (x y : R) (p : Page),
    let d2 :=
      (x - pixelsPerCm * puckX (sim p)) * (x - pixelsPerCm * puckX (sim p)) +
      (y - pixelsPerCm * puckY (sim p)) * (y - pixelsPerCm * puckY (sim p)) in
    let p' := mousedown c x y p in
    (isAnimating (sim p) = true -> p' = p) /\
    (isAnimating (sim p) = false -> d2 <= 625 ->
     isDragging p' = true /\ sim p' = sim p /\
     dragStartX p' = x /\ dragStartY p' = y /\
     currentMouseX p' = x /\ currentMouseY p' = y) /\
    (isAnimating (sim p) = false -> 625 < d2 ->
     isDragging p' = isDragging p /\
     sparkDots (sim p') = [] /\
     initialPuckX p' = puckX (sim p') /\ initialPuckY p' = puckY (sim p') /\
     (puckRadius <= x <= width c - puckRadius ->
      puckRadius <= y <= height c - puckRadius ->
      physicsToCanvas (puckX (sim p')) (puckY (sim p')) = (x, y))).
Proof.
  intros c x y p d2 p'. subst p'.
  refine (conj _ (conj _ _)).
  - intros Ha. unfold mousedown. rewrite Ha. reflexivity.
  - intros Ha Hnear. unfold mousedown. rewrite Ha.
    rewrite (isInsidePuck_near x y (sim p) Hnear).
    cbn [isDragging sim dragStartX dragStartY currentMouseX currentMouseY].
    repeat split.
  - intros Ha Hfar. unfold mousedown. rewrite Ha.
    rewrite (isInsidePuck_far x y (sim p) Hfar). cbv zeta.
    cbn [isDragging sim initialPuckX initialPuckY clearDots set_puck
         sparkDots puckX puckY].
    refine (conj eq_refl (conj eq_refl (conj eq_refl (conj eq_refl _)))).
    intros Hx Hy.
    unfold physicsToCanvas, canvasToPhysics, puckRadiusCm, tableWidth,
      tableHeight, puckRadius, pixelsPerCm in *.
    cbn [fst snd].
    rewrite (Rmin_right (width c / 5 - 15 / 5) (x / 5)) by lra.
    rewrite (Rmax_right (15 / 5) (x / 5)) by lra.
    rewrite (Rmin_right (height c / 5 - 15 / 5) (y / 5)) by lra.
    rewrite (Rmax_right (15 / 5) (y / 5)) by lra.
    f_equal; field.
Qed.

Lemma press_grabs_or_moves_puck_witness :
  let p' := mousedown canvas800x600 100 200 (initialPage canvas800x600) in
  physicsToCanvas (puckX (sim p')) (puckY (sim p')) = (100, 200).
Proof.
  intros p'.
  destruct (press_grabs_or_moves_puck canvas800x600 100 200
              (initialPage canvas800x600)) as (_ & _ & Hfar).
  destruct table_800x600 as [HW HH].
  destruct Hfar as (_ & _ & _ & _ & Hpos).
  - reflexivity.
  - unfold initialPage, initial. cbn [sim puckX puckY].
    rewrite HW, HH. unfold pixelsPerCm. lra.
  - apply Hpos; unfold puckRadius, canvas800x600; cbn [width height]; lra.
Defined.

(** *** Free flight against the exact parabola *)

(** X16: as long as no wall is met, k sub-steps of size h move the puck
    like a projectile observed at time t = k h: x and the velocity are
    exact, and y runs ahead of the exact parabola
    y0 + vy t + a t^2 / 2 by a h t / 2 (a the down-slope acceleration). *)
Theorem free_flight_follows_parabola :
  forall (c : Canvas) (h : R) (s : State) (k : nat),
    (forall j, (1 <= j <= k)%nat ->
               inside c (flightX h s j) (flightY h s j)) ->
    let s' := Nat.iter k (updatePhysics c h) s in
    let t := INR k * h in
    let a := slopeAccel s in
    puckX s' = puckX s + puckVx s * t /\
    puckVx s' = puckVx s /\
    puckVy s' = puckVy s + a * t /\
    puckY s' = puckY s + puckVy s * t + a * t * t / 2 + a * h * t / 2.
Proof.
  intros c h s k Hin s' t a. subst s'.
  destruct (iter_free_flight c h s k Hin) as [Heq _].
  rewrite Heq. cbn [set_puck puckX puckY puckVx puckVy].
  unfold flightX, flightVy, flightY, t, a.
  repeat split; field.
Qed.

Lemma free_flight_follows_parabola_witness :
  let s := set_puck 80 30 100 0 (initial canvas800x600) in
  puckX (Nat.iter 2 (updatePhysics canvas800x600 0.01) s) = 82.
Proof.
  intros s.
  destruct table_800x600 as [HW HH]. pose proof margin_value as Hm.
  pose proof (slopeAccel_default s eq_refl) as Ha.
  destruct (free_flight_follows_parabola canvas800x600 0.01 s 2)
    as (Hx & _).
  - intros j Hj. unfold inside, flightX, flightY. rewrite HW, HH, Hm.
    assert (Hj' : 1 <= INR j <= 2).
    { split; [apply (le_INR 1) | apply (le_INR j 2)]; lia. }
    change (puckX s) with 80. change (puckY s) with 30.
    change (puckVx s) with 100. change (puckVy s) with 0.
    set (A := slopeAccel s) in *. set (J := INR j) in *.
    assert (Hq : 1 <= J * (J + 1) / 2 <= 3) by nra.
    set (q := J * (J + 1) / 2) in *.
    assert (Hp : 0 <= q * (A * 0.01 * 0.01) <= 1) by nra.
    split; split; lra.
  - rewrite Hx. change (puckX s) with 80. change (puckVx s) with 100.
    cbn [INR]. lra.
Defined.

(** *** The ghost trajectory *)

Lemma trajectoryLoop_structure (c : Canvas) (fuel : nat)
      (startY vx ay dt : R) :
  forall p : Preview,
    exists mid tl : list (R * R),
      trajectoryLoop c fuel startY vx ay dt p = points p ++ mid ++ tl /\
      (length mid <= fuel)%nat /\
      Forall (fun q => 0 <= fst q <= tableWidth c /\
                       0 <= snd q <= tableHeight c) mid /\
      (tl = [] \/ exists x, tl = [(x, startY)]).
Proof.
  induction fuel as [|fuel IH]; intros p.
  - exists [], []. cbn [trajectoryLoop app length].
    rewrite app_nil_r. repeat split; [lia | constructor | left; reflexivity].
  - cbn [trajectoryLoop]. cbv zeta.
    set (x := pvX p + vx * dt).
    set (y := pvY p + (pvVy p * dt + 0.5 * ay * dt * dt)).
    set (moved := if negb (hasMovedAway p) && (Rabs (y - startY) >? 1)
                  then true else hasMovedAway p).
    destruct (moved && (y >=? startY)).
    + exists [], [(x, startY)]. cbn [app length].
      repeat split; [lia | constructor | right; exists x; reflexivity].
    + destruct (x <? 0) eqn:E1; cbn [orb].
      { exists [], []. cbn [app length]. rewrite app_nil_r.
        repeat split; [lia | constructor | left; reflexivity]. }
      destruct (x >? tableWidth c) eqn:E2; cbn [orb].
      { exists [], []. cbn [app length]. rewrite app_nil_r.
        repeat split; [lia | constructor | left; reflexivity]. }
      destruct (y <? 0) eqn:E3; cbn [orb].
      { exists [], []. cbn [app length]. rewrite app_nil_r.
        repeat split; [lia | constructor | left; reflexivity]. }
      destruct (y >? tableHeight c) eqn:E4.
      { exists [], []. cbn [app length]. rewrite app_nil_r.
        repeat split; [lia | constructor | left; reflexivity]. }
      apply ltb_false in E1, E3. apply gtb_false in E2, E4.
      destruct (IH (mkPreview x y (pvVy p + ay * dt) moved
                              (points p ++ [(x, y)])))
        as (mid & tl & Heq & Hlen & Hin & Htl).
      exists ((x, y) :: mid), tl. rewrite Heq. cbn [points].
      rewrite <- app_assoc. cbn [app length].
      refine (conj eq_refl (conj _ (conj _ Htl))); [lia|].
      constructor; [cbn [fst snd]; lra | exact Hin].
Qed.

(** X17: the ghost trajectory drawn during a drag starts at the start
    point, has at most 2000 further points, and every one of them lies on
    the table (0 <= x <= tableWidth, 0 <= y <= tableHeight), except that the
    list may end with one landing point at the start height, whose x is not
    checked against the table. *)
Theorem ghost_trajectory_stays_on_table :
  forall (c : Canvas) (s : State) (startX startY vx vy : R),
    exists mid tl : list (R * R),
      calculateTrajectory c s startX startY vx vy =
        (startX, startY) :: mid ++ tl /\
      (length mid <= 2000)%nat /\
      Forall (fun q => 0 <= fst q <= tableWidth c /\
                       0 <= snd q <= tableHeight c) mid /\
      (tl = [] \/ exists x, tl = [(x, startY)]).
Proof.
  intros c s startX startY vx vy. unfold calculateTrajectory. cbv zeta.
  destruct (trajectoryLoop_structure c maxIterations startY vx
              (slopeAccel s) 0.01
              (mkPreview startX startY vy false [(startX, startY)]))
    as (mid & tl & Heq & Hlen & Hin & Htl).
  exists mid, tl. rewrite Heq. cbn [points app].
  refine (conj eq_refl (conj Hlen (conj Hin Htl))).
Qed.

(** *** The clock and the results of a flight *)

Lemma animate_idle (c : Canvas) (t : R) (s : State) :
  isAnimating s = false -> animate c t s = s.
Proof. intros H. unfold animate. rewrite H. reflexivity. Qed.

Lemma frames_idle (c : Canvas) (ts : list R) (s : State) :
  isAnimating s = false -> frames c ts s = s.
Proof.
  induction ts as [|t ts IH]; intros H; [reflexivity|].
  change (frames c (t :: ts) s) with (frames c ts (animate c t s)).
  rewrite animate_idle by exact H. apply IH, H.
Qed.

Lemma frames_animating (c : Canvas) (ts : list R) (s : State) :
  isAnimating (frames c ts s) = true -> isAnimating s = true.
Proof.
  intros H. destruct (isAnimating s) eqn:E; [reflexivity|].
  rewrite frames_idle in H by exact E. congruence.
Qed.

Lemma physicsPhase_frame (c : Canvas) (t : R) (s : State) :
  let s1 := physicsPhase c t s in
  isAnimating s1 = isAnimating s /\ launchY s1 = launchY s /\
  minY s1 = minY s /\ simulationTime s1 = simulationTime s.
Proof.
  cbv zeta. rewrite physicsPhase_iter.
  generalize 10%nat. intros n. induction n as [|n IH].
  - cbn [Nat.iter nat_rect]. auto.
  - rewrite Nat.iter_succ.
    destruct (updatePhysics_frame c (frameDt t s / 10)
                (Nat.iter n (updatePhysics c (frameDt t s / 10)) s))
      as (H1 & H2 & H3 & H4 & _).
    cbv zeta in *. destruct IH as (I1 & I2 & I3 & I4).
    repeat split; congruence.
Qed.

Lemma animate_clock (c : Canvas) (t : R) (s : State) :
  isAnimating s = true ->
  lastTime (animate c t s) = t /\
  simulationTime (animate c t s) = simulationTime s + frameDt t s /\
  launchY (animate c t s) = launchY s.
Proof.
  intros Hanim. unfold animate. rewrite Hanim. cbn [negb]. cbv zeta.
  match goal with
  | |- context [if ?a && (?y >=? launchY s) then _ else _] =>
      destruct (a && (y >=? launchY s))
  end; cbn [lastTime simulationTime launchY]; auto.
Qed.

Lemma last_cons_default {A : Type} (ts : list A) :
  forall t d : A, last (t :: ts) d = last ts t.
Proof.
  induction ts as [|u ts IH]; intros t d; [reflexivity|].
  change (last (t :: u :: ts) d) with (last (u :: ts) d).
  rewrite (IH u d), (IH u t). reflexivity.
Qed.

Lemma last_nonzero (ts : list R) (t1 : R) :
  t1 <> 0 -> Forall (fun u => u <> 0) ts -> last ts t1 <> 0.
Proof.
  intros Ht1 Hts. revert t1 Ht1.
  induction Hts as [|u ts Hu Hts IH]; intros t1 Ht1; [exact Ht1|].
  rewrite last_cons_default. apply IH, Hu.
Qed.

Lemma frames_clock (c : Canvas) (ts : list R) :
  forall (s : State),
    lastTime s <> 0 ->
    Forall (fun t => t <> 0) ts ->
    isAnimating (frames c ts s) = true ->
    lastTime (frames c ts s) = last ts (lastTime s) /\
    simulationTime (frames c ts s) =
      simulationTime s + (last ts (lastTime s) - lastTime s) / 1000.
Proof.
  induction ts as [|t ts IH]; intros s H0 Hts Hanim.
  - cbn. split; [reflexivity | lra].
  - change (frames c (t :: ts) s) with (frames c ts (animate c t s)) in *.
    inversion Hts as [|? ? Ht Hts']; subst.
    pose proof (frames_animating _ _ _ Hanim) as Ha1.
    assert (Ha : isAnimating s = true).
    { destruct (isAnimating s) eqn:E; [reflexivity|].
      rewrite animate_idle in Ha1 by exact E. congruence. }
    destruct (animate_clock c t s Ha) as (Hl & Hs & _).
    destruct (IH (animate c t s)) as (IH1 & IH2);
      [rewrite Hl; exact Ht | exact Hts' | exact Hanim |].
    rewrite Hl in IH1, IH2.
    rewrite last_cons_default. split; [exact IH1|].
    rewrite IH2, Hs. unfold frameDt. cbv zeta.
    replace (JS.eqb (lastTime s) 0) with false by (symmetry; js_cmp).
    lra.
Qed.

(** X18: the flight clock is the wall clock.  After a launch, the first
    frame (timestamp t1) starts the clock at 0 and, with no cap on the frame
    interval, every later frame adds the full time since the previous one:
    while the puck is still in flight after frames t1, ..., tn (timestamps
    other than 0), the simulated time is (tn - t1) / 1000 seconds, and the
    next frame, at time t, brings it to (t - t1) / 1000 whether or not the
    flight ends there. *)
Theorem flight_clock_is_wall_clock :
  forall (c : Canvas) (vx vy : R) (s : State) (t1 t : R) (ts : list R),
    isAnimating s = false ->
    t1 <> 0 ->
    Forall (fun u => u <> 0) ts ->
    let s' := frames c (t1 :: ts) (launch vx vy s) in
    isAnimating s' = true ->
    simulationTime s' = (last ts t1 - t1) / 1000 /\
    simulationTime (animate c t s') = (t - t1) / 1000.
Proof.
  intros c vx vy s t1 t ts Hidle Ht1 Hts s' Hanim.
  set (s0 := launch vx vy s) in *.
  assert (H0 : isAnimating s0 = true /\ lastTime s0 = 0 /\
               simulationTime s0 = 0).
  { unfold s0, launch, startAnimation. cbn [set_puck isAnimating].
    rewrite Hidle. cbn [isAnimating lastTime simulationTime]. auto. }
  destruct H0 as (Ha0 & Hl0 & Hs0).
  destruct (animate_clock c t1 s0 Ha0) as (Hl1 & Hs1 & _).
  assert (Hdt : frameDt t1 s0 = 0).
  { unfold frameDt. cbv zeta. rewrite Hl0.
    replace (JS.eqb 0 0) with true by (symmetry; js_cmp). lra. }
  change s' with (frames c ts (animate c t1 s0)) in *.
  destruct (frames_clock c ts (animate c t1 s0)) as (Hl & Hs);
    [rewrite Hl1; exact Ht1 | exact Hts | exact Hanim |].
  rewrite Hl1 in Hl, Hs. rewrite Hs1, Hs0, Hdt in Hs.
  split; [rewrite Hs; lra|].
  destruct (animate_clock c t _ Hanim) as (_ & Hs' & _).
  rewrite Hs', Hs. unfold frameDt. cbv zeta. rewrite Hl.
  pose proof (last_nonzero ts t1 Ht1 Hts) as Hlast.
  replace (JS.eqb (last ts t1) 0) with false by (symmetry; js_cmp).
  lra.
Qed.

Lemma flight_clock_is_wall_clock_witness :
  simulationTime (animate canvas800x600 1200 firstFrame) = 0.2.
Proof.
  destruct firstFrame_fields as (Ha & _).
  destruct (flight_clock_is_wall_clock canvas800x600 100 0
              (initial canvas800x600) 1000 1200 [])
    as (_ & H).
  - reflexivity.
  - lra.
  - constructor.
  - exact Ha.
  - change (frames canvas800x600 [1000] (launch 100 0 (initial canvas800x600)))
      with firstFrame in H.
    rewrite H. lra.
Defined.

Lemma animate_flightInv (c : Canvas) (t : R) (s : State) :
  flightInv s -> flightInv (animate c t s) /\
                 launchY (animate c t s) = launchY s.
Proof.
  intros Hinv. pose proof Hinv as (Hmin & Hdone).
  destruct (isAnimating s) eqn:Ha.
  2:{ rewrite animate_idle by exact Ha. exact (conj Hinv eq_refl). }
  assert (Hrun : trajectoryComplete s = false).
  { destruct (trajectoryComplete s); [|reflexivity].
    destruct (Hdone eq_refl) as (Hf & _). congruence. }
  unfold animate, flightInv. rewrite Ha. cbn [negb]. cbv zeta.
  set (s1 := physicsPhase c t s).
  set (minY' := if puckY s1 <? minY s then puckY s1 else minY s).
  assert (Hmin' : minY' <= launchY s).
  { unfold minY'. destruct (puckY s1 <? minY s) eqn:E; [|exact Hmin].
    apply ltb_true in E. lra. }
  match goal with
  | |- context [if ?a && (puckY s1 >=? launchY s) then _ else _] =>
      destruct (a && (puckY s1 >=? launchY s))
  end;
    cbn [minY launchY trajectoryComplete isAnimating puckX puckY puckVx
         puckVy finalX maxHeight flightTime simulationTime].
  - repeat split; auto.
  - rewrite Hrun. repeat split; auto; discriminate.
Qed.

Lemma frames_flightInv (c : Canvas) (ts : list R) :
  forall s : State,
    flightInv s ->
    flightInv (frames c ts s) /\ launchY (frames c ts s) = launchY s.
Proof.
  induction ts as [|t ts IH]; intros s Hinv; [split; [exact Hinv|reflexivity]|].
  change (frames c (t :: ts) s) with (frames c ts (animate c t s)).
  destruct (animate_flightInv c t s Hinv) as (Hinv' & Hl).
  destruct (IH _ Hinv') as (Hinv'' & Hl'').
  split; [exact Hinv'' | congruence].
Qed.

(** X19: the results of a flight are consistent.  From a launch on, after
    any number of frames, the launch height is the height the puck was
    launched from, and the highest point recorded (the smallest y) is at or
    above it; once the trajectory is reported complete, the animation has
    stopped with the puck at rest exactly at launch height, the final x is
    the puck's x, the flight time is the simulated time, and the maximum
    height is launch height minus highest point, never negative. *)
Theorem flight_results_are_consistent :
  forall (c : Canvas) (vx vy : R) (s : State) (ts : list R),
    isAnimating s = false ->
    let s' := frames c ts (launch vx vy s) in
    launchY s' = puckY s /\
    minY s' <= launchY s' /\
    (trajectoryComplete s' = true ->
     isAnimating s' = false /\
     puckY s' = puckY s /\ puckVx s' = 0 /\ puckVy s' = 0 /\
     finalX s' = puckX s' /\
     flightTime s' = simulationTime s' /\
     maxHeight s' = launchY s' - minY s' /\
     0 <= maxHeight s').
Proof.
  intros c vx vy s ts Hidle s'.
  assert (H0 : flightInv (launch vx vy s) /\
               launchY (launch vx vy s) = puckY s).
  { unfold launch, startAnimation, flightInv. cbn [set_puck isAnimating].
    rewrite Hidle.
    cbn [minY launchY trajectoryComplete puckY].
    repeat split; try lra; discriminate. }
  destruct H0 as (Hinv0 & Hl0).
  destruct (frames_flightInv c ts _ Hinv0) as ((Hmin & Hdone) & Hl).
  fold s' in Hmin, Hdone, Hl.
  refine (conj _ (conj Hmin _)); [congruence|].
  intros Hc. destruct (Hdone Hc) as (H1 & H2 & H3 & H4 & H5 & H6 & H7).
  repeat split; try assumption; try congruence. lra.
Qed.

Lemma flight_results_are_consistent_witness :
  let s' := frames canvas800x600 [1000; 1200]
              (launch 100 0 (initial canvas800x600)) in
  launchY s' = puckY (initial canvas800x600) /\ minY s' <= launchY s'.
Proof.
  intros s'.
  pose proof (flight_results_are_consistent canvas800x600 100 0
                (initial canvas800x600) [1000; 1200] eq_refl) as H.
  destruct H as (Hl & Hmin & _).
  split; [exact Hl | exact Hmin].
Defined.

End AirTableMore.

(** ** Centripetal force: set-up, status and analysis *)

Module CentripetalMore.
Import Centripetal CentripetalPage CentripetalFacts.

(** *** The release angle *)

(** X20: the release angle as a function of the release height h.  For a
    height the rope can reach (0 <= h <= 2 l, l = 75 cm) the angle lies in
    [0, pi] and gives the height back: l (1 - cos angle) = h.  Below that
    range the angle is 0, above it pi. *)
Theorem release_angle_gives_height_back :
  forall h : R,
    let theta := calculateReleaseAngle h in
    0 <= theta <= PI /\
    (0 <= h <= 2 * actualRopeLength ->
     actualRopeLength * (1 - cos theta) = h) /\
    (h < 0 -> theta = 0) /\
    (2 * actualRopeLength < h -> theta = PI).
Proof.
  intros h theta. subst theta.
  unfold calculateReleaseAngle, actualRopeLength. cbv zeta.
  pose proof PI_RGT_0 as Hpi.
  destruct (Rlt_dec (1 - h / 75) (-1)) as [Hlo | Hlo].
  { replace (1 - h / 75 <? -1) with true by (symmetry; js_cmp).
    repeat split; try lra; intros; lra. }
  replace (1 - h / 75 <? -1) with false by (symmetry; js_cmp).
  destruct (Rlt_dec 1 (1 - h / 75)) as [Hhi | Hhi].
  { replace (1 - h / 75 >? 1) with true by (symmetry; js_cmp).
    repeat split; try lra; intros; lra. }
  replace (1 - h / 75 >? 1) with false by (symmetry; js_cmp).
  pose proof (acos_bound (1 - h / 75)) as Hb.
  refine (conj Hb (conj _ (conj _ _))).
  - intros Hh. rewrite cos_acos by lra. field.
  - intros Hh. lra.
  - intros Hh. lra.
Qed.

Lemma release_angle_gives_height_back_witness :
  actualRopeLength * (1 - cos (calculateReleaseAngle 20)) = 20.
Proof.
  apply (release_angle_gives_height_back 20).
  unfold actualRopeLength. lra.
Defined.

(** *** The cylinder status line *)

Lemma updatePhysics_max_nonneg (d : R) (s : State) :
  0 <= maxCylinderDisplacement s ->
  0 <= maxCylinderDisplacement (updatePhysics d s).
Proof.
  intros H. apply Rle_trans with (1 := H).
  apply maxCylinderDisplacement_monotone.
Qed.

Lemma iter_max_nonneg (d : R) (n : nat) (s : State) :
  0 <= maxCylinderDisplacement s ->
  0 <= maxCylinderDisplacement (Nat.iter n (updatePhysics d) s).
Proof.
  intros H. induction n as [|n IH]; [exact H|].
  rewrite Nat.iter_succ. apply updatePhysics_max_nonneg, IH.
Qed.

Lemma handle_max_nonneg (e : event) (s : State) :
  0 <= maxCylinderDisplacement s ->
  0 <= maxCylinderDisplacement (handle e s).
Proof.
  intros H. destruct e; cbn [handle]; try exact H.
  - unfold setX3. destruct (systemSetup s); exact H.
  - unfold releaseClick, startAnimation, stopAnimation.
    destruct (isAnimating s); [exact H|].
    cbn [set_isAnimating set_dynamics maxCylinderDisplacement]. lra.
  - unfold resetTrial. cbv zeta.
    cbn [set_dynamics maxCylinderDisplacement]. lra.
  - unfold fullReset. cbv zeta. cbn [maxCylinderDisplacement]. lra.
  - unfold animate. destruct (isAnimating s); cbn [negb]; [|exact H].
    rewrite for_lt_iter. apply iter_max_nonneg, H.
  - apply updatePhysics_max_nonneg, H.
Qed.

Lemma run_max_nonneg (es : list event) (s : State) :
  0 <= maxCylinderDisplacement s ->
  0 <= maxCylinderDisplacement (run es s).
Proof.
  revert s. induction es as [|e es IH]; intros s H; [exact H|].
  apply IH, handle_max_nonneg, H.
Qed.

(** X21: in every state the page can reach, the largest displacement seen
    is not negative, so during a trial the five status texts split its
    range without a gap: "No Oscillation Detected" exactly at 0, "Minimal
    Oscillation" on (0, 0.2], "Equilibrium Found" on (0.2, 0.5), "Slight
    Movement" on [0.5, 2) and "Moving Significantly" from 2 on.  Outside a
    trial the line reads "At Rest" once the system is set up. *)
Theorem status_line_thresholds :
  forall (k : R) (es : list event),
    let s := run es (initial k) in
    let m := maxCylinderDisplacement s in
    0 <= m /\
    (fullSystemSetup s = true -> isAnimating s = false ->
     cylinderStatus s = AtRest) /\
    (fullSystemSetup s = true -> isAnimating s = true ->
     (cylinderStatus s = NoOscillationDetected <-> m = 0) /\
     (cylinderStatus s = MinimalOscillation <-> 0 < m <= 0.2) /\
     (cylinderStatus s = EquilibriumFound <-> 0.2 < m < 0.5) /\
     (cylinderStatus s = SlightMovement <-> 0.5 <= m < 2) /\
     (cylinderStatus s = MovingSignificantly <-> 2 <= m)).
Proof.
  intros k es s m.
  assert (Hm : 0 <= m).
  { apply run_max_nonneg. cbn [initial maxCylinderDisplacement]. lra. }
  refine (conj Hm (conj _ _)).
  - intros Hfull Hidle. unfold cylinderStatus. rewrite Hfull, Hidle.
    reflexivity.
  - intros Hfull Hanim. unfold cylinderStatus. rewrite Hfull, Hanim.
    fold m. clearbody m. clear s Hfull Hanim.
    destruct (Req_dec_T m 0) as [H0 | H0].
    { replace (JS.eqb m 0) with true by (symmetry; js_cmp).
      repeat split; intros; try discriminate; try lra. }
    replace (JS.eqb m 0) with false by (symmetry; js_cmp).
    replace (m >? 0) with true by (symmetry; js_cmp).
    destruct (Rle_dec m 0.2) as [H1 | H1].
    { replace (m <=? 0.2) with true by (symmetry; js_cmp). cbn [andb].
      repeat split; intros; try discriminate; try lra. }
    replace (m <=? 0.2) with false by (symmetry; js_cmp). cbn [andb].
    replace (m >? 0.2) with true by (symmetry; js_cmp).
    destruct (Rlt_dec m 0.5) as [H2 | H2].
    { replace (m <? 0.5) with true by (symmetry; js_cmp). cbn [andb].
      repeat split; intros; try discriminate; try lra. }
    replace (m <? 0.5) with false by (symmetry; js_cmp). cbn [andb].
    replace (m >=? 0.5) with true by (symmetry; js_cmp).
    destruct (Rlt_dec m 2) as [H3 | H3].
    { replace (m <? 2) with true by (symmetry; js_cmp). cbn [andb].
      repeat split; intros; try discriminate; try lra. }
    replace (m <? 2) with false by (symmetry; js_cmp). cbn [andb].
    repeat split; intros; try discriminate; try lra.
Qed.

(** *** The guided measurement of x0 *)

Lemma run_app (es1 es2 : list event) (s : State) :
  run (es1 ++ es2) s = run es2 (run es1 s).
Proof. unfold run. apply fold_left_app. Qed.

(** Moving the spring-constant slider any number of times. *)
Lemma setK_run (ks : list R) :
  forall s : State,
    extensionDueToMass s = smallMass * g / effectiveSpringConstant s ->
    let s' := run (map SetK ks) s in
    effectiveSpringConstant s' = last ks (effectiveSpringConstant s) /\
    extensionDueToMass s' = smallMass * g / effectiveSpringConstant s' /\
    x1 s' = x1 s /\
    massMOnlyAttached s' = massMOnlyAttached s /\
    fullSystemSetup s' = fullSystemSetup s /\
    (massMOnlyAttached s = false ->
     currentSpringLength s' = currentSpringLength s) /\
    (massMOnlyAttached s = true -> fullSystemSetup s = false ->
     currentSpringLength s = naturalSpringLength + extensionDueToMass s ->
     currentSpringLength s' = naturalSpringLength + extensionDueToMass s').
Proof.
  induction ks as [|k ks IH]; intros s He.
  - cbn. repeat split; auto.
  - cbv zeta. change (run (map SetK (k :: ks)) s)
      with (run (map SetK ks) (setK k s)).
    destruct (IH (setK k s) eq_refl) as (H1 & H2 & H3 & H4 & H5 & H6 & H7).
    cbv zeta in *.
    rewrite AirTableMore.last_cons_default.
    refine (conj H1 (conj H2 (conj H3 (conj H4 (conj H5 (conj _ _)))))).
    + intros Hm. rewrite H6 by exact Hm.
      unfold setK. cbv zeta. cbn [currentSpringLength]. rewrite Hm.
      reflexivity.
    + intros Hm Hf _. apply H7; [exact Hm | exact Hf |].
      unfold setK. cbv zeta. cbn [currentSpringLength extensionDueToMass].
      rewrite Hm, Hf. reflexivity.
Qed.

(** X22: the guided measurement obeys Hooke's law.  Whatever positive
    values the spring-constant slider goes through before and after the small
    mass is attached, the three steps "measure x1", "attach mass", "measure
    x2" record x1 = 30 cm and an extension x0 = x2 - x1 with
    k x0 = m g for the value k the slider has when x2 is measured; the spring
    is then set to x1 plus the extension slider, and the pendulum to the
    release angle of the height slider. *)
Theorem measured_extension_obeys_hooke :
  forall (k0 : R) (ks1 ks2 : list R) (xExtension hSlider : R),
    0 < k0 ->
    Forall (fun k => 0 < k) ks1 ->
    Forall (fun k => 0 < k) ks2 ->
    let k := last ks2 (last ks1 k0) in
    let s := run ([MeasureX1] ++ map SetK ks1 ++ [AttachMass] ++
                  map SetK ks2 ++ [MeasureX2 xExtension hSlider])
                 (initial k0) in
    0 < k /\
    effectiveSpringConstant s = k /\
    x1 s = Some naturalSpringLength /\
    (exists e : R,
        x0 s = Some e /\ k * e = smallMass * g /\
        x2 s = Some (naturalSpringLength + e)) /\
    x3 s = Some (naturalSpringLength + xExtension) /\
    currentSpringLength s = naturalSpringLength + xExtension /\
    pendulumAngle s = calculateReleaseAngle hSlider /\
    fullSystemSetup s = true.
Proof.
  intros k0 ks1 ks2 xe hs Hk0 Hks1 Hks2 k s.
  assert (Hlast : forall ks d, 0 < d -> Forall (fun k => 0 < k) ks ->
                               0 < last ks d).
  { clear. intros ks d Hd Hks. revert d Hd.
    induction Hks as [|u ks Hu _ IH]; intros d Hd; [exact Hd|].
    rewrite AirTableMore.last_cons_default. apply IH, Hu. }
  assert (Hk : 0 < k) by (apply Hlast; [apply Hlast|]; assumption).
  subst s. rewrite !run_app.
  set (sa := run [MeasureX1] (initial k0)).
  destruct (setK_run ks1 sa eq_refl) as (A1 & A2 & A3 & A4 & A5 & A6 & _).
  cbv zeta in *.
  set (sb := run (map SetK ks1) sa) in *.
  change (effectiveSpringConstant sa) with k0 in A1.
  set (sc := run [AttachMass] sb).
  assert (C2 : extensionDueToMass sc =
               smallMass * g / effectiveSpringConstant sc) by exact A2.
  destruct (setK_run ks2 sc C2) as (B1 & B2 & B3 & B4 & B5 & _ & B7).
  cbv zeta in *.
  set (sd := run (map SetK ks2) sc) in *.
  change (effectiveSpringConstant sc) with (effectiveSpringConstant sb) in B1.
  rewrite A1 in B1. fold k in B1.
  specialize (B7 eq_refl eq_refl eq_refl).
  change (x1 sc) with (x1 sb) in B3. rewrite A3 in B3.
  change (x1 sa) with (Some naturalSpringLength) in B3.
  change (run [MeasureX2 xe hs] sd) with (measureX2 xe hs sd).
  unfold measureX2. cbv zeta.
  cbn [effectiveSpringConstant x1 x0 x2 x3 currentSpringLength pendulumAngle
       fullSystemSetup].
  rewrite B1, B3, B7, B2, B1. cbn [num_of].
  refine (conj Hk (conj eq_refl (conj eq_refl (conj _ _)))).
  - exists (naturalSpringLength + smallMass * g / k - naturalSpringLength).
    split; [reflexivity|]. split; [field; lra|].
    f_equal. unfold Rdiv. ring.
  - repeat split.
Qed.

Lemma measured_extension_obeys_hooke_witness :
  let s := run ([MeasureX1] ++ map SetK [2000] ++ [AttachMass] ++
                map SetK [2450] ++ [MeasureX2 20 20]) (initial 1000) in
  exists e : R, x0 s = Some e /\ 2450 * e = smallMass * g.
Proof.
  intros s.
  destruct (measured_extension_obeys_hooke 1000 [2000] [2450] 20 20)
    as (_ & _ & _ & (e & He & Hhooke & _) & _).
  - lra.
  - repeat constructor; lra.
  - repeat constructor; lra.
  - exists e. split; [exact He | exact Hhooke].
Defined.

(** *** The analysis of recorded points *)

(** X23: the analysis of recorded points that lie exactly on a line
    x = a h + b (at least two different heights), after a set-up that
    measured the extension x0.  It fits slope a and intercept b; for a slope
    other than 0 it reports the rope length 2 x0 / a, which is the actual
    75 cm with a percent error of 0 when a = 2 x0 / 75; for slope 0 neither
    the length nor the percent error is a finite number. *)
Theorem analysis_recovers_rope_length :
  forall (s : State) (hs : list R) (a b e : R),
    x0 s = Some e ->
    RegressionData.two_distinct hs ->
    let recordedData := map (fun hv => mkPoint (a * hv + b) hv) hs in
    exists A : Analysis,
      analyze s recordedData = Some A /\
      Regression.slope (fit A) = JS.Fin a /\
      Regression.intercept (fit A) = JS.Fin b /\
      (a <> 0 -> experimentalLength A = JS.Fin (2 * e / a)) /\
      (a = 0 ->
       experimentalLength A = JS.NonFinite /\
       percentError A = JS.NonFinite) /\
      (e <> 0 -> a = 2 * e / actualRopeLength ->
       experimentalLength A = JS.Fin actualRopeLength /\
       percentError A = JS.Fin 0).
Proof.
  intros s hs a b e He Hd recordedData.
  pose proof (RegressionFacts.two_distinct_length hs Hd) as Hlen.
  assert (Hh : map h recordedData = hs).
  { unfold recordedData. rewrite map_map. cbn [h]. apply map_id. }
  assert (Hx : map x recordedData = RegressionData.line a b hs).
  { unfold recordedData, RegressionData.line. rewrite map_map.
    reflexivity. }
  unfold analyze.
  assert (Hl : length recordedData = length hs)
    by (unfold recordedData; apply length_map).
  rewrite Hl.
  destruct (Nat.ltb_spec (length hs) 2) as [Hlt | _]; [lia|].
  cbv zeta. rewrite Hh, Hx. unfold linearRegression.
  rewrite (RegressionMore.fit_on_line a b hs Hd).
  rewrite He. cbn [num_of].
  eexists. split; [reflexivity|].
  cbn [fit experimentalLength percentError Regression.slope
       Regression.intercept].
  refine (conj eq_refl (conj eq_refl (conj _ (conj _ _)))).
  - intros Ha. cbn [JS.div].
    destruct (Req_dec_T a 0) as [Hz | _]; [contradiction | reflexivity].
  - intros Ha. cbn [JS.div].
    destruct (Req_dec_T a 0) as [_ | Hz]; [|contradiction].
    cbn [JS.sub JS.div JS.mul JSArray.num_abs]. split; reflexivity.
  - intros He0 Ha. unfold actualRopeLength in *.
    assert (Hnz : a <> 0).
    { rewrite Ha. intros Hz.
      apply He0. apply (Rmult_eq_reg_r (2 / 75)); lra. }
    cbn [JS.div].
    destruct (Req_dec_T a 0) as [Hz | _]; [contradiction|].
    assert (Hlen75 : 2 * e / a = 75) by (rewrite Ha; field; lra).
    rewrite Hlen75. cbn [JS.sub JS.div].
    destruct (Req_dec_T 75 0) as [Hz | _]; [lra|].
    cbn [JS.mul JSArray.num_abs].
    split; [reflexivity|]. f_equal.
    replace ((75 - 75) / 75 * 100) with 0 by field.
    apply Rabs_R0.
Qed.

Lemma analysis_recovers_rope_length_witness :
  exists A : Analysis,
    analyze defaultSetup
      (map (fun hv => mkPoint (0.05 * hv + 19) hv) [10; 20; 30]) = Some A /\
    Regression.slope (fit A) = JS.Fin 0.05.
Proof.
  destruct (analysis_recovers_rope_length defaultSetup [10; 20; 30] 0.05 19
              (naturalSpringLength + smallMass * g / 2450
               - naturalSpringLength))
    as (A & HA & Hs & _).
  - reflexivity.
  - exists 10, 20. cbn [In]. repeat split; [left | right; left | lra];
      reflexivity.
  - exists A. split; [exact HA | exact Hs].
Defined.

End CentripetalMore.
